(** * routing/route.cpp : annotation tables, time estimator, route merger

    A shallow embedding of [routing::Route] (omim, routing/route.cpp).

    - [uint32_t] values are [N] with the wrap-around at [2^32] written out;
      [size_t] sizes and iterator positions are [nat] (an iterator of a
      [std::vector] is its offset from [begin()], [end()] is the length).
    - [double] is idealised as an exact rational [Q]: rounding, NaN and
      infinities are not modelled.
    - A run of a member function either returns or stops: a failed [CHECK]
      (all builds), a failed [ASSERT] (debug builds only) or a read outside
      a vector, which C++ leaves undefined.  This is the [result] type.
    - The collaborators that live outside route.cpp (MercatorBounds, the
      angle helpers, the almost-equal tests, the polyline simplifier) are the
      fields of the class [Env]. *)

From Stdlib Require Import String.
From Stdlib Require Import Bool Arith NArith ZArith QArith Qabs Qround Lia Lqa List Sorted.
Import ListNotations.

Local Open Scope nat_scope.

(* ------------------------------------------------------------------ *)
(** ** Outcomes of a call *)

Inductive result (A : Type) : Type :=
| Ok (a : A)
| CheckFailed      (* CHECK(...) failed: aborts in every build *)
| AssertFailed     (* ASSERT(...) failed: aborts in debug builds *)
| OutOfBounds.     (* a vector was read outside [0, size) *)

Arguments Ok {A} a.
Arguments CheckFailed {A}.
Arguments AssertFailed {A}.
Arguments OutOfBounds {A}.

Definition bind {A B} (m : result A) (k : A -> result B) : result B :=
  match m with
  | Ok a => k a
  | CheckFailed => CheckFailed
  | AssertFailed => AssertFailed
  | OutOfBounds => OutOfBounds
  end.

Notation "x <- m ;; k" := (bind m (fun x => k))
  (at level 61, m at next level, right associativity).
Notation "m ;;; k" := (bind m (fun _ => k))
  (at level 61, right associativity).

Definition CHECK (b : bool) : result unit :=
  if b then Ok tt else CheckFailed.

(** [v[i]] on a [std::vector]: no bounds check in the source. *)
Definition at_ {A} (v : list A) (i : nat) : result A :=
  match nth_error v i with
  | Some a => Ok a
  | None => OutOfBounds
  end.

(** [v.back()] once the caller has established that [v] is not empty. *)
Definition back {A} (v : list A) : result A :=
  match v with
  | [] => OutOfBounds
  | _ => at_ v (length v - 1)
  end.

(** [v.pop_back()]. *)
Definition pop_back {A} (v : list A) : list A := removelast v.

(* ------------------------------------------------------------------ *)
(** ** Machine integers *)

Definition two32 : N := 4294967296%N.

Definition fits32 (n : N) : Prop := (n < two32)%N.

(** [uint32_t] addition. *)
Definition add32 (a b : N) : N := ((a + b) mod two32)%N.

(** [uint32_t] subtraction. *)
Definition sub32 (a b : N) : N := ((a + two32 - b mod two32) mod two32)%N.

(** [static_cast<uint32_t>(size_t)]. *)
Definition static_cast_uint32 (n : nat) : N := (N.of_nat n mod two32)%N.

(** [(double)n] for an unsigned integer. *)
Definition to_double (n : N) : Q := inject_Z (Z.of_N n).

(** [(uint32_t)d]: the fractional part is discarded.  C++ defines the
    conversion only for values in range; outside it the model wraps
    (a negative value yields [0]). *)
Definition double_to_uint32 (d : Q) : N :=
  (Z.to_N (Z.quot (Qnum d) (Zpos (Qden d))) mod two32)%N.

(* ------------------------------------------------------------------ *)
(** ** Data model *)

Record PointD : Type := mkPoint { px : Q; py : Q }.

Inductive TurnDirection : Type :=
| NoTurn | GoStraight
| TurnRight | TurnSharpRight | TurnSlightRight
| TurnLeft | TurnSharpLeft | TurnSlightLeft
| UTurnLeft | UTurnRight
| TakeTheExit
| EnterRoundAbout | LeaveRoundAbout | StayOnRoundAbout
| StartAtEndOfStreet
| ReachedYourDestination.

Definition TurnDirection_eqb (a b : TurnDirection) : bool :=
  match a, b with
  | NoTurn, NoTurn | GoStraight, GoStraight
  | TurnRight, TurnRight | TurnSharpRight, TurnSharpRight
  | TurnSlightRight, TurnSlightRight
  | TurnLeft, TurnLeft | TurnSharpLeft, TurnSharpLeft
  | TurnSlightLeft, TurnSlightLeft
  | UTurnLeft, UTurnLeft | UTurnRight, UTurnRight
  | TakeTheExit, TakeTheExit
  | EnterRoundAbout, EnterRoundAbout | LeaveRoundAbout, LeaveRoundAbout
  | StayOnRoundAbout, StayOnRoundAbout
  | StartAtEndOfStreet, StartAtEndOfStreet
  | ReachedYourDestination, ReachedYourDestination => true
  | _, _ => false
  end.

(** [turns::TurnItem]: the vertex index and the direction. *)
Record TurnItem : Type := mkTurn { m_index : N; m_turn : TurnDirection }.

(** [TurnItem()]: index [numeric_limits<uint32_t>::max()], no turn. *)
Definition TurnItem_default : TurnItem := mkTurn 4294967295%N NoTurn.

(** [TTimeItem = pair<uint32_t, uint32_t>]: vertex index, cumulative seconds. *)
Definition TTimeItem : Type := (N * N)%type.

(** [TStreetItem = pair<uint32_t, string>]: vertex index, street name. *)
Definition TStreetItem : Type := (N * string)%type.

Inductive SpeedGroup : Type :=
| G0 | G1 | G2 | G3 | G4 | G5 | TempBlock | Unknown.

(** [FollowedPolyline::Iter]: a point on the path and the index of the
    vertex that starts the edge it lies on. *)
Record Iter : Type := mkIter { m_pt : PointD; m_ind : nat; m_valid : bool }.

Record FollowedPolyline : Type := mkPoly {
  m_points : list PointD;
  m_current : Iter
}.

Record RoutingSettings : Type := mkSettings {
  m_matchRoute : bool;
  m_keepPedestrianInfo : bool;
  m_matchingThresholdM : Q
}.

Record Route : Type := mkRoute {
  m_routingSettings : RoutingSettings;
  m_poly : FollowedPolyline;
  m_simplifiedPoly : FollowedPolyline;
  m_currentTime : Q;
  m_turns : list TurnItem;
  m_times : list TTimeItem;
  m_streets : list TStreetItem;
  m_altitudes : list Z;
  m_traffic : list SpeedGroup
}.

(** [location::GpsInfo], the fields the matcher reads or writes. *)
Record GpsInfo : Type := mkGps {
  m_latitude : Q;
  m_longitude : Q;
  m_bearing : Q
}.

(** [location::RouteMatchingInfo], the diagnostics sink. *)
Record RouteMatchingInfo : Type := mkMatching {
  m_matchedPosition : PointD;
  m_indexInRoute : nat;
  m_isPositionMatched : bool;
  m_distanceFromBegin : Q
}.

(** [Route::SegmentInfo], the fields [GetSubrouteInfo] fills. *)
Record SegmentInfo : Type := mkSegmentInfo {
  si_turn : TurnItem;
  si_junction : PointD * Z;
  si_streetName : string;
  si_distFromBeginningMeters : Q;
  si_distFromBeginningMerc : Q;
  si_timeFromBeginningS : N;
  si_traffic : SpeedGroup
}.

(* ------------------------------------------------------------------ *)
(** ** <algorithm> *)

Section Algorithm.
Variables (A V : Type).

(** The loop of [std::upper_bound(first, last, value, comp)]: halve
    [count] until it is zero.  [fuel] bounds the number of iterations;
    [count] itself is enough. *)
Fixpoint upper_bound_loop (v : list A) (value : V) (comp : V -> A -> bool)
         (fuel first count : nat) : nat :=
  match fuel with
  | O => first
  | S fuel' =>
      if count =? 0 then first
      else
        let step := count / 2 in
        let it := first + step in
        match nth_error v it with
        | None => first
        | Some x =>
            if negb (comp value x)
            then upper_bound_loop v value comp fuel' (it + 1) (count - (step + 1))
            else upper_bound_loop v value comp fuel' first step
        end
  end.

Definition upper_bound (v : list A) (value : V) (comp : V -> A -> bool) : nat :=
  upper_bound_loop v value comp (length v) 0 (length v).

End Algorithm.

Arguments upper_bound_loop {A V} v value comp fuel first count.
Arguments upper_bound {A V} v value comp.

(** Position of the first element that satisfies [f]; the length when
    there is none. *)
Fixpoint find_pos {A} (f : A -> bool) (l : list A) : nat :=
  match l with
  | [] => 0
  | x :: l' => if f x then 0 else S (find_pos f l')
  end.

(** [l] is partitioned by [f]: the elements that fail [f] come first. *)
Definition partitioned {A} (f : A -> bool) (l : list A) : Prop :=
  exists l1 l2, l = l1 ++ l2 /\
                Forall (fun x => f x = false) l1 /\
                Forall (fun x => f x = true) l2.

(** [std::is_sorted(first, last, comp)]: no element is [comp]-less than
    its predecessor. *)
Fixpoint is_sorted {A} (comp : A -> A -> bool) (v : list A) : bool :=
  match v with
  | [] => true
  | x :: rest =>
      match rest with
      | [] => true
      | y :: _ => negb (comp y x) && is_sorted comp rest
      end
  end.

Definition empty {A} (v : list A) : bool :=
  match v with [] => true | _ => false end.

(* ------------------------------------------------------------------ *)
(** ** Collaborators outside route.cpp *)

Class Env : Type := {
  (** [true] in a debug build, where [ASSERT] is compiled in. *)
  debug : bool;
  (** [MercatorBounds::DistanceOnEarth], metres between two points. *)
  DistanceOnEarth : PointD -> PointD -> Q;
  (** [m2::PointD::Length], planar distance. *)
  Length : PointD -> PointD -> Q;
  (** [MercatorBounds::FromLatLon], [YToLat], [XToLon]. *)
  FromLatLon : Q -> Q -> PointD;
  YToLat : Q -> Q;
  XToLon : Q -> Q;
  (** [my::AlmostEqualULPs] on doubles and [m2::AlmostEqualULPs] on points. *)
  AlmostEqualULPs : Q -> Q -> bool;
  PointAlmostEqualULPs : PointD -> PointD -> bool;
  (** [my::RadToDeg (ang::AngleTo p1 p2)] and [location::AngleToBearing]. *)
  AngleToDeg : PointD -> PointD -> Q;
  AngleToBearing : Q -> Q;
  (** [feature::kInvalidAltitude]. *)
  kInvalidAltitude : Z;
  (** [SimplifyNearOptimal] with the arguments [Route::Update] passes. *)
  SimplifyNearOptimal : list PointD -> list PointD
}.

Definition kSteetNameLinkMeters : Q := 400.

Section RouteModel.
Context {env : Env}.

Definition ASSERT (b : bool) : result unit :=
  if debug && negb b then AssertFailed else Ok tt.

(* ------------------------------------------------------------------ *)
(** ** The path projector *)

(** [FollowedPolyline] is declared and defined outside route.cpp.  Its
    members are modelled from the specification, which lists the
    capabilities of the projector: validity, cursor accessor,
    iterator-by-index, arc length between cursors, total arc length,
    append and pop-last. *)

(** Modelled from the spec: [GetPolyline().GetSize()], the vertex count
    of the path. *)
Definition GetSize (p : FollowedPolyline) : nat := length (m_points p).

(** Modelled from the spec: [GetPolyline().GetPoint(i)], the vertex of
    index [i]; the vector is read without a bounds check. *)
Definition GetPoint (p : FollowedPolyline) (i : nat) : result PointD :=
  at_ (m_points p) i.

(** Modelled from the spec: [GetCurrentIter()], the cursor accessor. *)
Definition GetCurrentIter (p : FollowedPolyline) : Iter := m_current p.

(** Modelled from the spec: [FollowedPolyline::IsValid()], the cursor
    projection is valid and the path has an edge. *)
Definition PolyIsValid (p : FollowedPolyline) : bool :=
  m_valid (m_current p) && (1 <? GetSize p).

(** Modelled from the spec: [GetIterToIndex(i)], the cursor on vertex
    [i]. *)
Definition GetIterToIndex (p : FollowedPolyline) (i : nat) : result Iter :=
  pt <- GetPoint p i ;; Ok (mkIter pt i true).

(** Lengths of the edges [points[k] -> points[k+1]]. *)
Fixpoint edges (metric : PointD -> PointD -> Q) (pts : list PointD) : list Q :=
  match pts with
  | [] => []
  | a :: rest =>
      match rest with
      | [] => []
      | b :: _ => metric a b :: edges metric rest
      end
  end.

Definition Qsum (l : list Q) : Q := fold_right Qplus 0%Q l.

(** Modelled from the spec: arc length from the first vertex to vertex
    [k], the sum of the lengths of the edges before it. *)
Definition arcTo (p : FollowedPolyline) (k : nat) : Q :=
  Qsum (firstn k (edges DistanceOnEarth (m_points p))).

(** Modelled from the spec: arc length from the first vertex to a
    cursor, up to the vertex that starts its edge, then along the edge. *)
Definition arcOf (p : FollowedPolyline) (it : Iter) : result Q :=
  v <- GetPoint p (m_ind it) ;;
  Ok (arcTo p (m_ind it) + DistanceOnEarth (m_pt it) v)%Q.

(** Modelled from the spec: [GetDistanceM(it1, it2)], the arc length
    between two cursors. *)
Definition GetDistanceM (p : FollowedPolyline) (it1 it2 : Iter) : result Q :=
  a1 <- arcOf p it1 ;;
  a2 <- arcOf p it2 ;;
  Ok (a2 - a1)%Q.

(** Modelled from the spec: [GetTotalDistanceM()], the sum of the
    consecutive vertex-to-vertex arc lengths. *)
Definition GetTotalDistanceM (p : FollowedPolyline) : Q :=
  Qsum (edges DistanceOnEarth (m_points p)).

(** Modelled from the spec: [GetMercatorDistanceFromBegin()], the planar
    arc length from the first vertex to the cursor. *)
Definition GetMercatorDistanceFromBegin (p : FollowedPolyline) : result Q :=
  v <- GetPoint p (m_ind (m_current p)) ;;
  Ok (Qsum (firstn (m_ind (m_current p)) (edges Length (m_points p)))
      + Length v (m_pt (m_current p)))%Q.

(** Modelled from the spec: [PopBack()] removes the last vertex; the
    cursor is moved only by fix-matching. *)
Definition PopBack (p : FollowedPolyline) : FollowedPolyline :=
  mkPoly (pop_back (m_points p)) (m_current p).

(** Modelled from the spec: [Append(poly)] adds the vertices of [poly] at
    the end. *)
Definition Append (p q : FollowedPolyline) : FollowedPolyline :=
  mkPoly (m_points p ++ m_points q) (m_current p).

(** Modelled from the spec: [Begin()] and [End()], the cursors on the
    first and on the last vertex. *)
Definition Begin (p : FollowedPolyline) : result Iter := GetIterToIndex p 0.

Definition End (p : FollowedPolyline) : result Iter :=
  GetIterToIndex p (GetSize p - 1).

Definition origin : PointD := mkPoint 0 0.

(** Modelled from the spec: [FollowedPolyline(begin, end)], with the
    cursor on the first vertex, and [FollowedPolyline()], the empty path. *)
Definition MakePolyline (pts : list PointD) : FollowedPolyline :=
  match pts with
  | [] => mkPoly [] (mkIter origin 0 false)
  | a :: _ => mkPoly pts (mkIter a 0 true)
  end.

(* ------------------------------------------------------------------ *)
(** ** Route: queries *)

(** Modelled from the spec: [Route::IsValid] (declared in route.hpp): the
    route is valid when its path is not empty. *)
Definition IsValid (r : Route) : bool := 0 <? GetSize (m_poly r).

Definition GetTraffic (r : Route) : list SpeedGroup := m_traffic r.

Definition GetTotalDistanceMeters (r : Route) : Q :=
  if negb (PolyIsValid (m_poly r)) then 0%Q
  else GetTotalDistanceM (m_poly r).

Definition GetTotalTimeSec (r : Route) : N :=
  if empty (m_times r) then 0%N else snd (last (m_times r) (0%N, 0%N)).

Definition distFn (r : Route) (start end_ : nat) : result Q :=
  it1 <- GetIterToIndex (m_poly r) start ;;
  it2 <- GetIterToIndex (m_poly r) end_ ;;
  GetDistanceM (m_poly r) it1 it2.

Definition GetCurrentTimeToEndSec (r : Route) : result N :=
  let polySz := GetSize (m_poly r) in
  if empty (m_times r) || (polySz =? 0) then
    ASSERT (negb (empty (m_times r))) ;;;
    ASSERT (negb (polySz =? 0)) ;;;
    Ok 0%N
  else
    let cur := GetCurrentIter (m_poly r) in
    let it := upper_bound (m_times r) (m_ind cur)
                (fun v item => (N.of_nat v <? fst item)%N) in
    if it =? length (m_times r) then Ok 0%N
    else
      let idx := it in
      target <- at_ (m_times r) it ;;
      time <- (if 0 <? idx
               then prev <- at_ (m_times r) (idx - 1) ;;
                    Ok (to_double (snd target) - to_double (snd prev))%Q
               else Ok (to_double (snd target))) ;;
      ASSERT (fst target <? N.of_nat polySz)%N ;;;
      start <- (if 0 <? idx
                then prev <- at_ (m_times r) (idx - 1) ;; Ok (N.to_nat (fst prev))
                else Ok 0) ;;
      dist <- distFn r start (N.to_nat (fst target)) ;;
      if negb (AlmostEqualULPs dist 0)
      then
        d <- distFn r (m_ind cur) (N.to_nat (fst target)) ;;
        v <- GetPoint (m_poly r) (m_ind cur) ;;
        let distRemain := (d - DistanceOnEarth (m_pt cur) v)%Q in
        Ok (double_to_uint32
              (to_double (sub32 (GetTotalTimeSec r) (snd target))
               + time * (distRemain / dist))%Q)
      else Ok (sub32 (GetTotalTimeSec r) (snd target)).

Definition GetCurrentTurn (r : Route) : result nat :=
  ASSERT (negb (empty (m_turns r))) ;;;
  let t := mkTurn (static_cast_uint32 (m_ind (GetCurrentIter (m_poly r))))
                  (m_turn TurnItem_default) in
  Ok (upper_bound (m_turns r) t
        (fun lhs rhs => (m_index lhs <? m_index rhs)%N)).

(** [GetCurrentTurn(distanceToTurnMeters, turn)]: [None] is the [false]
    return, which leaves both out-parameters as they were. *)
Definition GetCurrentTurn2 (r : Route) : result (option (Q * TurnItem)) :=
  it <- GetCurrentTurn r ;;
  if it =? length (m_turns r)
  then ASSERT false ;;; Ok None
  else
    t <- at_ (m_turns r) it ;;
    let segIdx := N.to_nat (m_index t) in
    target <- GetIterToIndex (m_poly r) segIdx ;;
    d <- GetDistanceM (m_poly r) (GetCurrentIter (m_poly r)) target ;;
    Ok (Some (d, t)).

(** The [while] loop of [GetCurrentStreetNameIterAfter].  [rest] is the
    part of the table [curIter] points at: it is empty exactly when
    [curIter == m_streets.cend()]. *)
Fixpoint street_walk (rest : list TStreetItem) (ind : nat)
         (prevIter curIter : nat) : result nat :=
  match rest with
  | [] => OutOfBounds
  | c :: rest' =>
      if (fst c <? N.of_nat ind)%N
      then
        match rest' with
        | [] => Ok (curIter + 1)
        | _ :: _ => street_walk rest' ind (prevIter + 1) (curIter + 1)
        end
      else Ok (if (fst c =? N.of_nat ind)%N then curIter else prevIter)
  end.

Definition GetCurrentStreetNameIterAfter (r : Route) (iter : Iter) : result nat :=
  match m_streets r with
  | [] => Ok (length (m_streets r))
  | _ :: rest => street_walk rest (m_ind iter) 0 1
  end.

Definition GetCurrentStreetName (r : Route) : result string :=
  it <- GetCurrentStreetNameIterAfter r (GetCurrentIter (m_poly r)) ;;
  if it =? length (m_streets r) then Ok EmptyString
  else s <- at_ (m_streets r) it ;; Ok (snd s).

(** The [for] loop of [GetStreetNameAfterIdx] over the entries from [it]. *)
Fixpoint street_scan (r : Route) (polyIter : Iter) (rest : list TStreetItem)
  : result string :=
  match rest with
  | [] => Ok EmptyString
  | s :: rest' =>
      if negb (String.eqb (snd s) EmptyString)
      then
        target <- GetIterToIndex (m_poly r)
                    (N.to_nat (N.max (fst s) (static_cast_uint32 (m_ind polyIter)))) ;;
        d <- GetDistanceM (m_poly r) polyIter target ;;
        Ok (if Qlt_le_dec d kSteetNameLinkMeters then snd s else EmptyString)
      else street_scan r polyIter rest'
  end.

Definition GetStreetNameAfterIdx (r : Route) (idx : N) : result string :=
  polyIter <- GetIterToIndex (m_poly r) (N.to_nat idx) ;;
  it <- GetCurrentStreetNameIterAfter r polyIter ;;
  if it =? length (m_streets r) then Ok EmptyString
  else street_scan r polyIter (skipn it (m_streets r)).

(** The [do ... while] loop of [GetPolySegAngle]: [rest] holds the
    vertices from index [i] on. *)
Fixpoint seg_angle_loop (p1 : PointD) (rest : list PointD) : result Q :=
  match rest with
  | [] => OutOfBounds
  | p2 :: rest' =>
      if PointAlmostEqualULPs p1 p2
      then
        match rest' with
        | [] => Ok 0%Q
        | _ :: _ => seg_angle_loop p1 rest'
        end
      else Ok (AngleToDeg p1 p2)
  end.

Definition GetPolySegAngle (r : Route) (ind : nat) : result Q :=
  let polySz := GetSize (m_poly r) in
  if polySz <=? ind + 1 then ASSERT false ;;; Ok 0%Q
  else
    p1 <- GetPoint (m_poly r) ind ;;
    seg_angle_loop p1 (skipn (ind + 1) (m_points (m_poly r))).

(** Modelled from the spec: [RouteMatchingInfo::Set], the sink takes the
    snapped point, its vertex index and the arc length from the start. *)
Definition MatchingSet (pt : PointD) (ind : nat) (dist : Q) : RouteMatchingInfo :=
  mkMatching pt ind true dist.

(** [MatchLocationToRoute(location, routeMatchingInfo)]: the state of the
    route, of the fix and of the diagnostics sink after the call. *)
Definition MatchLocationToRoute (r : Route) (location : GpsInfo)
           (routeMatchingInfo : RouteMatchingInfo)
  : result (Route * GpsInfo * RouteMatchingInfo) :=
  if PolyIsValid (m_poly r) then
    let iter := GetCurrentIter (m_poly r) in
    let locationMerc := FromLatLon (m_latitude location) (m_longitude location) in
    let distFromRouteM := DistanceOnEarth (m_pt iter) locationMerc in
    if Qlt_le_dec distFromRouteM (m_matchingThresholdM (m_routingSettings r)) then
      let lat := YToLat (py (m_pt iter)) in
      let lon := XToLon (px (m_pt iter)) in
      bearing <- (if m_matchRoute (m_routingSettings r)
                  then a <- GetPolySegAngle r (m_ind iter) ;; Ok (AngleToBearing a)
                  else Ok (m_bearing location)) ;;
      d <- GetMercatorDistanceFromBegin (m_poly r) ;;
      Ok (r, mkGps lat lon bearing, MatchingSet (m_pt iter) (m_ind iter) d)
    else Ok (r, location, routeMatchingInfo)
  else Ok (r, location, routeMatchingInfo).

(* ------------------------------------------------------------------ *)
(** ** Route: merge *)

Definition set_poly (r : Route) (p : FollowedPolyline) : Route :=
  mkRoute (m_routingSettings r) p (m_simplifiedPoly r) (m_currentTime r)
          (m_turns r) (m_times r) (m_streets r) (m_altitudes r) (m_traffic r).

Definition set_turns (r : Route) (t : list TurnItem) : Route :=
  mkRoute (m_routingSettings r) (m_poly r) (m_simplifiedPoly r) (m_currentTime r)
          t (m_times r) (m_streets r) (m_altitudes r) (m_traffic r).

Definition set_times (r : Route) (t : list TTimeItem) : Route :=
  mkRoute (m_routingSettings r) (m_poly r) (m_simplifiedPoly r) (m_currentTime r)
          (m_turns r) t (m_streets r) (m_altitudes r) (m_traffic r).

Definition set_streets (r : Route) (s : list TStreetItem) : Route :=
  mkRoute (m_routingSettings r) (m_poly r) (m_simplifiedPoly r) (m_currentTime r)
          (m_turns r) (m_times r) s (m_altitudes r) (m_traffic r).

Definition set_traffic (r : Route) (t : list SpeedGroup) : Route :=
  mkRoute (m_routingSettings r) (m_poly r) (m_simplifiedPoly r) (m_currentTime r)
          (m_turns r) (m_times r) (m_streets r) (m_altitudes r) t.

Definition Update (r : Route) : Route :=
  if negb (PolyIsValid (m_poly r)) then r
  else
    let simplified :=
      if m_keepPedestrianInfo (m_routingSettings r)
      then MakePolyline (SimplifyNearOptimal (m_points (m_poly r)))
      else MakePolyline [] in
    mkRoute (m_routingSettings r) (m_poly r) simplified 0%Q
            (m_turns r) (m_times r) (m_streets r) (m_altitudes r) (m_traffic r).

Definition AppendTraffic (this route : Route) : result Route :=
  CHECK (IsValid route) ;;;
  if empty (GetTraffic this) && empty (GetTraffic route) then Ok this
  else if negb (IsValid this) then Ok (set_traffic this (GetTraffic route))
  else
    let this1 :=
      if empty (GetTraffic this)
      then set_traffic this (repeat Unknown (GetSize (m_poly this)))
      else this in
    CHECK (length (GetTraffic this1) =? GetSize (m_poly this1)) ;;;
    if empty (GetTraffic route)
    then
      CHECK (1 <=? GetSize (m_poly route)) ;;;
      Ok (set_traffic this1
            (m_traffic this1 ++ repeat Unknown (GetSize (m_poly route) - 1)))
    else Ok (set_traffic this1 (m_traffic this1 ++ GetTraffic route)).

(** The three re-basing loops of [AppendRoute]. *)
Definition append_turns (indexOffset : nat) (from : list TurnItem) : list TurnItem :=
  map (fun t => mkTurn (add32 (m_index t) (N.of_nat indexOffset)) (m_turn t))
      (filter (fun t => negb (m_index t =? 0)%N) from).

Definition append_streets (indexOffset : nat) (from : list TStreetItem)
  : list TStreetItem :=
  map (fun s => (add32 (fst s) (N.of_nat indexOffset), snd s))
      (filter (fun s => negb (fst s =? 0)%N) from).

Definition append_times (indexOffset : nat) (estimatedTime : Q)
           (from : list TTimeItem) : list TTimeItem :=
  map (fun t => (add32 (fst t) (N.of_nat indexOffset),
                 double_to_uint32 (to_double (snd t) + estimatedTime)%Q))
      (filter (fun t => negb (fst t =? 0)%N) from).

Definition AppendRoute (this route : Route) : result Route :=
  if negb (IsValid route) then Ok this
  else
    let estimatedTime :=
      if empty (m_times this) then 0%Q
      else to_double (snd (last (m_times this) (0%N, 0%N))) in
    this1 <-
      (if negb (GetSize (m_poly this) =? 0) then
         ASSERT (negb (empty (m_turns this))) ;;;
         ASSERT (negb (empty (m_times this))) ;;;
         (if negb (empty (m_streets this))
          then ASSERT (add32 (fst (last (m_streets this) (0%N, EmptyString))) 1
                       <? N.of_nat (GetSize (m_poly this)))%N
          else Ok tt) ;;;
         e <- End (m_poly this) ;;
         b <- Begin (m_poly route) ;;
         ASSERT (if Qlt_le_dec (DistanceOnEarth (m_pt e) (m_pt b)) 2 then true else false) ;;;
         let this_a := set_poly this (PopBack (m_poly this)) in
         CHECK (negb (empty (m_turns this_a))) ;;;
         lastTurn <- back (m_turns this_a) ;;
         ASSERT (TurnDirection_eqb (m_turn lastTurn) ReachedYourDestination) ;;;
         let this_b := set_turns this_a (pop_back (m_turns this_a)) in
         CHECK (negb (empty (m_times this_b))) ;;;
         Ok (set_times this_b (pop_back (m_times this_b)))
       else Ok this) ;;
    let indexOffset := GetSize (m_poly this1) in
    let this2 := set_turns this1 (m_turns this1 ++ append_turns indexOffset (m_turns route)) in
    let this3 := set_streets this2
                   (m_streets this2 ++ append_streets indexOffset (m_streets route)) in
    let this4 := set_times this3
                   (m_times this3 ++ append_times indexOffset estimatedTime (m_times route)) in
    this5 <- AppendTraffic this4 route ;;
    let this6 := set_poly this5 (Append (m_poly this5) (m_poly route)) in
    (if negb (empty (GetTraffic this6))
     then CHECK (length (GetTraffic this6) + 1 =? GetSize (m_poly this6))
     else Ok tt) ;;;
    Ok (Update this6).

(* ------------------------------------------------------------------ *)
(** ** Route: segment export *)

Definition GetSubrouteCount (r : Route) : nat := if IsValid r then 1 else 0.

Record ExportState : Type := mkExport {
  turnItemIdx : nat;
  timeIdx : nat;
  distFromBeginningMeters : Q;
  distFromBeginningMerc : Q;
  info : list SegmentInfo
}.

(** One iteration of the [for] loop of [GetSubrouteInfo], at edge [i]. *)
Definition export_step (r : Route) (st : ExportState) (i : nat) : result ExportState :=
  let points := m_points (m_poly r) in
  tk <- at_ (m_turns r) (turnItemIdx st) ;;
  let '(turn, turnItemIdx') :=
    if (m_index tk =? N.of_nat i)%N then (tk, turnItemIdx st + 1)
    else (TurnItem_default, turnItemIdx st) in
  CHECK (turnItemIdx' <=? length (m_turns r)) ;;;
  tm <- at_ (m_times r) (timeIdx st) ;;
  let timeIdx' := if (fst tm =? N.of_nat i)%N then timeIdx st + 1 else timeIdx st in
  a <- at_ points (i - 1) ;;
  b <- at_ points i ;;
  let distM := (distFromBeginningMeters st + DistanceOnEarth a b)%Q in
  let distMerc := (distFromBeginningMerc st + Length a b)%Q in
  altitude <- (if empty (m_altitudes r) then Ok kInvalidAltitude
               else at_ (m_altitudes r) i) ;;
  (* m_times[timeIdx - 1] with an unsigned index: position 0 has no predecessor *)
  tprev <- (if timeIdx' =? 0 then OutOfBounds else at_ (m_times r) (timeIdx' - 1)) ;;
  traffic <- (if empty (m_traffic r) then Ok Unknown else at_ (m_traffic r) (i - 1)) ;;
  Ok (mkExport turnItemIdx' timeIdx' distM distMerc
        (info st ++ [mkSegmentInfo turn (b, altitude) EmptyString distM distMerc
                                   (snd tprev) traffic])).

Fixpoint export_loop (r : Route) (st : ExportState) (idxs : list nat)
  : result ExportState :=
  match idxs with
  | [] => Ok st
  | i :: rest => st' <- export_step r st i ;; export_loop r st' rest
  end.

Definition GetSubrouteInfo (r : Route) (segmentIdx : nat) : result (list SegmentInfo) :=
  CHECK (segmentIdx <? GetSubrouteCount r) ;;;
  CHECK (IsValid r) ;;;
  let polySz := GetSize (m_poly r) in
  CHECK (negb (empty (m_turns r))) ;;;
  lastTurn <- back (m_turns r) ;;
  CHECK (m_index lastTurn <? N.of_nat polySz)%N ;;;
  CHECK (is_sorted (fun lhs rhs => (m_index lhs <? m_index rhs)%N) (m_turns r)) ;;;
  (if negb (empty (m_altitudes r))
   then CHECK (length (m_altitudes r) =? polySz) else Ok tt) ;;;
  CHECK (negb (empty (m_times r))) ;;;
  lastTime <- back (m_times r) ;;
  CHECK (fst lastTime <? N.of_nat polySz)%N ;;;
  CHECK (is_sorted (fun lhs rhs : TTimeItem => (fst lhs <? fst rhs)%N) (m_times r)) ;;;
  (if negb (empty (m_traffic r))
   then CHECK (length (m_traffic r) + 1 =? polySz) else Ok tt) ;;;
  turn0 <- at_ (m_turns r) 0 ;;
  time0 <- at_ (m_times r) 0 ;;
  let st0 := mkExport (if (m_index turn0 =? 0)%N then 1 else 0)
                      (if negb (fst time0 =? 0)%N then 1 else 0)
                      0%Q 0%Q [] in
  st <- export_loop r st0 (seq 1 (polySz - 1)) ;;
  Ok (info st).

End RouteModel.

(* ------------------------------------------------------------------ *)
(** ** A concrete environment and concrete routes

    Geometry on a street grid: coordinates are metres, the distance between
    two points is the sum of the coordinate differences.  Used to run the
    model on concrete routes. *)

Definition gridDistance (p q : PointD) : Q :=
  (Qabs (px p - px q) + Qabs (py p - py q))%Q.

Definition gridEnv (dbg : bool) : Env := {|
  debug := dbg;
  DistanceOnEarth := gridDistance;
  Length := gridDistance;
  FromLatLon := fun lat lon => mkPoint lon lat;
  YToLat := fun y => y;
  XToLon := fun x => x;
  AlmostEqualULPs := Qeq_bool;
  PointAlmostEqualULPs := fun p q => Qeq_bool (px p) (px q) && Qeq_bool (py p) (py q);
  AngleToDeg := fun _ _ => 0%Q;
  AngleToBearing := fun a => a;
  kInvalidAltitude := (-32768)%Z;
  SimplifyNearOptimal := fun pts => pts
|}.

Definition carSettings : RoutingSettings := mkSettings true false 50.

(** A cursor on the edge that starts at vertex [ind], [off] metres along
    the x axis from [(x, 0)]. *)
Definition cursorAt (x : Q) (off : Q) (ind : nat) : Iter :=
  mkIter (mkPoint (x + off) 0) ind true.

(** [n] points [100] m apart on the x axis, starting at [x = 100 * from]. *)
Fixpoint linePoints (from : Z) (n : nat) : list PointD :=
  match n with
  | O => []
  | S n' => mkPoint (inject_Z (100 * from)) 0 :: linePoints (from + 1) n'
  end.

Definition sampleRoute (pts : list PointD) (cur : Iter) (turns : list TurnItem)
           (times : list TTimeItem) (streets : list TStreetItem)
           (traffic : list SpeedGroup) : Route :=
  mkRoute carSettings (mkPoly pts cur) (mkPoly [] (mkIter (mkPoint 0 0) 0 false)) 0
          turns times streets [] traffic.

(** A seven-vertex route on the x axis with the given street table and
    the cursor on vertex [ind]. *)
Definition streetsRoute (streets : list TStreetItem) (ind : nat) : Route :=
  sampleRoute (linePoints 0 7) (cursorAt (inject_Z (100 * Z.of_nat ind)) 0 ind)
              [mkTurn 6 ReachedYourDestination] [(6, 60)%N] streets [].

(* ------------------------------------------------------------------ *)
(** ** Table invariants and the readings of the specification *)

(** Tables sorted ascending by vertex index. *)
Definition streets_sorted (s : list TStreetItem) : Prop :=
  StronglySorted (fun a b => (fst a <= fst b)%N) s.

Definition turns_sorted (t : list TurnItem) : Prop :=
  StronglySorted (fun a b => (m_index a <= m_index b)%N) t.

Definition turns_increasing (t : list TurnItem) : Prop :=
  StronglySorted (fun a b => (m_index a < m_index b)%N) t.

Definition times_sorted (t : list TTimeItem) : Prop :=
  StronglySorted (fun a b => (fst a <= fst b)%N) t.

(** [e] is the street-table entry with the greatest index [<= i]. *)
Definition covering_entry (streets : list TStreetItem) (i : N) (e : TStreetItem) : Prop :=
  In e streets /\ (fst e <= i)%N /\
  forall e', In e' streets -> (fst e' <= i)%N -> (fst e' <= fst e)%N.

(** The traffic array is empty or has one entry per edge. *)
Definition traffic_consistent (r : Route) : Prop :=
  m_traffic r = [] \/ length (m_traffic r) + 1 = GetSize (m_poly r).

(** What [AppendRoute this route] expects of its arguments: [route] has a
    path, the traffic arrays fit their paths and, when [this] has a path,
    its turn table ends with the destination marker, its time table is
    not empty, its last street entry lies before the last vertex and its
    last point is within 2 m of the first point of [route]. *)
Definition MergePre {env : Env} (this route : Route) : Prop :=
  IsValid route = true /\
  traffic_consistent this /\ traffic_consistent route /\
  (GetSize (m_poly this) <> 0 ->
   m_turns this <> [] /\
   m_turn (last (m_turns this) TurnItem_default) = ReachedYourDestination /\
   m_times this <> [] /\
   (m_streets this <> [] ->
    (add32 (fst (last (m_streets this) (0%N, EmptyString))) 1
     < N.of_nat (GetSize (m_poly this)))%N) /\
   (DistanceOnEarth (last (m_points (m_poly this)) origin)
                    (hd origin (m_points (m_poly route))) < 2)%Q).

(** The traffic array [AppendTraffic] leaves behind. *)
Definition merged_traffic (this route : Route) : list SpeedGroup :=
  if empty (m_traffic this) && empty (m_traffic route) then []
  else if GetSize (m_poly this) - 1 =? 0 then m_traffic route
  else (if empty (m_traffic this)
        then repeat Unknown (GetSize (m_poly this) - 1) else m_traffic this)
       ++ (if empty (m_traffic route)
           then repeat Unknown (GetSize (m_poly route) - 1) else m_traffic route).

(** The turn table ends with the destination marker on the last vertex. *)
Definition turns_terminated (r : Route) : Prop :=
  m_turns r <> [] /\
  last (m_turns r) TurnItem_default
  = mkTurn (N.of_nat (GetSize (m_poly r) - 1)) ReachedYourDestination.

(** Two legs to merge: [legA] ends where [legB n] starts; [legB n] has
    [n] vertices. *)
Definition legA (traffic : list SpeedGroup) : Route :=
  sampleRoute (linePoints 0 3) (cursorAt 0 0 0)
              [mkTurn 1 TurnRight; mkTurn 2 ReachedYourDestination]
              [(1, 5); (2, 10)]%N [(0%N, "A"%string)] traffic.

Definition legB (traffic : list SpeedGroup) : Route :=
  sampleRoute (linePoints 2 3) (cursorAt 200 0 0)
              [mkTurn 0 TurnLeft; mkTurn 2 ReachedYourDestination]
              [(0, 0); (1, 7); (2, 20)]%N [(0%N, "A"%string); (1%N, "B"%string)] traffic.

Definition legPoint : Route :=
  sampleRoute (linePoints 2 1) (cursorAt 200 0 0)
              [mkTurn 0 ReachedYourDestination] [(0, 0)%N] [] [].

Definition times_increasing (t : list TTimeItem) : Prop :=
  StronglySorted (fun a b => (fst a < fst b)%N) t.

(** What keeps every read of [GetSubrouteInfo] inside its vector: turn
    and time indices strictly increasing and ending on the last vertex,
    a time table of at least two checkpoints whose first one is not on
    vertex 0, and optional arrays of the right size. *)
Definition ExportPre (r : Route) : Prop :=
  let n := GetSize (m_poly r) in
  m_turns r <> [] /\ turns_increasing (m_turns r) /\
  m_index (last (m_turns r) TurnItem_default) = N.of_nat (n - 1) /\
  2 <= length (m_times r) /\ times_increasing (m_times r) /\
  fst (hd (0%N, 0%N) (m_times r)) <> 0%N /\
  fst (last (m_times r) (0%N, 0%N)) = N.of_nat (n - 1) /\
  (m_altitudes r = [] \/ length (m_altitudes r) = n) /\
  traffic_consistent r.

(** The checkpoint whose time the record of edge [k] carries: the one
    with the greatest index [<= k] or, when [k] lies before every
    checkpoint, the first one. *)
Definition carried_checkpoint (times : list TTimeItem) (k : N) (c : TTimeItem) : Prop :=
  In c times /\
  (((fst c <= k)%N /\ forall c', In c' times -> (fst c' <= k)%N -> (fst c' <= fst c)%N)
   \/ (hd_error times = Some c /\ (k < fst c)%N)).

(** The route of the scenarios: five vertices 100 m apart, turns and
    time checkpoints on vertices 2 and 4. *)
Definition fiveRoute (cur : Iter) : Route :=
  sampleRoute (linePoints 0 5) cur
              [mkTurn 2 TurnLeft; mkTurn 4 ReachedYourDestination]
              [(2, 10); (4, 40)]%N [] [].

(** The state of the loop of [GetSubrouteInfo] after [k] iterations. *)
Definition ExportInv {env : Env} (r : Route) (k : nat) (st : ExportState) : Prop :=
  turnItemIdx st = find_pos (fun t => (N.of_nat k <? m_index t)%N) (m_turns r) /\
  timeIdx st = 1 + find_pos (fun t : TTimeItem => (N.of_nat k <? fst t)%N) (tl (m_times r)) /\
  (distFromBeginningMeters st
   == Qsum (firstn k (edges DistanceOnEarth (m_points (m_poly r)))))%Q /\
  length (info st) = k /\
  (forall j rec, nth_error (info st) j = Some rec ->
                 exists c, carried_checkpoint (m_times r) (N.of_nat (j + 1)) c /\
                           si_timeFromBeginningS rec = snd c) /\
  (forall rec, nth_error (info st) (k - 1) = Some rec ->
               (si_distFromBeginningMeters rec == distFromBeginningMeters st)%Q).


(** ** The time estimator, as the specification words it *)

(** Position of the first checkpoint with index strictly greater than
    [i], and of the first one with index [>= i]. *)
Definition first_checkpoint_after (times : list TTimeItem) (i : nat) : nat :=
  find_pos (fun item : TTimeItem => (N.of_nat i <? fst item)%N) times.

Definition first_checkpoint_from (times : list TTimeItem) (i : nat) : nat :=
  find_pos (fun item : TTimeItem => (N.of_nat i <=? fst item)%N) times.

(** Arc length from the first vertex to the cursor. *)
Definition cursorArc {env : Env} (p : FollowedPolyline) : Q :=
  (arcTo p (m_ind (m_current p))
   + DistanceOnEarth (m_pt (m_current p)) (nth (m_ind (m_current p)) (m_points p) origin))%Q.

(** Remaining time for the target checkpoint at position [pos] of the
    time table, with the cursor at arc length [cursor] from the first
    vertex: [0] when there is no target; otherwise, with [segTime] the
    time between the previous checkpoint (time 0 at vertex 0 when the
    target is the first entry) and the target, [segDist] the arc length
    between their vertices and [remDist] the arc length from the cursor
    to the target vertex, [(T - target.time) + segTime * (remDist /
    segDist)], or [T - target.time] when [segDist] is numerically zero. *)
Definition remaining_time_at {env : Env} (r : Route) (cursor : Q) (pos : nat) : N :=
  match nth_error (m_times r) pos with
  | None => 0%N
  | Some target =>
      let T := GetTotalTimeSec r in
      let prev := if pos =? 0 then (0%N, 0%N) else nth (pos - 1) (m_times r) (0%N, 0%N) in
      let segTime := (to_double (snd target) - to_double (snd prev))%Q in
      let segDist := (arcTo (m_poly r) (N.to_nat (fst target))
                      - arcTo (m_poly r) (N.to_nat (fst prev)))%Q in
      let remDist := (arcTo (m_poly r) (N.to_nat (fst target)) - cursor)%Q in
      if negb (AlmostEqualULPs segDist 0)
      then double_to_uint32 (to_double (T - snd target) + segTime * (remDist / segDist))%Q
      else (T - snd target)%N
  end.

Definition remaining_time {env : Env} (r : Route) (pos : nat) : N :=
  remaining_time_at r (cursorArc (m_poly r)) pos.

(** What the estimator expects of the route: a time table sorted by
    index whose indices are vertices of the path, cumulative times that do
    not decrease and fit 32 bits, and a cursor on the path. *)
Definition TimeTablePre (r : Route) : Prop :=
  m_times r <> [] /\
  times_sorted (m_times r) /\
  StronglySorted (fun a b : TTimeItem => (snd a <= snd b)%N) (m_times r) /\
  (forall t, In t (m_times r) -> N.to_nat (fst t) < GetSize (m_poly r)) /\
  fits32 (GetTotalTimeSec r) /\
  m_ind (GetCurrentIter (m_poly r)) < GetSize (m_poly r).

(** What the estimator expects of the geometry: distances are not
    negative, a point is at distance zero from itself, and the
    almost-equal test sees a zero distance as zero. *)
Class EnvLaws (env : Env) : Prop := {
  DistanceOnEarth_nonneg : forall p q, (0 <= DistanceOnEarth p q)%Q;
  DistanceOnEarth_refl : forall p, (DistanceOnEarth p p == 0)%Q;
  AlmostEqualULPs_proper :
    forall a b, (a == b)%Q -> AlmostEqualULPs a 0 = AlmostEqualULPs b 0;
  AlmostEqualULPs_zero : AlmostEqualULPs 0 0 = true
}.

(** The route [r] with its cursor moved to [cur]. *)
Definition with_cursor (r : Route) (cur : Iter) : Route :=
  set_poly r (mkPoly (m_points (m_poly r)) cur).

(** The cursor lies on the edge that starts at its vertex. *)
Definition cursor_on_edge {env : Env} (p : FollowedPolyline) : Prop :=
  (DistanceOnEarth (m_pt (m_current p)) (nth (m_ind (m_current p)) (m_points p) origin)
   <= nth (m_ind (m_current p)) (edges DistanceOnEarth (m_points p)) 0)%Q.

(** A route that stalls: vertices 1 and 2 are the same point and ten
    seconds pass between their checkpoints. *)
Definition stallRoute (cur : Iter) : Route :=
  sampleRoute [mkPoint 0 0; mkPoint 100 0; mkPoint 100 0; mkPoint 200 0] cur
              [mkTurn 3 ReachedYourDestination]
              [(1, 10); (2, 20); (3, 30)]%N [] [].

(* ------------------------------------------------------------------ *)
(** ** Invariants of the tables across a merge *)

(** The time table of a route: indices strictly increasing and on the
    path, cumulative times that do not decrease. *)
Definition TimesOk (r : Route) : Prop :=
  times_increasing (m_times r) /\
  StronglySorted (fun a b : TTimeItem => (snd a <= snd b)%N) (m_times r) /\
  (forall t, In t (m_times r) -> N.to_nat (fst t) < GetSize (m_poly r)).

(** The street table of a route: sorted by index, indices on the path. *)
Definition StreetsOk (r : Route) : Prop :=
  streets_sorted (m_streets r) /\
  (forall s, In s (m_streets r) -> N.to_nat (fst s) < GetSize (m_poly r)).

(** What a leg must offer for the route it is appended to to be ready
    for a further merge: at least two vertices, a turn table that ends
    with the destination marker on the last vertex, a time table whose
    last checkpoint is not on vertex 0, and street entries that lie before
    the last vertex. *)
Definition LegOk (r : Route) : Prop :=
  2 <= GetSize (m_poly r) /\
  turns_terminated r /\
  m_times r <> [] /\ fst (last (m_times r) (0%N, 0%N)) <> 0%N /\
  (forall s, In s (m_streets r) -> N.to_nat (fst s) + 1 < GetSize (m_poly r)).

(** A first leg with altitudes, one per vertex. *)
Definition legAlt : Route :=
  mkRoute carSettings (mkPoly (linePoints 0 3) (cursorAt 0 0 0))
          (mkPoly [] (mkIter (mkPoint 0 0) 0 false)) 0
          [mkTurn 1 TurnRight; mkTurn 2 ReachedYourDestination]
          [(1, 5); (2, 10)]%N [(0%N, "A"%string)] [10; 12; 15]%Z [].

(** The route a default-constructed [Route] is: no path, empty tables. *)
Definition emptyRoute : Route :=
  mkRoute carSettings (mkPoly [] (mkIter (mkPoint 0 0) 0 false))
          (mkPoly [] (mkIter (mkPoint 0 0) 0 false)) 0 [] [] [] [] [].


(* ------------------------------------------------------------------ *)
(** ** Segment export: the checks and the records *)

(** What [GetSubrouteInfo] checks before its loop: a path, a turn table
    and a time table that are not empty, end on a vertex of the path and
    pass [std::is_sorted], and optional arrays of the right size. *)
Definition ExportChecks (r : Route) : Prop :=
  let n := GetSize (m_poly r) in
  0 < n /\
  m_turns r <> [] /\
  (m_index (last (m_turns r) TurnItem_default) < N.of_nat n)%N /\
  is_sorted (fun lhs rhs => (m_index lhs <? m_index rhs)%N) (m_turns r) = true /\
  (m_altitudes r = [] \/ length (m_altitudes r) = n) /\
  m_times r <> [] /\
  (fst (last (m_times r) (0%N, 0%N)) < N.of_nat n)%N /\
  is_sorted (fun lhs rhs : TTimeItem => (fst lhs <? fst rhs)%N) (m_times r) = true /\
  traffic_consistent r.

(** The state in which the loop of [GetSubrouteInfo] starts. *)
Definition export_start (r : Route) : ExportState :=
  mkExport (if (m_index (hd TurnItem_default (m_turns r)) =? 0)%N then 1 else 0)
           (if negb (fst (hd (0%N, 0%N) (m_times r)) =? 0)%N then 1 else 0)
           0%Q 0%Q [].

(** What the record of the edge that ends on vertex [k] holds: the turn
    of the table on vertex [k] or the default turn, the vertex and its
    altitude, no street name, the metric and the planar arc length from
    the first vertex to vertex [k], and the traffic of the edge. *)
Definition record_of {env : Env} (r : Route) (k : nat) (rec : SegmentInfo) : Prop :=
  (forall t, In t (m_turns r) -> m_index t = N.of_nat k -> si_turn rec = t) /\
  ((forall t, In t (m_turns r) -> m_index t <> N.of_nat k) ->
   si_turn rec = TurnItem_default) /\
  si_junction rec
  = (nth k (m_points (m_poly r)) origin,
     if empty (m_altitudes r) then kInvalidAltitude else nth k (m_altitudes r) 0%Z) /\
  si_streetName rec = EmptyString /\
  (si_distFromBeginningMeters rec == arcTo (m_poly r) k)%Q /\
  (si_distFromBeginningMerc rec
   == Qsum (firstn k (edges Length (m_points (m_poly r)))))%Q /\
  si_traffic rec
  = (if empty (m_traffic r) then Unknown else nth (k - 1) (m_traffic r) Unknown).

(** The invariant of the loop of [GetSubrouteInfo] for the fields of the
    records. *)
Definition RecordsInv {env : Env} (r : Route) (k : nat) (st : ExportState) : Prop :=
  ExportInv r k st /\
  (distFromBeginningMerc st
   == Qsum (firstn k (edges Length (m_points (m_poly r)))))%Q /\
  (forall j rec, nth_error (info st) j = Some rec -> record_of r (j + 1) rec).

(* ------------------------------------------------------------------ *)
(** ** Route: the turns ahead *)

(** [turns::TurnItemDist]: a turn and the distance to it. *)
Record TurnItemDist : Type := mkTurnItemDist {
  m_turnItem : TurnItem;
  m_distMeters : Q
}.

Section TurnsAhead.
Context {env : Env}.

(** [GetNextTurn(distanceToTurnMeters, turn)]: the returned flag and the
    two out-parameters, which the [false] return resets. *)
Definition GetNextTurn (r : Route) : result (bool * Q * TurnItem) :=
  it <- GetCurrentTurn r ;;
  let turnsEnd := length (m_turns r) in
  ASSERT (negb (it =? turnsEnd)) ;;;
  if (it =? turnsEnd) || (it + 1 =? turnsEnd)
  then Ok (false, 0%Q, TurnItem_default)
  else
    t <- at_ (m_turns r) (it + 1) ;;
    target <- GetIterToIndex (m_poly r) (N.to_nat (m_index t)) ;;
    d <- GetDistanceM (m_poly r) (GetCurrentIter (m_poly r)) target ;;
    Ok (true, d, t).

(** [GetNextTurns(turns)]: the returned flag and the vector after the
    call; the [false] return leaves the vector as it was. *)
Definition GetNextTurns (r : Route) (turns : list TurnItemDist)
  : result (bool * list TurnItemDist) :=
  cur <- GetCurrentTurn2 r ;;
  match cur with
  | None => Ok (false, turns)
  | Some (d, t) =>
      let turns1 := [mkTurnItemDist t d] in
      next <- GetNextTurn r ;;
      let '(found, d', t') := next in
      Ok (true, if found then turns1 ++ [mkTurnItemDist t' d'] else turns1)
  end.

End TurnsAhead.

(** What the turn queries expect: a turn table that is not empty and is
    sorted by index, with indices on the path, and a cursor on the path. *)
Definition TurnsPre (r : Route) : Prop :=
  m_turns r <> [] /\ turns_sorted (m_turns r) /\
  fits32 (N.of_nat (m_ind (GetCurrentIter (m_poly r)))) /\
  m_ind (GetCurrentIter (m_poly r)) < GetSize (m_poly r) /\
  (forall t, In t (m_turns r) -> N.to_nat (m_index t) < GetSize (m_poly r)).

(** Position of the first turn with index strictly greater than [i]. *)
Definition first_turn_after (turns : list TurnItem) (i : nat) : nat :=
  find_pos (fun t => (N.of_nat i <? m_index t)%N) turns.

(* ------------------------------------------------------------------ *)
(** ** Route: distances to the turns *)

Section TurnsDistances.

(** [turns::CalculateMercatorDistanceAlongPath(start, end, points)], a
    function of the turns generator. *)
Variable CalculateMercatorDistanceAlongPath : N -> N -> list PointD -> Q.

(** A turn on the first or on the last vertex of the path is skipped.
    The loop runs on a valid path only, where [polySz - 1] does not wrap. *)
Definition side_turn (polySz : nat) (t : TurnItem) : bool :=
  (m_index t =? 0)%N || (N.to_nat (m_index t) =? polySz - 1).

(** The [for] loop of [GetTurnsDistances] over the turns that are left:
    [former] is the index of the turn before the current one ([0] at the
    beginning of the table), [mercatorDistance] the running sum. *)
Fixpoint turns_distances_loop (polySz : nat) (points : list PointD)
         (former : N) (mercatorDistance : Q) (turns : list TurnItem) : list Q :=
  match turns with
  | [] => []
  | currentTurn :: rest =>
      if side_turn polySz currentTurn
      then turns_distances_loop polySz points (m_index currentTurn) mercatorDistance rest
      else
        let mercatorDistanceBetweenTurns :=
          CalculateMercatorDistanceAlongPath former (m_index currentTurn) points in
        let mercatorDistance' := (mercatorDistance + mercatorDistanceBetweenTurns)%Q in
        mercatorDistance'
          :: turns_distances_loop polySz points (m_index currentTurn) mercatorDistance' rest
  end.

(** [GetTurnsDistances(distances)]: the vector after the call. *)
Definition GetTurnsDistances (r : Route) : list Q :=
  if negb (PolyIsValid (m_poly r)) then []
  else turns_distances_loop (GetSize (m_poly r)) (m_points (m_poly r)) 0%N 0%Q (m_turns r).

End TurnsDistances.

(** A distance along the path for the scenarios: the planar arc length
    between two vertices. *)
Definition planarAlongPath {env : Env} (a b : N) (points : list PointD) : Q :=
  (Qsum (firstn (N.to_nat b) (edges Length points))
   - Qsum (firstn (N.to_nat a) (edges Length points)))%Q.

(* ------------------------------------------------------------------ *)
(** ** The street ahead *)

(** What [GetStreetNameAfterIdx r idx] expects: a street table that is
    empty or has two entries or more, with indices on the path, and a
    vertex [idx] of the path. *)
Definition StreetAheadPre (r : Route) (idx : N) : Prop :=
  length (m_streets r) <> 1 /\
  (forall s, In s (m_streets r) -> N.to_nat (fst s) < GetSize (m_poly r)) /\
  N.to_nat idx < GetSize (m_poly r) /\ fits32 idx.

(** The entry has a name. *)
Definition named (s : TStreetItem) : bool := negb (String.eqb (snd s) EmptyString).

(** The name [GetStreetNameAfterIdx] takes from the entries [rest]: that
    of the first named entry, when its vertex, or vertex [idx] if the
    entry lies behind it, is less than 400 m after vertex [idx]. *)
Definition street_ahead {env : Env} (r : Route) (idx : N) (rest : list TStreetItem)
  : string :=
  match find named rest with
  | None => EmptyString
  | Some s =>
      if Qlt_le_dec (arcTo (m_poly r) (N.to_nat (N.max (fst s) idx))
                     - arcTo (m_poly r) (N.to_nat idx))%Q kSteetNameLinkMeters
      then snd s else EmptyString
  end.

(* ------------------------------------------------------------------ *)
(** ** Merge, then export *)

(** A leg whose tables end on its last vertex: at least two vertices,
    turn indices strictly increasing up to the destination marker on the
    last vertex, checkpoint indices strictly increasing up to the last
    vertex.  The first checkpoint may lie on vertex 0. *)
Definition LegTables (r : Route) : Prop :=
  2 <= GetSize (m_poly r) /\
  turns_increasing (m_turns r) /\ turns_terminated r /\
  times_increasing (m_times r) /\ m_times r <> [] /\
  fst (last (m_times r) (0%N, 0%N)) = N.of_nat (GetSize (m_poly r) - 1).

(** A leg that starts on the last vertex of the five-vertex route; its
    time table starts on vertex 0. *)
Definition legC : Route :=
  sampleRoute (linePoints 4 3) (cursorAt 400 0 0)
              [mkTurn 0 TurnLeft; mkTurn 2 ReachedYourDestination]
              [(0, 0); (1, 7); (2, 20)]%N [] [].

(* ------------------------------------------------------------------ *)
(** ** The merged route *)

(** The route [AppendRoute this route] leaves behind when it goes
    through: settings, cursor and altitudes of [this], the path of [this]
    without its last vertex followed by the path of [route], the tables
    of [this] followed by the re-based tables of [route], the merged
    traffic, and [Update] on the whole. *)
Definition merged_route {env : Env} (this route : Route) : Route :=
  let indexOffset := GetSize (m_poly this) - 1 in
  Update
    (mkRoute (m_routingSettings this)
             (mkPoly (removelast (m_points (m_poly this)) ++ m_points (m_poly route))
                     (m_current (m_poly this)))
             (m_simplifiedPoly this) (m_currentTime this)
             ((if GetSize (m_poly this) =? 0 then m_turns this
               else removelast (m_turns this))
                ++ append_turns indexOffset (m_turns route))
             ((if GetSize (m_poly this) =? 0 then m_times this
               else removelast (m_times this))
                ++ append_times indexOffset (to_double (GetTotalTimeSec this))
                                (m_times route))
             (m_streets this ++ append_streets indexOffset (m_streets route))
             (m_altitudes this)
             (merged_traffic this route)).

(** The traffic array of a route, with [Unknown] for every edge when the
    route has none. *)
Definition full_traffic (r : Route) : list SpeedGroup :=
  if empty (m_traffic r) then repeat Unknown (GetSize (m_poly r) - 1) else m_traffic r.

(** The indices of the tables of a route lie on its path. *)
Definition IndicesOnPath (r : Route) : Prop :=
  (forall t, In t (m_turns r) -> N.to_nat (m_index t) < GetSize (m_poly r)) /\
  (forall s, In s (m_streets r) -> N.to_nat (fst s) < GetSize (m_poly r)) /\
  (forall t, In t (m_times r) -> N.to_nat (fst t) < GetSize (m_poly r)).

(** A leg of two vertices that starts on the last vertex of [legC]. *)
Definition legD : Route :=
  sampleRoute (linePoints 6 2) (cursorAt 600 0 0)
              [mkTurn 1 ReachedYourDestination] [(1, 9)%N] [] [].

(* ------------------------------------------------------------------ *)
(** ** The time estimator in double arithmetic *)

(** [GetCurrentTimeToEndSec] above takes doubles as exact rationals, which
    is enough for an order or a bound.  Here the estimator is embedded
    once more with the arithmetic left as the code has it.

    What [GetCurrentTimeToEndSec] asks of [double] and of the
    collaborators that return doubles, with nothing assumed about
    rounding: the conversion from [uint32_t], the four operations, the
    constant [0.], the conversion [(uint32_t)d], which C++ leaves
    undefined ([None]) when the truncated value does not fit,
    [my::AlmostEqualULPs], [FollowedPolyline::GetDistanceM] and
    [MercatorBounds::DistanceOnEarth]. *)
Class DoubleEnv : Type := {
  Double : Type;
  d_of_uint32 : N -> Double;
  d_add : Double -> Double -> Double;
  d_sub : Double -> Double -> Double;
  d_mul : Double -> Double -> Double;
  d_div : Double -> Double -> Double;
  d_zero : Double;
  uint32_of_double : Double -> option N;
  d_AlmostEqualULPs : Double -> Double -> bool;
  d_GetDistanceM : FollowedPolyline -> Iter -> Iter -> Double;
  d_DistanceOnEarth : PointD -> PointD -> Double
}.

Module InDoubles.

Section Estimator.
Context {env : Env} {dbl : DoubleEnv}.

Definition distFn (r : Route) (start end_ : nat) : result Double :=
  it1 <- GetIterToIndex (m_poly r) start ;;
  it2 <- GetIterToIndex (m_poly r) end_ ;;
  Ok (d_GetDistanceM (m_poly r) it1 it2).

(** [GetCurrentTimeToEndSec()]: [Some n] is the value returned, [None]
    a conversion to [uint32_t] that C++ leaves undefined. *)
Definition GetCurrentTimeToEndSec (r : Route) : result (option N) :=
  let polySz := GetSize (m_poly r) in
  if empty (m_times r) || (polySz =? 0) then
    ASSERT (negb (empty (m_times r))) ;;;
    ASSERT (negb (polySz =? 0)) ;;;
    Ok (Some 0%N)
  else
    let cur := GetCurrentIter (m_poly r) in
    let it := upper_bound (m_times r) (m_ind cur)
                (fun v item => (N.of_nat v <? fst item)%N) in
    if it =? length (m_times r) then Ok (Some 0%N)
    else
      let idx := it in
      target <- at_ (m_times r) it ;;
      time <- (if 0 <? idx
               then prev <- at_ (m_times r) (idx - 1) ;;
                    Ok (d_sub (d_of_uint32 (snd target)) (d_of_uint32 (snd prev)))
               else Ok (d_of_uint32 (snd target))) ;;
      ASSERT (fst target <? N.of_nat polySz)%N ;;;
      start <- (if 0 <? idx
                then prev <- at_ (m_times r) (idx - 1) ;; Ok (N.to_nat (fst prev))
                else Ok 0) ;;
      dist <- distFn r start (N.to_nat (fst target)) ;;
      if negb (d_AlmostEqualULPs dist d_zero)
      then
        d <- distFn r (m_ind cur) (N.to_nat (fst target)) ;;
        v <- GetPoint (m_poly r) (m_ind cur) ;;
        let distRemain := d_sub d (d_DistanceOnEarth (m_pt cur) v) in
        Ok (uint32_of_double
              (d_add (d_of_uint32 (sub32 (GetTotalTimeSec r) (snd target)))
                     (d_mul time (d_div distRemain dist))))
      else Ok (Some (sub32 (GetTotalTimeSec r) (snd target))).

(** The cursor [GetIterToIndex] returns for a vertex of the path. *)
Definition vertexIter (p : FollowedPolyline) (k : nat) : Iter :=
  mkIter (nth k (m_points p) origin) k true.

(** Remaining time for the target checkpoint at position [pos] of the
    time table, in double arithmetic: [0] when there is no target;
    otherwise, with [T] the total time, [segTime] the time of the target
    minus that of the checkpoint before it (the time of the target when it
    is the first entry), [segDist] what the projector gives as distance
    from the vertex of the checkpoint before the target (vertex 0 when the
    target is the first entry) to the vertex of the target, and [remDist]
    the distance it gives from the cursor's vertex to the vertex of the
    target minus the distance from the cursor to its vertex: the
    conversion to [uint32_t] of [(T - target.time) + segTime * (remDist /
    segDist)], or [T - target.time] when [segDist] is numerically zero. *)
Definition remaining_time (r : Route) (pos : nat) : option N :=
  match nth_error (m_times r) pos with
  | None => Some 0%N
  | Some target =>
      let p := m_poly r in
      let cur := GetCurrentIter p in
      let T := GetTotalTimeSec r in
      let prev := nth (pos - 1) (m_times r) (0%N, 0%N) in
      let segTime := if pos =? 0 then d_of_uint32 (snd target)
                     else d_sub (d_of_uint32 (snd target)) (d_of_uint32 (snd prev)) in
      let segDist := d_GetDistanceM p
                       (vertexIter p (if pos =? 0 then 0 else N.to_nat (fst prev)))
                       (vertexIter p (N.to_nat (fst target))) in
      let remDist := d_sub (d_GetDistanceM p (vertexIter p (m_ind cur))
                                           (vertexIter p (N.to_nat (fst target))))
                           (d_DistanceOnEarth (m_pt cur)
                                              (nth (m_ind cur) (m_points p) origin)) in
      if negb (d_AlmostEqualULPs segDist d_zero)
      then uint32_of_double
             (d_add (d_of_uint32 (sub32 T (snd target)))
                    (d_mul segTime (d_div remDist segDist)))
      else Some (sub32 T (snd target))
  end.

End Estimator.

End InDoubles.

(** What the estimator reads: a time table that is not empty and is
    sorted by index, with indices on the path, and a cursor on the path. *)
Definition TimeReadPre (r : Route) : Prop :=
  m_times r <> [] /\
  times_sorted (m_times r) /\
  (forall t, In t (m_times r) -> N.to_nat (fst t) < GetSize (m_poly r)) /\
  m_ind (GetCurrentIter (m_poly r)) < GetSize (m_poly r).

(** Double arithmetic for the scenarios: exact arithmetic on the street
    grid.  The conversion to [uint32_t] is defined when the truncated
    value fits.  On the routes of the scenarios, whose coordinates and
    times are small integers, the values met are binary fractions that a
    double holds exactly. *)
Definition gridArc (p : FollowedPolyline) (it : Iter) : Q :=
  (Qsum (firstn (m_ind it) (edges gridDistance (m_points p)))
   + gridDistance (m_pt it) (nth (m_ind it) (m_points p) (mkPoint 0 0)))%Q.

Definition exactDoubles : DoubleEnv := {|
  Double := Q;
  d_of_uint32 := to_double;
  d_add := Qplus;
  d_sub := Qminus;
  d_mul := Qmult;
  d_div := Qdiv;
  d_zero := 0%Q;
  uint32_of_double := fun d =>
    if Qlt_le_dec (-1) d
    then (if Qlt_le_dec d (inject_Z (Z.of_N two32))
          then Some (Z.to_N (Z.quot (Qnum d) (Zpos (Qden d)))) else None)
    else None;
  d_AlmostEqualULPs := Qeq_bool;
  d_GetDistanceM := fun p it1 it2 => (gridArc p it2 - gridArc p it1)%Q;
  d_DistanceOnEarth := gridDistance
|}.

(** The route of the specification's scenario: five collinear points
    100 m apart, one time checkpoint on vertex 4 with 40 s, the cursor on
    vertex 2. *)
Definition scenarioRoute : Route :=
  sampleRoute (linePoints 0 5) (cursorAt 200 0 2)
              [mkTurn 4 ReachedYourDestination] [(4, 40)%N] [] [].
(* ================================================================== *)
(** * Properties *)

(* ------------------------------------------------------------------ *)
(** ** The street table *)

Section Streets.

Lemma last_default {A} (l : list A) (d d' : A) :
  l <> [] -> last l d = last l d'.
Proof.
  induction l as [|a [|b l] IH]; intros H; [congruence|reflexivity|].
  change (last (b :: l) d = last (b :: l) d'). apply IH. discriminate.
Qed.

(** What the walk returns on a sorted table: [p] is the entry under
    [prevIter], [rest] the entries from [curIter] on. *)
Lemma street_walk_sorted (rest : list TStreetItem) :
  forall (p : TStreetItem) (n ind : nat),
    rest <> [] ->
    streets_sorted (p :: rest) ->
    ((fst (last rest p) < N.of_nat ind)%N /\
     street_walk rest ind n (n + 1) = Ok (n + 1 + length rest))
    \/
    ((N.of_nat ind <= fst (last rest p))%N /\
     exists j e,
       street_walk rest ind n (n + 1) = Ok (n + j) /\
       nth_error (p :: rest) j = Some e /\
       (j = 0 \/ (fst e <= N.of_nat ind)%N) /\
       (fst e = N.of_nat ind \/
        forall j' e', j < j' -> nth_error (p :: rest) j' = Some e' ->
                      (N.of_nat ind < fst e')%N)).
Proof.
  induction rest as [|c rest' IH]; intros p n ind Hne Hs; [congruence|].
  apply StronglySorted_inv in Hs. destruct Hs as [Hs Hp].
  cbn [street_walk].
  destruct (N.ltb_spec (fst c) (N.of_nat ind)) as [Hlt|Hge].
  - destruct rest' as [|c' rest''].
    + left. cbn. split; [exact Hlt | f_equal; lia].
    + destruct (IH c (n + 1) ind ltac:(discriminate) Hs) as [[Hl Hw]|[Hl (j & e & Hw & Hn & Hj & Hmax)]].
      * left. split.
        -- change (last (c :: c' :: rest'') p) with (last (c' :: rest'') p).
           rewrite (last_default _ p c); [exact Hl | discriminate].
        -- rewrite Hw. f_equal. cbn [length]. lia.
      * right. split.
        { change (last (c :: c' :: rest'') p) with (last (c' :: rest'') p).
          rewrite (last_default _ p c); [exact Hl | discriminate]. }
        exists (S j), e. repeat split.
        -- rewrite Hw. f_equal. lia.
        -- exact Hn.
        -- right. destruct Hj as [-> | Hj]; [|exact Hj].
           cbn in Hn. inversion Hn; subst. lia.
        -- destruct Hmax as [He|Hmax]; [left; exact He|right].
           intros j' e' Hjj Hn'. destruct j' as [|j']; [lia|].
           apply (Hmax j' e'); [lia | exact Hn'].
  - right. split.
    + assert (Hin : In (last (c :: rest') p) (c :: rest')).
      { destruct (exists_last (l := c :: rest') ltac:(discriminate)) as (l' & a & ->).
        rewrite last_last. apply in_or_app. right. left. reflexivity. }
      apply StronglySorted_inv in Hs. destruct Hs as [_ Hc].
      destruct Hin as [<-|Hin]; [exact Hge|].
      rewrite Forall_forall in Hc. specialize (Hc _ Hin). lia.
    + destruct (N.eqb_spec (fst c) (N.of_nat ind)) as [Heq|Hneq].
      * exists 1, c. repeat split; auto. right. lia.
      * exists 0, p. repeat split.
        -- f_equal. lia.
        -- left. reflexivity.
        -- right. intros j' e' Hjj Hn'.
           destruct j' as [|[|j']]; [lia| |].
           ++ cbn in Hn'. inversion Hn'; subst. lia.
           ++ cbn in Hn'. apply nth_error_In in Hn'.
              apply StronglySorted_inv in Hs. destruct Hs as [_ Hc].
              rewrite Forall_forall in Hc. specialize (Hc _ Hn'). lia.
Qed.


(** A table with a single entry: [curIter] starts at [cend()] and the
    loop condition reads it. *)
Lemma street_walk_single_entry (r : Route) (e : TStreetItem) (iter : Iter) :
  m_streets r = [e] ->
  GetCurrentStreetNameIterAfter r iter = OutOfBounds.
Proof. intros H. unfold GetCurrentStreetNameIterAfter. rewrite H. reflexivity. Qed.

(** With two entries or more every read of the walk is inside the table. *)
Lemma street_walk_in_bounds (rest : list TStreetItem) :
  forall ind n, rest <> [] ->
    exists k, street_walk rest ind n (n + 1) = Ok k /\ n <= k <= n + 1 + length rest.
Proof.
  induction rest as [|c rest' IH]; intros ind n Hne; [congruence|].
  cbn [street_walk]. destruct (fst c <? N.of_nat ind)%N.
  - destruct rest' as [|c' rest''].
    + eexists. split; [reflexivity | cbn; lia].
    + destruct (IH ind (n + 1) ltac:(discriminate)) as (k & Hk & Hb).
      exists k. split; [exact Hk | cbn [length] in *; lia].
  - destruct (fst c =? N.of_nat ind)%N; eexists; (split; [reflexivity | cbn; lia]).
Qed.

(** C3, as amended.  On a street table sorted by index that has at least
    two entries, with [i] the vertex index of the cursor: the
    current-street query returns the empty string when [i] is greater than
    the last index of the table, the name of the first entry when [i] is
    smaller than the first index, and otherwise the name of the entry
    with the greatest index [<= i].  It returns the empty string on the
    empty table.  With the table [(0,A); (3,B)] the cursor on vertex 1
    yields A and the cursor on vertex 3 yields B. *)
Theorem GetCurrentStreetName_covering (r : Route) :
  streets_sorted (m_streets r) ->
  length (m_streets r) <> 1 ->
  let i := N.of_nat (m_ind (GetCurrentIter (m_poly r))) in
  let front := hd (0%N, EmptyString) (m_streets r) in
  let rear := last (m_streets r) (0%N, EmptyString) in
  (m_streets r = [] -> GetCurrentStreetName r = Ok EmptyString) /\
  (m_streets r <> [] -> (fst rear < i)%N ->
   GetCurrentStreetName r = Ok EmptyString) /\
  (m_streets r <> [] -> (i < fst front)%N ->
   GetCurrentStreetName r = Ok (snd front)) /\
  (m_streets r <> [] -> (fst front <= i <= fst rear)%N ->
   exists e, covering_entry (m_streets r) i e /\
             GetCurrentStreetName r = Ok (snd e)) /\
  (m_streets r = [(0%N, "A"%string); (3%N, "B"%string)] ->
   (i = 1%N -> GetCurrentStreetName r = Ok "A"%string) /\
   (i = 3%N -> GetCurrentStreetName r = Ok "B"%string)).
Proof.
  intros Hs Hlen i front rear.
  unfold GetCurrentStreetName, GetCurrentStreetNameIterAfter.
  destruct (m_streets r) as [|p rest] eqn:Hst.
  { repeat split; intros; first [reflexivity | congruence | discriminate]. }
  destruct rest as [|c rest']; [cbn in Hlen; congruence|].
  set (rest := c :: rest') in *.
  assert (Hne : rest <> []) by discriminate.
  assert (Hrear : rear = last rest p).
  { unfold rear. change (last (p :: rest) (0%N, EmptyString)) with (last rest (0%N, EmptyString)).
    apply last_default. exact Hne. }
  assert (Hname : forall j e, j <= length rest -> nth_error (p :: rest) j = Some e ->
            (it <- Ok (0 + j) ;;
             if it =? length (p :: rest) then Ok EmptyString
             else s <- at_ (p :: rest) it ;; Ok (snd s)) = Ok (snd e)).
  { intros j e Hj Hn. cbn [bind]. cbn [length].
    destruct (Nat.eqb_spec (0 + j) (S (length rest))); [lia|].
    unfold at_. cbn [plus]. rewrite Hn. reflexivity. }
  destruct (street_walk_sorted rest p 0 (m_ind (GetCurrentIter (m_poly r))) Hne Hs)
    as [[Hl Hw]|[Hl (j & e & Hw & Hn & Hj & Hmax)]]; fold i in Hl.
  - (* the walk runs off the table *)
    assert (Hend : (it <- street_walk rest (m_ind (GetCurrentIter (m_poly r))) 0 1 ;;
                    if it =? length (p :: rest) then Ok EmptyString
                    else s <- at_ (p :: rest) it ;; Ok (snd s)) = Ok EmptyString).
    { change 1 with (0 + 1). rewrite Hw. cbn [bind length].
      now rewrite (proj2 (Nat.eqb_eq _ _)) by lia. }
    assert (Hfr : (fst p <= fst (last rest p))%N).
    { apply StronglySorted_inv in Hs. destruct Hs as [_ Hp].
      rewrite Forall_forall in Hp. apply Hp.
      destruct (exists_last Hne) as (l' & a & ->). rewrite last_last.
      apply in_or_app. right. left. reflexivity. }
    split; [discriminate|]. split; [intros _ _; exact Hend|].
    split; [intros _ Hi; unfold front in Hi; cbn [hd] in Hi; lia|].
    split; [intros _ Hi; rewrite Hrear in Hi; lia|].
    intros Heq. inversion Heq; subst. cbn in Hl. split; intros Hi; lia.
  - assert (Hjb : j <= length rest).
    { assert (j < length (p :: rest)) by (apply nth_error_Some; congruence).
      cbn [length] in *. lia. }
    assert (Hres : (it <- street_walk rest (m_ind (GetCurrentIter (m_poly r))) 0 1 ;;
                    if it =? length (p :: rest) then Ok EmptyString
                    else s <- at_ (p :: rest) it ;; Ok (snd s)) = Ok (snd e)).
    { change 1 with (0 + 1). rewrite Hw. apply Hname; assumption. }
    assert (Hcov : (fst p <= i)%N -> covering_entry (p :: rest) i e).
    { intros Hp. split; [eapply nth_error_In; exact Hn|]. split.
      - destruct Hj as [-> | Hj]; [|exact Hj]. cbn in Hn. inversion Hn; subst. exact Hp.
      - intros e' Hin Hle. destruct Hmax as [He|Hmax]; [fold i in He; lia|].
        destruct (In_nth_error _ _ Hin) as (j' & Hn').
        destruct (Nat.lt_ge_cases j j') as [Hlt|Hge].
        + specialize (Hmax j' e' Hlt Hn'). fold i in Hmax. lia.
        + destruct (Nat.eq_dec j' j) as [->|Hneq]; [rewrite Hn in Hn'; inversion Hn'; lia|].
          assert (Hjj : j' < j) by lia.
          clear - Hs Hn Hn' Hjj. revert j j' Hn Hn' Hjj.
          induction Hs as [|x l Hsl IH Hx]; intros j j' Hn Hn' Hjj.
          * destruct j; discriminate.
          * destruct j as [|j]; [lia|]. destruct j' as [|j'].
            -- cbn in Hn, Hn'. inversion Hn'; subst.
               rewrite Forall_forall in Hx. apply Hx. eapply nth_error_In; exact Hn.
            -- cbn in Hn, Hn'. apply (IH j j'); [assumption..|lia]. }
    split; [discriminate|]. split; [intros _ Hi; rewrite Hrear in Hi; lia|].
    split.
    { intros _ Hi. unfold front in *. cbn [hd] in *. rewrite Hres.
      destruct Hj as [-> | Hj].
      - cbn in Hn. inversion Hn; subst. reflexivity.
      - exfalso. assert (Hin : In e (p :: rest)) by (eapply nth_error_In; exact Hn).
        destruct Hin as [<-|Hin]; [lia|].
        apply StronglySorted_inv in Hs. destruct Hs as [_ Hp].
        rewrite Forall_forall in Hp. specialize (Hp _ Hin). lia. }
    split.
    { intros _ [Hi _]. unfold front in Hi. cbn [hd] in Hi. exists e. split; [apply Hcov; exact Hi | exact Hres]. }
    intros Heq. inversion Heq; subst p c rest'. rewrite Hres.
    assert (Hc := Hcov).
    split; intros Hi; rewrite Hi in *; specialize (Hc ltac:(cbn; lia));
      destruct Hc as (Hin & Hle & Hmx).
    + destruct Hin as [<-|[<-|[]]]; [reflexivity | cbn in Hle; lia].
    + destruct Hin as [<-|[<-|[]]]; [|reflexivity].
      specialize (Hmx (3%N, "B"%string) ltac:(right; left; reflexivity) ltac:(cbn; lia)).
      cbn in Hmx. lia.
Qed.

End Streets.

(** Witness for [GetCurrentStreetName_covering]: the table of the
    scenario with the cursor on vertex 2. *)
Lemma GetCurrentStreetName_covering_witness :
  let r := streetsRoute [(0%N, "A"%string); (3%N, "B"%string)] 2 in
  streets_sorted (m_streets r) /\ length (m_streets r) <> 1 /\
  exists e, covering_entry (m_streets r) 2%N e /\
            GetCurrentStreetName r = Ok (snd e).
Proof.
  intros r.
  assert (Hs : streets_sorted (m_streets r)).
  { repeat constructor; cbn; lia. }
  assert (Hl : length (m_streets r) <> 1) by (cbn; lia).
  split; [exact Hs|]. split; [exact Hl|].
  apply (GetCurrentStreetName_covering r Hs Hl).
  - discriminate.
  - cbn. lia.
Defined.

(** C3, the claim as stated fails: with the table [(0,A); (3,B)] and the
    cursor on vertex 5, past the last entry, the entry with the greatest
    index [<= 5] is [(3,B)], and the query returns the empty string. *)
Lemma GetCurrentStreetName_past_last_entry :
  let r := streetsRoute [(0%N, "A"%string); (3%N, "B"%string)] 5 in
  GetCurrentStreetName r = Ok EmptyString /\
  ~ exists e, covering_entry (m_streets r) 5%N e /\
              GetCurrentStreetName r = Ok (snd e).
Proof.
  intros r. split; [reflexivity|].
  intros (e & (Hin & Hle & Hmx) & Hres).
  cbn in Hin. destruct Hin as [<-|[<-|[]]].
  - specialize (Hmx (3%N, "B"%string) ltac:(right; left; reflexivity) ltac:(cbn; lia)).
    cbn in Hmx. lia.
  - vm_compute in Hres. discriminate.
Qed.

(** C10: a street table with exactly one entry.  The walk sets [curIter]
    to [cend()] and reads [curIter->first] in the loop condition; the
    current-street and the look-ahead queries both stop on that read. *)
Lemma street_walk_single_entry_reads_past_end :
  let r := streetsRoute [(0%N, "A"%string)] 2 in
  GetCurrentStreetNameIterAfter r (GetCurrentIter (m_poly r))
    = OutOfBounds /\
  GetCurrentStreetName r = OutOfBounds /\
  GetStreetNameAfterIdx (env := gridEnv true) r 2%N = OutOfBounds.
Proof. intros r. repeat split; reflexivity. Qed.

(* ------------------------------------------------------------------ *)
(** ** Binary search and the turn table *)

Section UpperBound.
Variables (A V : Type) (comp : V -> A -> bool) (value : V).

Lemma find_pos_app (l1 l2 : list A) :
  Forall (fun x => comp value x = false) l1 ->
  Forall (fun x => comp value x = true) l2 ->
  find_pos (comp value) (l1 ++ l2) = length l1.
Proof.
  intros H1 H2. induction H1 as [|x l1 Hx H1 IH]; cbn.
  - destruct H2 as [|y l2 Hy _]; cbn; [reflexivity | now rewrite Hy].
  - now rewrite Hx, IH.
Qed.

Lemma upper_bound_loop_partition (l1 l2 : list A) :
  Forall (fun x => comp value x = false) l1 ->
  Forall (fun x => comp value x = true) l2 ->
  forall fuel first count,
    count <= fuel ->
    first <= length l1 <= first + count ->
    first + count <= length (l1 ++ l2) ->
    upper_bound_loop (l1 ++ l2) value comp fuel first count = length l1.
Proof.
  intros H1 H2. rewrite Forall_forall in H1, H2.
  induction fuel as [|fuel IH]; intros first count Hf Hb Hlen;
    cbn [upper_bound_loop]; cbv zeta.
  - lia.
  - destruct (Nat.eqb_spec count 0) as [->|Hc]; [lia|].
    assert (Hstep : count / 2 < count) by (apply Nat.div_lt; lia).
    destruct (nth_error (l1 ++ l2) (first + count / 2)) as [x|] eqn:Hn.
    + destruct (comp value x) eqn:Hx; cbn [negb].
      * apply IH; try lia.
        destruct (Nat.lt_ge_cases (first + count / 2) (length l1)) as [Hlt|Hge]; [|lia].
        rewrite nth_error_app1 in Hn by exact Hlt.
        apply nth_error_In in Hn. rewrite (H1 _ Hn) in Hx. discriminate.
      * apply IH; try lia.
        destruct (Nat.lt_ge_cases (first + count / 2) (length l1)) as [Hlt|Hge]; [lia|].
        rewrite nth_error_app2 in Hn by exact Hge.
        apply nth_error_In in Hn. rewrite (H2 _ Hn) in Hx. discriminate.
    + apply nth_error_None in Hn. lia.
Qed.

(** On a partitioned range the binary search returns the position of the
    first element [x] with [comp value x]. *)
Lemma upper_bound_find_pos (l : list A) :
  partitioned (comp value) l ->
  upper_bound l value comp = find_pos (comp value) l.
Proof.
  intros (l1 & l2 & -> & H1 & H2).
  rewrite find_pos_app by assumption.
  unfold upper_bound. apply upper_bound_loop_partition; try assumption; try lia.
  rewrite length_app. lia.
Qed.

(** The position returned splits the range: [comp value] fails before
    it and holds from it on. *)
Lemma upper_bound_spec (l : list A) :
  partitioned (comp value) l ->
  let p := upper_bound l value comp in
  p <= length l /\
  (forall j x, nth_error l j = Some x -> j < p -> comp value x = false) /\
  (forall j x, nth_error l j = Some x -> p <= j -> comp value x = true).
Proof.
  intros Hp p.
  assert (Hup : p = find_pos (comp value) l) by (apply upper_bound_find_pos; exact Hp).
  destruct Hp as (l1 & l2 & -> & H1 & H2).
  rewrite find_pos_app in Hup by assumption. rewrite Hup.
  rewrite Forall_forall in H1, H2.
  split; [rewrite length_app; lia|]. split; intros j x Hn Hj.
  - rewrite nth_error_app1 in Hn by exact Hj. apply H1. eapply nth_error_In; exact Hn.
  - rewrite nth_error_app2 in Hn by exact Hj. apply H2. eapply nth_error_In; exact Hn.
Qed.

End UpperBound.

Lemma find_pos_le {A} (f : A -> bool) (l : list A) : find_pos f l <= length l.
Proof. induction l as [|x l IH]; cbn; [lia | destruct (f x); lia]. Qed.

Lemma find_pos_before {A} (f : A -> bool) (l : list A) (j : nat) (x : A) :
  j < find_pos f l -> nth_error l j = Some x -> f x = false.
Proof.
  revert j. induction l as [|y l IH]; intros j Hj Hn; cbn in *; [lia|].
  destruct (f y) eqn:Hy; [lia|].
  destruct j as [|j]; cbn in Hn; [congruence|]. apply (IH j); [lia | exact Hn].
Qed.

Lemma find_pos_at {A} (f : A -> bool) (l : list A) (x : A) :
  nth_error l (find_pos f l) = Some x -> f x = true.
Proof.
  induction l as [|y l IH]; cbn; [discriminate|].
  destruct (f y) eqn:Hy; cbn; [congruence | exact IH].
Qed.

Lemma sorted_partitioned {A} (key : A -> N) (i : N) (l : list A) :
  StronglySorted (fun a b => (key a <= key b)%N) l ->
  partitioned (fun x => (i <? key x)%N) l.
Proof.
  induction 1 as [|x l Hs IH Hx].
  - exists [], []. repeat split; constructor.
  - destruct (N.ltb_spec i (key x)) as [Hlt|Hge].
    + exists [], (x :: l). repeat split; [constructor|].
      constructor; [now apply N.ltb_lt|].
      rewrite Forall_forall in Hx |- *. intros y Hy. apply N.ltb_lt.
      specialize (Hx y Hy). lia.
    + destruct IH as (l1 & l2 & -> & H1 & H2).
      exists (x :: l1), l2. repeat split; [|exact H2].
      constructor; [now apply N.ltb_ge | exact H1].
Qed.

Lemma static_cast_uint32_fits (n : nat) :
  fits32 (N.of_nat n) -> static_cast_uint32 n = N.of_nat n.
Proof. intros H. unfold static_cast_uint32. apply N.mod_small. exact H. Qed.

Lemma increasing_sorted (t : list TurnItem) : turns_increasing t -> turns_sorted t.
Proof.
  induction 1 as [|x l Hs IH Hx]; constructor; [exact IH|].
  rewrite Forall_forall in Hx |- *. intros y Hy. specialize (Hx y Hy). lia.
Qed.

Lemma increasing_nth (t : list TurnItem) :
  turns_increasing t ->
  forall j k a b, nth_error t j = Some a -> nth_error t k = Some b -> j < k ->
                  (m_index a < m_index b)%N.
Proof.
  induction 1 as [|x l Hs IH Hx]; intros j k a b Ha Hb Hjk.
  - destruct j; discriminate.
  - destruct k as [|k]; [lia|]. cbn in Hb. destruct j as [|j]; cbn in Ha.
    + inversion Ha; subst. rewrite Forall_forall in Hx. apply Hx.
      eapply nth_error_In; exact Hb.
    + apply (IH j k); [assumption..|lia].
Qed.

Section Turns.
Context {env : Env}.

Lemma ASSERT_true : ASSERT true = Ok tt.
Proof. unfold ASSERT. now rewrite andb_false_r. Qed.

Lemma ASSERT_false : ASSERT false = if debug then AssertFailed else Ok tt.
Proof. unfold ASSERT. now destruct debug. Qed.

(** C4.  On a non-empty turn table sorted by index, with [i] the vertex
    index of the cursor, the current-turn query returns the first entry
    whose index is strictly greater than [i]: every entry before it has
    an index [<= i], it and every entry after it have an index [> i].  A
    turn placed exactly on the cursor's vertex therefore comes before the
    entry returned, which is the next one when the indices are strictly
    increasing.  The overload with out-parameters hands back that entry
    (and reports failure when no entry is left). *)
Theorem GetCurrentTurn_strict_upper_bound (r : Route) :
  m_turns r <> [] ->
  turns_sorted (m_turns r) ->
  fits32 (N.of_nat (m_ind (GetCurrentIter (m_poly r)))) ->
  let i := N.of_nat (m_ind (GetCurrentIter (m_poly r))) in
  exists p,
    GetCurrentTurn r = Ok p /\ p <= length (m_turns r) /\
    (forall j t, nth_error (m_turns r) j = Some t -> j < p -> (m_index t <= i)%N) /\
    (forall j t, nth_error (m_turns r) j = Some t -> p <= j -> (i < m_index t)%N) /\
    (forall k t, nth_error (m_turns r) k = Some t -> m_index t = i -> k < p) /\
    (turns_increasing (m_turns r) ->
     forall k t, nth_error (m_turns r) k = Some t -> m_index t = i -> p = k + 1) /\
    (p = length (m_turns r) ->
     GetCurrentTurn2 r = if debug then AssertFailed else Ok None) /\
    (forall t, nth_error (m_turns r) p = Some t ->
               m_ind (GetCurrentIter (m_poly r)) < GetSize (m_poly r) ->
               N.to_nat (m_index t) < GetSize (m_poly r) ->
               exists d, GetCurrentTurn2 r = Ok (Some (d, t))).
Proof.
  intros Hne Hs Hfit i.
  set (comp := fun lhs rhs : TurnItem => (m_index lhs <? m_index rhs)%N).
  set (value := mkTurn (static_cast_uint32 (m_ind (GetCurrentIter (m_poly r))))
                       (m_turn TurnItem_default)).
  assert (Hpart : partitioned (comp value) (m_turns r)).
  { unfold comp, value. cbn [m_index]. rewrite static_cast_uint32_fits by exact Hfit.
    apply (sorted_partitioned m_index). exact Hs. }
  destruct (upper_bound_spec _ _ comp value (m_turns r) Hpart) as (Hle & Hbefore & Hafter).
  set (p := upper_bound (m_turns r) value comp) in *.
  assert (Hcur : GetCurrentTurn r = Ok p).
  { unfold GetCurrentTurn.
    replace (empty (m_turns r)) with false by (destruct (m_turns r); [congruence|reflexivity]).
    cbn [negb]. rewrite ASSERT_true. reflexivity. }
  assert (Hcomp : forall x, comp value x = (i <? m_index x)%N).
  { intros x. unfold comp, value. cbn [m_index].
    now rewrite static_cast_uint32_fits by exact Hfit. }
  assert (Hb : forall j t, nth_error (m_turns r) j = Some t -> j < p -> (m_index t <= i)%N).
  { intros j t Hn Hj. specialize (Hbefore j t Hn Hj). rewrite Hcomp in Hbefore.
    now apply N.ltb_ge. }
  assert (Ha : forall j t, nth_error (m_turns r) j = Some t -> p <= j -> (i < m_index t)%N).
  { intros j t Hn Hj. specialize (Hafter j t Hn Hj). rewrite Hcomp in Hafter.
    now apply N.ltb_lt. }
  assert (Hon : forall k t, nth_error (m_turns r) k = Some t -> m_index t = i -> k < p).
  { intros k t Hn Hi. destruct (Nat.lt_ge_cases k p) as [Hlt|Hge]; [exact Hlt|].
    specialize (Ha k t Hn Hge). lia. }
  exists p. split; [exact Hcur|]. split; [exact Hle|].
  split; [exact Hb|]. split; [exact Ha|]. split; [exact Hon|].
  split; [|split].
  - intros Hinc k t Hn Hi. specialize (Hon k t Hn Hi).
    destruct (Nat.eq_dec p (k + 1)) as [Heq|Hneq]; [exact Heq|exfalso].
    assert (Hk1 : k + 1 < p) by lia.
    destruct (nth_error (m_turns r) (k + 1)) as [t'|] eqn:Hn'.
    + specialize (Hb (k + 1) t' Hn' Hk1).
      pose proof (increasing_nth _ Hinc k (k + 1) t t' Hn Hn' ltac:(lia)). lia.
    + apply nth_error_None in Hn'. lia.
  - intros Hp. unfold GetCurrentTurn2. rewrite Hcur. cbn [bind].
    rewrite (proj2 (Nat.eqb_eq _ _) Hp). rewrite ASSERT_false.
    now destruct debug.
  - intros t Hn Hc Ht. unfold GetCurrentTurn2. rewrite Hcur. cbn [bind].
    assert (Hlt : p < length (m_turns r)) by (apply nth_error_Some; congruence).
    rewrite (proj2 (Nat.eqb_neq _ _)) by lia.
    unfold at_. rewrite Hn. cbn [bind].
    unfold GetIterToIndex, GetDistanceM, arcOf, GetPoint, at_.
    destruct (nth_error (m_points (m_poly r)) (N.to_nat (m_index t))) as [pt|] eqn:Hpt;
      [|apply nth_error_None in Hpt; unfold GetSize in Ht; lia].
    cbn [bind m_ind m_pt].
    destruct (nth_error (m_points (m_poly r)) (m_ind (GetCurrentIter (m_poly r))))
      as [pc|] eqn:Hpc; [|apply nth_error_None in Hpc; unfold GetSize in Hc; lia].
    cbn [bind]. rewrite Hpt. cbn [bind]. eexists. reflexivity.
Qed.

End Turns.

(** Witness for [GetCurrentTurn_strict_upper_bound]: the cursor stands
    on vertex 2 of the five-vertex route, where a left turn lies. *)
Lemma GetCurrentTurn_strict_upper_bound_witness :
  let r := fiveRoute (cursorAt 200 0 2) in
  m_turns r <> [] /\ turns_sorted (m_turns r) /\
  fits32 (N.of_nat (m_ind (GetCurrentIter (m_poly r)))) /\
  exists p, GetCurrentTurn (env := gridEnv true) r = Ok p /\
            (forall k t, nth_error (m_turns r) k = Some t -> m_index t = 2%N -> k < p).
Proof.
  intros r.
  assert (H1 : m_turns r <> []) by discriminate.
  assert (H2 : turns_sorted (m_turns r)) by (repeat constructor; cbn; lia).
  assert (H3 : fits32 (N.of_nat (m_ind (GetCurrentIter (m_poly r))))) by reflexivity.
  split; [exact H1|]. split; [exact H2|]. split; [exact H3|].
  destruct (GetCurrentTurn_strict_upper_bound (env := gridEnv true) r H1 H2 H3)
    as (p & Hp & _ & _ & _ & Hon & _).
  exists p. split; [exact Hp | exact Hon].
Defined.

(* ------------------------------------------------------------------ *)
(** ** Route merging *)

Lemma nth_error_last {A} (l : list A) (d : A) :
  l <> [] -> nth_error l (length l - 1) = Some (last l d).
Proof.
  intros H. destruct (exists_last H) as (l' & a & ->).
  rewrite last_last, length_app, nth_error_app2 by (cbn; lia).
  cbn [length]. replace (length l' + 1 - 1 - length l') with 0 by lia. reflexivity.
Qed.

Lemma length_removelast' {A} (l : list A) : length (removelast l) = length l - 1.
Proof.
  destruct l as [|x l0]; [reflexivity|].
  destruct (@exists_last _ (x :: l0) ltac:(discriminate)) as (l' & a & ->).
  rewrite removelast_last, length_app. cbn. lia.
Qed.

Lemma back_last {A} (l : list A) (d : A) : l <> [] -> back l = Ok (last l d).
Proof.
  intros H. unfold back, at_. rewrite (nth_error_last l d H).
  destruct l; [congruence | reflexivity].
Qed.

Lemma empty_false {A} (l : list A) : l <> [] -> empty l = false.
Proof. destruct l; [congruence | reflexivity]. Qed.

Lemma empty_true {A} (l : list A) : empty l = true -> l = [].
Proof. destruct l; [reflexivity | discriminate]. Qed.

Lemma empty_length {A} (l : list A) : 0 < length l -> empty l = false.
Proof. destruct l; cbn; [lia | reflexivity]. Qed.

Lemma double_to_uint32_sum (a b : N) :
  fits32 (a + b) ->
  double_to_uint32 (to_double a + to_double b)%Q = (a + b)%N.
Proof.
  intros H. unfold double_to_uint32, to_double, Qplus, inject_Z. cbn [Qnum Qden].
  rewrite !Z.mul_1_r. change (Z.pos (1 * 1)) with 1%Z. rewrite Z.quot_1_r.
  rewrite <- N2Z.inj_add, N2Z.id. apply N.mod_small. exact H.
Qed.

Section Merge.
Context {env : Env}.

Lemma Update_tables (r : Route) :
  m_poly (Update r) = m_poly r /\ m_turns (Update r) = m_turns r /\
  m_times (Update r) = m_times r /\ m_streets (Update r) = m_streets r /\
  m_traffic (Update r) = m_traffic r.
Proof. unfold Update. destruct (negb (PolyIsValid (m_poly r))); repeat split. Qed.

(** [AppendTraffic] on a route whose path already lost its last vertex:
    [n] is the vertex count of [this] before the pop. *)
Lemma AppendTraffic_ok (this route : Route) (n : nat) :
  IsValid route = true ->
  GetSize (m_poly this) = n - 1 ->
  (m_traffic this = [] \/ length (m_traffic this) + 1 = n) ->
  exists R, AppendTraffic this route = Ok R /\
    m_poly R = m_poly this /\ m_turns R = m_turns this /\
    m_times R = m_times this /\ m_streets R = m_streets this /\
    m_traffic R =
      if empty (m_traffic this) && empty (m_traffic route) then []
      else if n - 1 =? 0 then m_traffic route
      else (if empty (m_traffic this) then repeat Unknown (n - 1) else m_traffic this)
           ++ (if empty (m_traffic route)
               then repeat Unknown (GetSize (m_poly route) - 1) else m_traffic route).
Proof.
  intros Hv Hsz Htr. unfold AppendTraffic, GetTraffic. rewrite Hv. cbn [CHECK bind].
  destruct (empty (m_traffic this) && empty (m_traffic route)) eqn:Hboth.
  { exists this. apply andb_prop in Hboth. destruct Hboth as [Ha _].
    rewrite (empty_true _ Ha). repeat split. }
  unfold IsValid. rewrite Hsz.
  destruct (Nat.eqb_spec (n - 1) 0) as [Hz|Hnz].
  { rewrite Hz. cbn [Nat.ltb Nat.leb negb]. eexists. split; [reflexivity|]. repeat split. }
  rewrite (proj2 (Nat.ltb_lt 0 (n - 1))) by lia. cbn [negb].
  assert (Hlen : (length (m_traffic
             (if empty (m_traffic this)
              then set_traffic this (repeat Unknown (n - 1)) else this))
           =? GetSize (m_poly
             (if empty (m_traffic this)
              then set_traffic this (repeat Unknown (n - 1)) else this))) = true).
  { apply Nat.eqb_eq. destruct (empty (m_traffic this)) eqn:He.
    - cbn. rewrite repeat_length. exact (eq_sym Hsz).
    - destruct Htr as [Htr|Htr]; [rewrite Htr in He; discriminate|]. lia. }
  rewrite Hlen. cbn [CHECK bind].
  assert (Hvb : (1 <=? GetSize (m_poly route)) = true).
  { apply Nat.leb_le. unfold IsValid in Hv. apply Nat.ltb_lt in Hv. lia. }
  destruct (empty (m_traffic route)) eqn:Hb.
  - rewrite Hvb. cbn [CHECK bind]. eexists. split; [reflexivity|].
    destruct (empty (m_traffic this)); repeat split.
  - eexists. split; [reflexivity|]. destruct (empty (m_traffic this)); repeat split.
Qed.

(** The merge goes through on arguments that meet [MergePre], and the
    tables of the result are those of [this], without the last turn and
    time entry when [this] has a path, followed by the re-based entries
    of [route]. *)
Lemma AppendRoute_ok (this route : Route) :
  MergePre this route ->
  let indexOffset := GetSize (m_poly this) - 1 in
  exists R,
    AppendRoute this route = Ok R /\
    m_points (m_poly R) = removelast (m_points (m_poly this)) ++ m_points (m_poly route) /\
    m_turns R = (if GetSize (m_poly this) =? 0 then m_turns this
                 else removelast (m_turns this))
                ++ append_turns indexOffset (m_turns route) /\
    m_streets R = m_streets this ++ append_streets indexOffset (m_streets route) /\
    m_times R = (if GetSize (m_poly this) =? 0 then m_times this
                 else removelast (m_times this))
                ++ append_times indexOffset (to_double (GetTotalTimeSec this))
                                (m_times route) /\
    m_traffic R = merged_traffic this route.
Proof.
  intros (Hv & HtA & HtB & Hpre) indexOffset.
  unfold AppendRoute. rewrite Hv. cbn [negb].
  assert (Hest : (if empty (m_times this) then 0%Q
                  else to_double (snd (last (m_times this) (0%N, 0%N))))
                 = to_double (GetTotalTimeSec this)).
  { unfold GetTotalTimeSec. destruct (empty (m_times this)); reflexivity. }
  rewrite Hest. clear Hest.
  destruct (Nat.eqb_spec (GetSize (m_poly this)) 0) as [Hz|Hnz]; cbn [negb bind].
  - (* [this] has no path: nothing is popped *)
    cbv zeta.
    cbn [set_times set_turns set_poly set_streets m_poly m_turns m_times m_streets
         m_routingSettings m_simplifiedPoly m_currentTime m_altitudes m_traffic].
    match goal with
    | |- context [AppendTraffic ?t route] =>
        destruct (AppendTraffic_ok t route 0 Hv)
          as (R & HR & Hpoly & Hturns & Htimes & Hstreets & Htraffic)
    end.
    { cbn. exact Hz. }
    { cbn. destruct HtA as [H|H]; [left; exact H | lia]. }
    rewrite HR. cbn [bind].
    cbn [m_traffic m_turns m_times m_streets m_poly set_times set_streets set_turns set_poly]
      in Htraffic, Hpoly, Hturns, Htimes, Hstreets.
    match goal with
    | |- context [bind ?c (fun _ => Ok (Update _))] => assert (Hchk : c = Ok tt)
    end.
    { unfold GetTraffic, Append. cbn [set_poly m_traffic m_poly m_points].
      rewrite Htraffic, Hpoly. unfold GetSize. cbn [m_points]. rewrite length_app.
      unfold GetSize in Hz. rewrite Hz. cbn [Nat.sub Nat.eqb plus].
      destruct (empty (m_traffic this) && empty (m_traffic route)); [reflexivity|].
      destruct (empty (m_traffic route)) eqn:Hb; [reflexivity|]. cbn [negb].
      destruct HtB as [H|H]; [rewrite H in Hb; discriminate|].
      unfold GetSize in H. rewrite H, Nat.eqb_refl. reflexivity. }
    rewrite Hchk. cbn [bind]. eexists. split; [reflexivity|].
    destruct (Update_tables (set_poly R (Append (m_poly R) (m_poly route))))
      as (Up & Ut & Uti & Us & Utr).
    rewrite Up, Ut, Uti, Us, Utr. cbn [set_poly m_poly m_turns m_times m_streets m_traffic].
    unfold Append. cbn [m_points]. rewrite Hpoly, Hturns, Htimes, Hstreets, Htraffic.
    unfold indexOffset, merged_traffic. rewrite Hz. cbn [Nat.sub Nat.eqb].
    assert (Hpts : m_points (m_poly this) = []).
    { unfold GetSize in Hz. destruct (m_points (m_poly this)); [reflexivity | discriminate]. }
    rewrite Hpts. repeat split.
  - (* [this] has a path: pop the last vertex, turn and time entry *)
    destruct (Hpre Hnz) as (Hturns & Hmark & Htimes & Hstr & Hdist).
    rewrite (empty_false _ Hturns), (empty_false _ Htimes). cbn [negb].
    rewrite ASSERT_true. cbn [bind].
    assert (Hsa : (if negb (empty (m_streets this))
                   then ASSERT (add32 (fst (last (m_streets this) (0%N, EmptyString))) 1
                                <? N.of_nat (GetSize (m_poly this)))%N
                   else Ok tt) = Ok tt).
    { destruct (m_streets this) eqn:Hs; [reflexivity|]. cbn [empty negb].
      rewrite (proj2 (N.ltb_lt _ _)) by (apply Hstr; discriminate). apply ASSERT_true. }
    rewrite Hsa. cbn [bind]. clear Hsa.
    assert (HptsA : m_points (m_poly this) <> []).
    { unfold GetSize in Hnz. destruct (m_points (m_poly this)); [cbn in Hnz; lia | discriminate]. }
    assert (HptsB : m_points (m_poly route) <> []).
    { unfold IsValid, GetSize in Hv. apply Nat.ltb_lt in Hv.
      destruct (m_points (m_poly route)); [cbn in Hv; lia | discriminate]. }
    unfold End, Begin, GetIterToIndex, GetPoint, at_, GetSize.
    rewrite (nth_error_last _ origin HptsA). cbn [bind].
    destruct (m_points (m_poly route)) as [|b ptsB] eqn:HB; [congruence|].
    cbn [nth_error bind m_pt]. cbn [hd] in Hdist.
    destruct (Qlt_le_dec (DistanceOnEarth (last (m_points (m_poly this)) origin) b) 2)
      as [_|Hge]; [|exfalso; apply (Qlt_not_le _ _ Hdist Hge)].
    rewrite ASSERT_true. cbn [bind].
    cbn [set_poly m_turns m_times set_turns].
    rewrite (empty_false _ Hturns). cbn [negb CHECK bind].
    rewrite (back_last _ TurnItem_default Hturns). cbn [bind]. rewrite Hmark.
    cbn [TurnDirection_eqb]. rewrite ASSERT_true. cbn [bind].
    rewrite (empty_false _ Htimes). cbn [negb CHECK bind].
    cbn [set_times set_turns set_poly set_streets m_poly m_turns m_times m_streets
         m_routingSettings m_simplifiedPoly m_currentTime m_altitudes m_traffic PopBack
         m_points pop_back].
    rewrite length_removelast'.
    match goal with
    | |- context [AppendTraffic ?t route] =>
        destruct (AppendTraffic_ok t route (length (m_points (m_poly this))) Hv)
          as (R & HR & Hpoly & HRturns & HRtimes & HRstreets & Htraffic)
    end.
    { cbn. unfold GetSize. cbn. apply length_removelast'. }
    { cbn. exact HtA. }
    rewrite HR. cbn [bind].
    cbn [m_traffic m_turns m_times m_streets m_poly set_times set_streets set_turns set_poly]
      in Htraffic, Hpoly, HRturns, HRtimes, HRstreets.
    match goal with
    | |- context [bind ?c (fun _ => Ok (Update _))] => assert (Hchk : c = Ok tt)
    end.
    { unfold GetTraffic, Append. cbn [set_poly m_traffic m_poly m_points].
      rewrite Htraffic, Hpoly. unfold GetSize, PopBack, pop_back. cbn [m_points].
      rewrite length_app, length_removelast'.
      destruct (empty (m_traffic this) && empty (m_traffic route)) eqn:Hboth; [reflexivity|].
      destruct (Nat.eqb_spec (length (m_points (m_poly this)) - 1) 0) as [Hz|Hnz1].
      + rewrite Hz. destruct (empty (m_traffic route)) eqn:Hb; [reflexivity|]. cbn [negb plus].
        destruct HtB as [H|H]; [rewrite H in Hb; discriminate|].
        unfold GetSize in H. rewrite H, Nat.eqb_refl. reflexivity.
      + rewrite empty_length.
        2:{ rewrite length_app. destruct (empty (m_traffic this)) eqn:Ha.
            - rewrite repeat_length. lia.
            - destruct HtA as [H|H]; [rewrite H in Ha; discriminate|].
              unfold GetSize in H. lia. }
        cbn [negb]. rewrite length_app.
        assert (Hla : length (if empty (m_traffic this)
                              then repeat Unknown (length (m_points (m_poly this)) - 1)
                              else m_traffic this)
                      = length (m_points (m_poly this)) - 1).
        { destruct (empty (m_traffic this)) eqn:Ha; [apply repeat_length|].
          destruct HtA as [H|H]; [rewrite H in Ha; discriminate|].
          unfold GetSize in H. lia. }
        assert (Hlb : length (if empty (m_traffic route)
                              then repeat Unknown (length (m_points (m_poly route)) - 1)
                              else m_traffic route)
                      = length (m_points (m_poly route)) - 1).
        { destruct (empty (m_traffic route)) eqn:Hb; [apply repeat_length|].
          destruct HtB as [H|H]; [rewrite H in Hb; discriminate|].
          unfold GetSize in H. lia. }
        rewrite Hla, Hlb.
        assert (0 < length (m_points (m_poly route))) by (rewrite HB; cbn; lia).
        rewrite (proj2 (Nat.eqb_eq _ _)) by lia. reflexivity. }
    rewrite Hchk. cbn [bind]. eexists. split; [reflexivity|].
    destruct (Update_tables (set_poly R (Append (m_poly R) (m_poly route))))
      as (Up & Ut & Uti & Us & Utr).
    rewrite Up, Ut, Uti, Us, Utr. cbn [set_poly m_poly m_turns m_times m_streets m_traffic].
    unfold Append. cbn [m_points]. rewrite Hpoly, HRturns, HRtimes, HRstreets, Htraffic.
    cbn [m_points]. rewrite HB.
    unfold indexOffset, merged_traffic, GetSize. rewrite HB.
    repeat split.
Qed.

End Merge.

Lemma StronglySorted_app {A} (R : A -> A -> Prop) (l1 l2 : list A) :
  StronglySorted R l1 -> StronglySorted R l2 ->
  (forall x y, In x l1 -> In y l2 -> R x y) ->
  StronglySorted R (l1 ++ l2).
Proof.
  intros H1 H2 H. induction H1 as [|a l1 Hs IH Ha]; cbn; [exact H2|].
  constructor.
  - apply IH. intros x y Hx Hy. apply H; [right; exact Hx | exact Hy].
  - apply Forall_app. split; [exact Ha|].
    rewrite Forall_forall. intros y Hy. apply H; [left; reflexivity | exact Hy].
Qed.

Lemma StronglySorted_app_inv {A} (R : A -> A -> Prop) (l1 l2 : list A) :
  StronglySorted R (l1 ++ l2) ->
  StronglySorted R l1 /\ StronglySorted R l2 /\
  (forall x y, In x l1 -> In y l2 -> R x y).
Proof.
  induction l1 as [|a l1 IH]; cbn; intros H.
  - repeat split; [constructor | exact H | intros x y []].
  - apply StronglySorted_inv in H. destruct H as [Hs Ha].
    destruct (IH Hs) as (H1 & H2 & H12). rewrite Forall_forall in Ha.
    repeat split; [|exact H2|].
    + constructor; [exact H1|]. rewrite Forall_forall. intros y Hy.
      apply Ha. apply in_or_app. left. exact Hy.
    + intros x y [<-|Hx] Hy; [apply Ha; apply in_or_app; right; exact Hy|].
      apply H12; assumption.
Qed.

Lemma StronglySorted_filter {A} (R : A -> A -> Prop) (f : A -> bool) (l : list A) :
  StronglySorted R l -> StronglySorted R (filter f l).
Proof.
  induction 1 as [|a l Hs IH Ha]; cbn; [constructor|].
  destruct (f a); [|exact IH]. constructor; [exact IH|].
  rewrite Forall_forall in Ha |- *. intros y Hy. apply Ha.
  apply filter_In in Hy. tauto.
Qed.

Lemma StronglySorted_map {A B} (R : A -> A -> Prop) (S : B -> B -> Prop)
      (f : A -> B) (l : list A) :
  (forall x y, In x l -> In y l -> R x y -> S (f x) (f y)) ->
  StronglySorted R l -> StronglySorted S (map f l).
Proof.
  intros Hf H. induction H as [|a l Hs IH Ha]; cbn; [constructor|].
  constructor.
  - apply IH. intros x y Hx Hy. apply Hf; right; assumption.
  - rewrite Forall_forall in Ha |- *. intros y Hy.
    apply in_map_iff in Hy. destruct Hy as (x & <- & Hx).
    apply Hf; [left; reflexivity | right; exact Hx | apply Ha; exact Hx].
Qed.

Lemma add32_small (a b : N) : fits32 (a + b) -> add32 a b = (a + b)%N.
Proof. intros H. apply N.mod_small. exact H. Qed.

Section MergeClaims.
Context {env : Env}.

(** C2.  When a route [B] with a path is appended to [A], the turn,
    street and time entries taken from [B] are those whose index is not
    0, each with its index increased by [indexOffset], the vertex count
    of [A] once its last vertex is removed; the time entries kept from
    [B] also have their cumulative time increased by the last cumulative
    time of [A] before the merge.  (The sums are those of the machine as
    long as they fit 32 bits.) *)
Theorem AppendRoute_rebases_tables (A B : Route) :
  MergePre A B ->
  let indexOffset := N.of_nat (GetSize (m_poly A) - 1) in
  let lastTime := GetTotalTimeSec A in
  (forall t, In t (m_turns B) -> fits32 (m_index t + indexOffset)) ->
  (forall s, In s (m_streets B) -> fits32 (fst s + indexOffset)) ->
  (forall t, In t (m_times B) ->
             fits32 (fst t + indexOffset) /\ fits32 (snd t + lastTime)) ->
  exists R,
    AppendRoute A B = Ok R /\
    m_turns R =
      (if GetSize (m_poly A) =? 0 then m_turns A else removelast (m_turns A))
      ++ map (fun t => mkTurn (m_index t + indexOffset) (m_turn t))
             (filter (fun t => negb (m_index t =? 0)%N) (m_turns B)) /\
    m_streets R =
      m_streets A
      ++ map (fun s => ((fst s + indexOffset)%N, snd s))
             (filter (fun s => negb (fst s =? 0)%N) (m_streets B)) /\
    m_times R =
      (if GetSize (m_poly A) =? 0 then m_times A else removelast (m_times A))
      ++ map (fun t => ((fst t + indexOffset)%N, (snd t + lastTime)%N))
             (filter (fun t => negb (fst t =? 0)%N) (m_times B)).
Proof.
  intros Hpre indexOffset lastTime Hft Hfs Hfm.
  destruct (AppendRoute_ok A B Hpre) as (R & HR & _ & Ht & Hs & Hm & _).
  exists R. split; [exact HR|]. rewrite Ht, Hs, Hm.
  unfold append_turns, append_streets, append_times. fold indexOffset. fold lastTime.
  split; [|split]; f_equal; apply map_ext_in; intros x Hx;
    apply filter_In in Hx; destruct Hx as [Hx _].
  - rewrite add32_small by (apply Hft; exact Hx). reflexivity.
  - rewrite add32_small by (apply Hfs; exact Hx). reflexivity.
  - destruct (Hfm x Hx) as [H1 H2].
    rewrite add32_small by exact H1. rewrite double_to_uint32_sum by exact H2.
    reflexivity.
Qed.

(** C5.  Appending the traffic of [B] to that of [A]: both empty stays
    empty; [A] empty and [B] not, one "unknown" entry per edge of [A]
    comes before the values of [B]; [A] not empty and [B] empty, one
    "unknown" entry per edge of [B] is padded on; both non-empty, the
    arrays are concatenated.  A non-empty merged array has one entry less
    than the merged path has vertices. *)
Theorem AppendRoute_traffic (A B : Route) :
  MergePre A B ->
  exists R,
    AppendRoute A B = Ok R /\
    (m_traffic A = [] -> m_traffic B = [] -> m_traffic R = []) /\
    (m_traffic A = [] -> m_traffic B <> [] ->
     m_traffic R = repeat Unknown (GetSize (m_poly A) - 1) ++ m_traffic B) /\
    (m_traffic A <> [] -> m_traffic B = [] ->
     m_traffic R = m_traffic A ++ repeat Unknown (GetSize (m_poly B) - 1)) /\
    (m_traffic A <> [] -> m_traffic B <> [] ->
     m_traffic R = m_traffic A ++ m_traffic B) /\
    (m_traffic R <> [] -> length (m_traffic R) = GetSize (m_poly R) - 1).
Proof.
  intros Hpre.
  destruct (AppendRoute_ok A B Hpre) as (R & HR & Hp & _ & _ & _ & Htr).
  destruct Hpre as (Hv & HtA & HtB & _).
  assert (HvB : 0 < GetSize (m_poly B)) by (apply Nat.ltb_lt; exact Hv).
  exists R. split; [exact HR|]. rewrite Htr. unfold merged_traffic.
  assert (HnzA : m_traffic A <> [] -> (GetSize (m_poly A) - 1 =? 0) = false
                                     /\ length (m_traffic A) = GetSize (m_poly A) - 1).
  { intros Hne. destruct HtA as [H|H]; [congruence|].
    assert (0 < length (m_traffic A)) by (destruct (m_traffic A); [congruence | cbn; lia]).
    split; [apply Nat.eqb_neq|]; lia. }
  assert (HlenB : m_traffic B <> [] -> length (m_traffic B) = GetSize (m_poly B) - 1).
  { intros Hne. destruct HtB as [H|H]; [congruence | lia]. }
  split; [|split; [|split; [|split]]].
  - intros -> ->. reflexivity.
  - intros -> Hb. rewrite (empty_false _ Hb). cbn [empty andb].
    destruct (Nat.eqb_spec (GetSize (m_poly A) - 1) 0) as [->|_]; reflexivity.
  - intros Ha ->. rewrite (empty_false _ Ha). cbn [empty andb].
    destruct (HnzA Ha) as [-> _]. reflexivity.
  - intros Ha Hb. rewrite (empty_false _ Ha), (empty_false _ Hb). cbn [andb].
    destruct (HnzA Ha) as [-> _]. reflexivity.
  - assert (HszR : GetSize (m_poly R) = GetSize (m_poly A) - 1 + GetSize (m_poly B)).
    { unfold GetSize. rewrite Hp, length_app, length_removelast'. reflexivity. }
    rewrite HszR.
    destruct (m_traffic A) as [|a ta] eqn:Ea; destruct (m_traffic B) as [|b tb] eqn:Eb;
      cbn [empty andb]; intros Hne; try congruence.
    + specialize (HlenB ltac:(discriminate)).
      destruct (Nat.eqb_spec (GetSize (m_poly A) - 1) 0) as [Hz|Hnz].
      * lia.
      * rewrite length_app, repeat_length. lia.
    + destruct (HnzA ltac:(discriminate)) as [-> Hl].
      rewrite length_app, repeat_length. lia.
    + destruct (HnzA ltac:(discriminate)) as [-> Hl].
      specialize (HlenB ltac:(discriminate)). rewrite length_app. lia.
Qed.

Lemma increasing_le_last (l : list TurnItem) (x t : TurnItem) :
  turns_increasing (l ++ [x]) -> In t l -> (m_index t < m_index x)%N.
Proof.
  intros H Hin. destruct (StronglySorted_app_inv _ _ _ H) as (_ & _ & H12).
  apply H12; [exact Hin | left; reflexivity].
Qed.

(** C7, as amended.  For routes [A] and [B] that meet the preconditions
    of the merge, whose turn tables are strictly increasing and end with
    the destination marker on the last vertex, and where [B] has at least
    two vertices: after the merge the turn indices are strictly
    increasing and the last turn is the destination marker on the last
    vertex of the merged path. *)
Theorem AppendRoute_turns_invariant (A B : Route) :
  MergePre A B ->
  IsValid A = true ->
  turns_increasing (m_turns A) -> turns_terminated A ->
  turns_increasing (m_turns B) -> turns_terminated B ->
  2 <= GetSize (m_poly B) ->
  fits32 (N.of_nat (GetSize (m_poly A) - 1 + GetSize (m_poly B))) ->
  exists R,
    AppendRoute A B = Ok R /\
    turns_increasing (m_turns R) /\ turns_terminated R.
Proof.
  intros Hpre HvA HiA [HneA HlA] HiB [HneB HlB] H2 Hfit.
  destruct (AppendRoute_ok A B Hpre) as (R & HR & Hp & Ht & _).
  exists R. split; [exact HR|].
  assert (HszA : 0 < GetSize (m_poly A)) by (apply Nat.ltb_lt; exact HvA).
  rewrite (proj2 (Nat.eqb_neq _ _)) in Ht by lia.
  set (off := GetSize (m_poly A) - 1) in *.
  destruct (exists_last HneA) as (tA & xA & EA).
  destruct (exists_last HneB) as (tB & xB & EB).
  rewrite EA, last_last in HlA. rewrite EB, last_last in HlB.
  rewrite EA, removelast_last in Ht. rewrite EA in HiA. rewrite EB in HiB.
  assert (HboundB : forall t, In t (m_turns B) ->
                              (m_index t <= N.of_nat (GetSize (m_poly B) - 1))%N).
  { intros t Hin. rewrite EB in Hin. apply in_app_or in Hin. destruct Hin as [Hin|[<-|[]]].
    - pose proof (increasing_le_last _ _ _ HiB Hin) as Hlt. rewrite HlB in Hlt.
      cbn [m_index] in Hlt. lia.
    - rewrite HlB. cbn [m_index]. lia. }
  assert (Hadd : forall t, In t (m_turns B) ->
                           add32 (m_index t) (N.of_nat off) = (m_index t + N.of_nat off)%N).
  { intros t Hin. apply add32_small. specialize (HboundB t Hin).
    unfold fits32 in *. lia. }
  assert (Hkeep : filter (fun t => negb (m_index t =? 0)%N) (m_turns B)
                  = filter (fun t => negb (m_index t =? 0)%N) tB ++ [xB]).
  { rewrite EB, filter_app. cbn [filter]. rewrite HlB. cbn [m_index].
    rewrite (proj2 (N.eqb_neq _ _)) by lia. reflexivity. }
  split.
  - (* strictly increasing *)
    rewrite Ht. apply StronglySorted_app.
    + destruct (StronglySorted_app_inv _ _ _ HiA) as (H & _). exact H.
    + unfold append_turns.
      apply (StronglySorted_map (fun a b => (m_index a < m_index b)%N)).
      * intros x y Hx Hy Hxy. cbn [m_index].
        apply filter_In in Hx, Hy. rewrite (Hadd x), (Hadd y) by tauto. lia.
      * apply StronglySorted_filter. rewrite EB. exact HiB.
    + intros x y Hx Hy. unfold append_turns in Hy.
      apply in_map_iff in Hy. destruct Hy as (z & <- & Hz).
      apply filter_In in Hz. destruct Hz as [Hz Hnz]. cbn [m_index].
      rewrite (Hadd z Hz).
      pose proof (increasing_le_last _ _ _ HiA Hx) as Hlt. rewrite HlA in Hlt.
      cbn [m_index] in Hlt. fold off in Hlt.
      apply negb_true_iff, N.eqb_neq in Hnz. lia.
  - (* the destination marker on the last vertex *)
    unfold turns_terminated. rewrite Ht. unfold append_turns. rewrite Hkeep, map_app.
    cbn [map]. rewrite app_assoc. split; [intros E; apply app_eq_nil in E; destruct E; discriminate|].
    rewrite last_last, (Hadd xB) by (rewrite EB; apply in_or_app; right; left; reflexivity).
    rewrite HlB. cbn [m_index m_turn]. f_equal.
    assert (HszR : GetSize (m_poly R) = off + GetSize (m_poly B)).
    { unfold GetSize, off. rewrite Hp, length_app, length_removelast'. reflexivity. }
    rewrite HszR. lia.
Qed.

End MergeClaims.

Lemma MergePre_legA_legB (ta tb : list SpeedGroup) :
  (ta = [] \/ length ta = 2) -> (tb = [] \/ length tb = 2) ->
  MergePre (env := gridEnv true) (legA ta) (legB tb).
Proof.
  intros Ha Hb. unfold MergePre. split; [reflexivity|].
  split; [destruct Ha as [->|Ha]; [left; reflexivity | right; cbn; lia]|].
  split; [destruct Hb as [->|Hb]; [left; reflexivity | right; cbn; lia]|].
  intros _. split; [discriminate|]. split; [reflexivity|]. split; [discriminate|].
  split; [intros _; reflexivity | reflexivity].
Defined.

(** Witness for [AppendRoute_rebases_tables]: a three-vertex leg followed
    by a three-vertex leg that starts on its last vertex. *)
Lemma AppendRoute_rebases_tables_witness :
  MergePre (env := gridEnv true) (legA []) (legB []) /\
  exists R,
    AppendRoute (env := gridEnv true) (legA []) (legB []) = Ok R /\
    m_turns R = [mkTurn 1 TurnRight; mkTurn 4 ReachedYourDestination] /\
    m_streets R = [(0%N, "A"%string); (3%N, "B"%string)] /\
    m_times R = [(1, 5); (3, 17); (4, 30)]%N.
Proof.
  assert (Hpre : MergePre (env := gridEnv true) (legA []) (legB [])).
  { apply MergePre_legA_legB; left; reflexivity. }
  split; [exact Hpre|].
  destruct (AppendRoute_rebases_tables (env := gridEnv true) (legA []) (legB []) Hpre)
    as (R & HR & Ht & Hs & Hm).
  - intros t [<-|[<-|[]]]; reflexivity.
  - intros s [<-|[<-|[]]]; reflexivity.
  - intros t [<-|[<-|[<-|[]]]]; split; reflexivity.
  - exists R. split; [exact HR|]. split; [exact Ht|]. split; [exact Hs | exact Hm].
Defined.

(** Witness for [AppendRoute_traffic]: the first leg has no traffic, the
    second has. *)
Lemma AppendRoute_traffic_witness :
  MergePre (env := gridEnv true) (legA []) (legB [G1; G2]) /\
  exists R,
    AppendRoute (env := gridEnv true) (legA []) (legB [G1; G2]) = Ok R /\
    m_traffic R = [Unknown; Unknown; G1; G2].
Proof.
  assert (Hpre : MergePre (env := gridEnv true) (legA []) (legB [G1; G2])).
  { apply MergePre_legA_legB; [left | right]; reflexivity. }
  split; [exact Hpre|].
  destruct (AppendRoute_traffic (env := gridEnv true) (legA []) (legB [G1; G2]) Hpre)
    as (R & HR & _ & Hab & _).
  exists R. split; [exact HR|]. apply Hab; [reflexivity | discriminate].
Defined.

(** Witness for [AppendRoute_turns_invariant]. *)
Lemma AppendRoute_turns_invariant_witness :
  MergePre (env := gridEnv true) (legA []) (legB []) /\
  IsValid (legA []) = true /\
  turns_increasing (m_turns (legA [])) /\ turns_terminated (legA []) /\
  turns_increasing (m_turns (legB [])) /\ turns_terminated (legB []) /\
  2 <= GetSize (m_poly (legB [])) /\
  exists R,
    AppendRoute (env := gridEnv true) (legA []) (legB []) = Ok R /\
    turns_increasing (m_turns R) /\ turns_terminated R.
Proof.
  assert (Hpre : MergePre (env := gridEnv true) (legA []) (legB [])).
  { apply MergePre_legA_legB; left; reflexivity. }
  assert (HiA : turns_increasing (m_turns (legA []))).
  { repeat constructor; reflexivity. }
  assert (HiB : turns_increasing (m_turns (legB []))).
  { repeat constructor; reflexivity. }
  assert (HtA : turns_terminated (legA [])) by (split; [discriminate | reflexivity]).
  assert (HtB : turns_terminated (legB [])) by (split; [discriminate | reflexivity]).
  assert (H2 : 2 <= GetSize (m_poly (legB []))) by (cbn; lia).
  repeat (split; [assumption || reflexivity|]).
  apply (AppendRoute_turns_invariant (env := gridEnv true) (legA []) (legB []) Hpre);
    try assumption; reflexivity.
Defined.

(** C7, the claim as stated fails: [legPoint] is a valid route of one
    vertex whose turn table is the destination marker on vertex 0, and it
    starts on the last point of [legA].  The merge drops that marker with
    the other entries of index 0: the last turn of the merged route is
    the right turn on vertex 1. *)
Lemma AppendRoute_single_vertex_leg_drops_marker :
  MergePre (env := gridEnv true) (legA []) legPoint /\
  IsValid (legA []) = true /\ IsValid legPoint = true /\
  turns_increasing (m_turns (legA [])) /\ turns_terminated (legA []) /\
  turns_increasing (m_turns legPoint) /\ turns_terminated legPoint /\
  exists R,
    AppendRoute (env := gridEnv true) (legA []) legPoint = Ok R /\
    GetSize (m_poly R) = 3 /\
    m_turns R = [mkTurn 1 TurnRight] /\
    ~ turns_terminated R.
Proof.
  split.
  { unfold MergePre. split; [reflexivity|]. split; [left; reflexivity|].
    split; [left; reflexivity|]. intros _. split; [discriminate|].
    split; [reflexivity|]. split; [discriminate|]. split; [intros _; reflexivity | reflexivity]. }
  split; [reflexivity|]. split; [reflexivity|].
  split; [repeat constructor; reflexivity|].
  split; [split; [discriminate | reflexivity]|].
  split; [repeat constructor|].
  split; [split; [discriminate | reflexivity]|].
  eexists. split; [vm_compute; reflexivity|].
  split; [reflexivity|]. split; [reflexivity|].
  intros [_ H]. cbn in H. discriminate.
Qed.

(* ------------------------------------------------------------------ *)
(** ** Segment export *)

Lemma find_pos_lt {A} (f : A -> bool) (l : list A) (x : A) :
  In x l -> f x = true -> find_pos f l < length l.
Proof.
  induction l as [|y l IH]; cbn; intros Hin Hx; [contradiction|].
  destruct (f y) eqn:Hy; [lia|].
  destruct Hin as [->|Hin]; [congruence|]. specialize (IH Hin Hx). lia.
Qed.

Section IncreasingKeys.
Variables (A : Type) (key : A -> N).

Let increasing (l : list A) : Prop :=
  StronglySorted (fun a b => (key a < key b)%N) l.

Lemma find_pos_above_all (k : N) (l : list A) :
  Forall (fun x => (k < key x)%N) l -> find_pos (fun x => (k <? key x)%N) l = 0.
Proof.
  intros H. destruct H as [|x l Hx _]; cbn; [reflexivity|].
  now rewrite (proj2 (N.ltb_lt _ _) Hx).
Qed.

(** Moving the bound from [k] to [k + 1] advances the position by one
    exactly when the entry under it has key [k + 1]. *)
Lemma find_pos_above_step (k : N) (l : list A) (x : A) :
  increasing l ->
  nth_error l (find_pos (fun x => (k <? key x)%N) l) = Some x ->
  find_pos (fun x => (k + 1 <? key x)%N) l
  = if (key x =? k + 1)%N then find_pos (fun x => (k <? key x)%N) l + 1
    else find_pos (fun x => (k <? key x)%N) l.
Proof.
  induction 1 as [|y l Hs IH Hy]; cbn [find_pos]; [cbn; discriminate|].
  destruct (N.ltb_spec k (key y)) as [Hk|Hk].
  - cbn [nth_error]. intros E. inversion E; subst y.
    destruct (N.eqb_spec (key x) (k + 1)) as [He|Hne].
    + rewrite (proj2 (N.ltb_ge _ _)) by lia.
      rewrite find_pos_above_all; [reflexivity|].
      rewrite Forall_forall in Hy |- *. intros z Hz. specialize (Hy z Hz). lia.
    + rewrite (proj2 (N.ltb_lt _ _)) by lia. reflexivity.
  - cbn [nth_error]. intros E. rewrite (proj2 (N.ltb_ge (k + 1) (key y))) by lia.
    rewrite (IH E). destruct (key x =? k + 1)%N; reflexivity.
Qed.

Lemma find_pos_above_after (k : N) (l : list A) (j : nat) (x : A) :
  increasing l -> nth_error l j = Some x ->
  find_pos (fun x => (k <? key x)%N) l <= j ->
  (k < key x)%N.
Proof.
  intros Hs. revert j. induction Hs as [|y l Hs IH Hy]; intros j Hn Hj.
  - destruct j; discriminate.
  - cbn [find_pos] in Hj.
    destruct (N.ltb_spec k (key y)) as [Hk|Hk].
    + destruct j as [|j]; cbn in Hn; [inversion Hn; subst; exact Hk|].
      rewrite Forall_forall in Hy. apply nth_error_In in Hn. specialize (Hy x Hn). lia.
    + destruct j as [|j]; [lia|]. cbn in Hn. apply (IH j Hn). lia.
Qed.

Lemma increasing_nth_lt (l : list A) :
  increasing l ->
  forall j k a b, nth_error l j = Some a -> nth_error l k = Some b -> j < k ->
                  (key a < key b)%N.
Proof.
  induction 1 as [|x l Hs IH Hx]; intros j k a b Ha Hb Hjk.
  - destruct j; discriminate.
  - destruct k as [|k]; [lia|]. cbn in Hb. destruct j as [|j]; cbn in Ha.
    + inversion Ha; subst. rewrite Forall_forall in Hx. apply Hx.
      eapply nth_error_In; exact Hb.
    + apply (IH j k); [assumption..|lia].
Qed.

Lemma is_sorted_increasing (l : list A) :
  increasing l -> is_sorted (fun a b => (key a <? key b)%N) l = true.
Proof.
  induction 1 as [|x l Hs IH Hx]; [reflexivity|].
  cbn [is_sorted]. destruct l as [|y l]; [reflexivity|].
  rewrite IH, andb_true_r. apply negb_true_iff, N.ltb_ge.
  apply Forall_inv in Hx. lia.
Qed.

End IncreasingKeys.

Lemma nth_error_edges (metric : PointD -> PointD -> Q) (pts : list PointD) :
  forall k a b, nth_error pts k = Some a -> nth_error pts (k + 1) = Some b ->
                nth_error (edges metric pts) k = Some (metric a b).
Proof.
  induction pts as [|p pts IH]; intros k a b Ha Hb; [destruct k; discriminate|].
  destruct pts as [|q pts]; [destruct k as [|[|k]]; discriminate|].
  destruct k as [|k]; cbn [edges nth_error].
  - cbn in Ha, Hb. inversion Ha; inversion Hb; subst. reflexivity.
  - apply IH; [exact Ha | exact Hb].
Qed.

Lemma length_edges (metric : PointD -> PointD -> Q) (pts : list PointD) :
  length (edges metric pts) = length pts - 1.
Proof.
  induction pts as [|p pts IH]; [reflexivity|].
  destruct pts as [|q pts]; [reflexivity|].
  change (S (length (edges metric (q :: pts))) = length (p :: q :: pts) - 1).
  rewrite IH. cbn [length]. lia.
Qed.

Lemma firstn_snoc {A} (l : list A) (k : nat) (x : A) :
  nth_error l k = Some x -> firstn (k + 1) l = firstn k l ++ [x].
Proof.
  revert k. induction l as [|y l IH]; intros k H; [destruct k; discriminate|].
  destruct k as [|k]; cbn in *; [inversion H; reflexivity|].
  now rewrite (IH k H).
Qed.

Lemma Qsum_snoc (l : list Q) (x : Q) : (Qsum (l ++ [x]) == Qsum l + x)%Q.
Proof.
  induction l as [|y l IH]; cbn [Qsum app fold_right].
  - ring.
  - fold (Qsum (l ++ [x])). fold (Qsum l). rewrite IH. ring.
Qed.

Section SegmentExport.
Context {env : Env}.

Lemma export_loop_app (r : Route) (l1 l2 : list nat) :
  forall st, export_loop r st (l1 ++ l2)
             = (st' <- export_loop r st l1 ;; export_loop r st' l2).
Proof.
  induction l1 as [|i l1 IH]; intros st; cbn [app export_loop bind]; [reflexivity|].
  destruct (export_step r st i); cbn [bind]; [apply IH | reflexivity..].
Qed.

(** An invariant kept by every iteration holds when the loop is over. *)
Lemma export_loop_invariant (r : Route) (Inv : nat -> ExportState -> Prop) (n : nat) :
  forall st0,
    Inv 0 st0 ->
    (forall k st, k < n -> Inv k st ->
                  exists st', export_step r st (k + 1) = Ok st' /\ Inv (k + 1) st') ->
    exists st, export_loop r st0 (seq 1 n) = Ok st /\ Inv n st.
Proof.
  intros st0 H0. induction n as [|n IH]; intros Hstep.
  - exists st0. split; [reflexivity | exact H0].
  - destruct IH as (st & Hl & Hi); [intros k s Hk; apply Hstep; lia|].
    destruct (Hstep n st ltac:(lia) Hi) as (st' & Hs & Hi').
    exists st'. rewrite seq_S, export_loop_app, Hl. cbn [bind export_loop].
    replace (1 + n) with (n + 1) by lia. rewrite Hs. cbn [bind].
    split; [reflexivity|]. replace (S n) with (n + 1) by lia. exact Hi'.
Qed.


Lemma carried_checkpoint_at (h : TTimeItem) (tlt : list TTimeItem) (K : N) (c : TTimeItem) :
  times_increasing (h :: tlt) ->
  nth_error (h :: tlt) (find_pos (fun t : TTimeItem => (K <? fst t)%N) tlt) = Some c ->
  carried_checkpoint (h :: tlt) K c.
Proof.
  intros Hs Hn. apply StronglySorted_inv in Hs. destruct Hs as [Hs Hh].
  rewrite Forall_forall in Hh.
  split; [eapply nth_error_In; exact Hn|].
  destruct (find_pos (fun t : TTimeItem => (K <? fst t)%N) tlt) as [|q] eqn:Hp.
  - cbn in Hn. inversion Hn; subst c.
    destruct (N.le_gt_cases (fst h) K) as [Hle|Hgt]; [left | right; split; [reflexivity | exact Hgt]].
    split; [exact Hle|]. intros c' [<-|Hin] Hc'; [lia|].
    destruct (In_nth_error _ _ Hin) as (j & Hj).
    pose proof (find_pos_above_after TTimeItem fst K tlt j c' Hs Hj ltac:(rewrite Hp; lia)). lia.
  - cbn [nth_error] in Hn. left.
    assert (Hc : (fst c <= K)%N).
    { apply N.ltb_ge. apply (find_pos_before (fun t : TTimeItem => (K <? fst t)%N) tlt q c);
        [rewrite Hp; lia | exact Hn]. }
    split; [exact Hc|]. intros c' [<-|Hin] Hc'.
    + apply nth_error_In in Hn. specialize (Hh c Hn). lia.
    + destruct (In_nth_error _ _ Hin) as (j & Hj).
      destruct (Nat.lt_trichotomy j q) as [Hlt|[->|Hgt]].
      * pose proof (increasing_nth_lt TTimeItem fst tlt Hs j q c' c Hj Hn Hlt). lia.
      * rewrite Hn in Hj. inversion Hj. lia.
      * pose proof (find_pos_above_after TTimeItem fst K tlt j c' Hs Hj ltac:(rewrite Hp; lia)). lia.
Qed.

Lemma last_in_tail {A} (h x : A) (t : list A) (d : A) :
  In (last (h :: x :: t) d) (x :: t).
Proof.
  change (last (h :: x :: t) d) with (last (x :: t) d).
  destruct (@exists_last _ (x :: t) ltac:(discriminate)) as (l' & a & E).
  rewrite E, last_last. apply in_or_app. right. left. reflexivity.
Qed.

Lemma last_in {A} (l : list A) (d : A) : l <> [] -> In (last l d) l.
Proof.
  intros H. destruct (exists_last H) as (l' & a & ->).
  rewrite last_last. apply in_or_app. right. left. reflexivity.
Qed.

(** One iteration keeps the invariant and reads inside every vector. *)
Lemma export_step_keeps_invariant (r : Route) (k : nat) (st : ExportState) :
  ExportPre r -> k + 1 < GetSize (m_poly r) -> ExportInv r k st ->
  exists st', export_step r st (k + 1) = Ok st' /\ ExportInv r (k + 1) st'.
Proof.
  intros (HneT & HiT & HlT & Hlen & HiM & Hfirst & HlM & Halt & Htraf) Hk
         (Iturn & Itime & Idist & Ilen & Irec & Ilast).
  set (n := GetSize (m_poly r)) in *.
  assert (HK : N.of_nat (k + 1) = (N.of_nat k + 1)%N) by lia.
  (* the turn under [turnItemIdx] *)
  assert (Hturn : exists tk, nth_error (m_turns r) (turnItemIdx st) = Some tk).
  { assert (Hlt : turnItemIdx st < length (m_turns r)).
    { rewrite Iturn. apply (find_pos_lt _ _ (last (m_turns r) TurnItem_default)).
      - apply last_in. exact HneT.
      - apply N.ltb_lt. rewrite HlT. lia. }
    destruct (nth_error (m_turns r) (turnItemIdx st)) eqn:E; [eauto|].
    apply nth_error_None in E. lia. }
  destruct Hturn as (tk & Htk).
  (* the checkpoint under [timeIdx] *)
  destruct (m_times r) as [|h [|x tlt]] eqn:Etimes; [cbn in Hlen; lia | cbn in Hlen; lia|].
  set (tl_ := x :: tlt) in *. cbn [tl] in Itime. cbn [hd] in Hfirst.
  assert (HiTl : times_increasing tl_).
  { apply StronglySorted_inv in HiM. tauto. }
  assert (Hp : find_pos (fun t : TTimeItem => (N.of_nat k <? fst t)%N) tl_ < length tl_).
  { apply (find_pos_lt _ _ (last (h :: tl_) (0%N, 0%N))).
    - apply last_in_tail.
    - apply N.ltb_lt. rewrite HlM. lia. }
  destruct (nth_error tl_ (find_pos (fun t : TTimeItem => (N.of_nat k <? fst t)%N) tl_))
    as [tm|] eqn:Htm; [|apply nth_error_None in Htm; lia].
  assert (Htm' : nth_error (h :: tl_) (timeIdx st) = Some tm).
  { rewrite Itime. exact Htm. }
  (* the two ends of the edge *)
  destruct (nth_error (m_points (m_poly r)) k) as [a|] eqn:Ha;
    [|apply nth_error_None in Ha; unfold n, GetSize in Hk; lia].
  destruct (nth_error (m_points (m_poly r)) (k + 1)) as [b|] eqn:Hb;
    [|apply nth_error_None in Hb; unfold n, GetSize in Hk; lia].
  (* the optional arrays *)
  assert (Halt' : exists al, (if empty (m_altitudes r) then Ok kInvalidAltitude
                              else at_ (m_altitudes r) (k + 1)) = Ok al).
  { destruct Halt as [->|Hl]; [eexists; reflexivity|].
    destruct (m_altitudes r) as [|z zs] eqn:E; [eexists; reflexivity|]. cbn [empty].
    unfold at_. destruct (nth_error (z :: zs) (k + 1)) eqn:E'; [eauto|].
    apply nth_error_None in E'. lia. }
  destruct Halt' as (al & Hal).
  assert (Htr' : exists tr, (if empty (m_traffic r) then Ok Unknown
                             else at_ (m_traffic r) (k + 1 - 1)) = Ok tr).
  { destruct Htraf as [->|Hl]; [eexists; reflexivity|].
    destruct (m_traffic r) as [|z zs] eqn:E; [eexists; reflexivity|]. cbn [empty].
    unfold at_. destruct (nth_error (z :: zs) (k + 1 - 1)) eqn:E'; [eauto|].
    apply nth_error_None in E'. fold n in Hl. lia. }
  destruct Htr' as (tr & Htr).
  (* the indices after the iteration *)
  set (turnIdx' := if (m_index tk =? N.of_nat (k + 1))%N
                   then turnItemIdx st + 1 else turnItemIdx st).
  assert (HturnIdx' : turnIdx'
                      = find_pos (fun t => (N.of_nat (k + 1) <? m_index t)%N) (m_turns r)).
  { unfold turnIdx'. rewrite HK.
    rewrite (find_pos_above_step TurnItem m_index (N.of_nat k) (m_turns r) tk HiT)
      by (rewrite <- Iturn; exact Htk).
    rewrite <- Iturn. reflexivity. }
  set (timeIdx' := if (fst tm =? N.of_nat (k + 1))%N then timeIdx st + 1 else timeIdx st).
  assert (HtimeIdx' : timeIdx'
                      = 1 + find_pos (fun t : TTimeItem => (N.of_nat (k + 1) <? fst t)%N) tl_).
  { unfold timeIdx'. rewrite HK.
    rewrite (find_pos_above_step TTimeItem fst (N.of_nat k) tl_ tm HiTl Htm).
    rewrite Itime. destruct (fst tm =? N.of_nat k + 1)%N; lia. }
  assert (Hprev : exists c, nth_error (h :: tl_) (timeIdx' - 1) = Some c /\
                            carried_checkpoint (h :: tl_) (N.of_nat (k + 1)) c).
  { pose proof (find_pos_le (fun t : TTimeItem => (N.of_nat (k + 1) <? fst t)%N) tl_) as Hle.
    rewrite HtimeIdx'. replace (1 + _ - 1) with
      (find_pos (fun t : TTimeItem => (N.of_nat (k + 1) <? fst t)%N) tl_) by lia.
    destruct (nth_error (h :: tl_)
                (find_pos (fun t : TTimeItem => (N.of_nat (k + 1) <? fst t)%N) tl_))
      as [c|] eqn:E; [|apply nth_error_None in E; cbn [length] in E; lia].
    exists c. split; [reflexivity|]. apply carried_checkpoint_at; assumption. }
  destruct Hprev as (c & Hc & Hcar).
  (* the invariant *)
  assert (Hstate : forall turn tIdx,
    tIdx = turnIdx' ->
    ExportInv r (k + 1)
      (mkExport tIdx timeIdx'
         (distFromBeginningMeters st + DistanceOnEarth a b)
         (distFromBeginningMerc st + Length a b)
         (info st ++ [mkSegmentInfo turn (b, al) EmptyString
                        (distFromBeginningMeters st + DistanceOnEarth a b)
                        (distFromBeginningMerc st + Length a b) (snd c) tr]))).
  { intros turn tIdx ->. unfold ExportInv. cbn [turnItemIdx timeIdx distFromBeginningMeters info].
    rewrite Etimes. cbn [tl]. fold tl_.
    split; [exact HturnIdx'|]. split; [exact HtimeIdx'|]. split.
    { rewrite (firstn_snoc _ k (DistanceOnEarth a b))
        by (apply nth_error_edges; assumption).
      rewrite Qsum_snoc, Idist. reflexivity. }
    split; [rewrite length_app; cbn; lia|]. split.
    - intros j rec Hj. destruct (Nat.lt_ge_cases j k) as [Hlt|Hge].
      + rewrite nth_error_app1 in Hj by lia. apply (Irec j rec Hj).
      + rewrite nth_error_app2 in Hj by lia. rewrite Ilen in Hj.
        destruct (j - k) as [|m] eqn:Ejk; [|destruct m; discriminate].
        cbn in Hj. inversion Hj; subst rec. cbn [si_timeFromBeginningS].
        exists c. replace j with k by lia. split; [exact Hcar | reflexivity].
    - intros rec Hj. replace (k + 1 - 1) with k in Hj by lia.
      rewrite nth_error_app2 in Hj by lia. rewrite Ilen, Nat.sub_diag in Hj.
      cbn in Hj. inversion Hj; subst rec. cbn [si_distFromBeginningMeters]. reflexivity. }
  (* run the iteration *)
  assert (Hchk : (turnIdx' <=? length (m_turns r)) = true).
  { apply Nat.leb_le. unfold turnIdx'.
    assert (turnItemIdx st < length (m_turns r)) by (apply nth_error_Some; congruence).
    destruct (m_index tk =? N.of_nat (k + 1))%N; lia. }
  unfold turnIdx' in Hstate, Hchk.
  destruct (m_index tk =? N.of_nat (k + 1))%N eqn:Em;
    (eexists; split; [|apply Hstate; reflexivity]);
    unfold export_step, at_; rewrite Etimes, Htk; cbn [bind]; rewrite Em;
    rewrite Hchk; cbn [CHECK bind]; rewrite Htm'; cbn [bind]; fold timeIdx';
    (replace (k + 1 - 1) with k in * by lia); rewrite Ha, Hb; cbn [bind];
    unfold at_ in Hal; rewrite Hal; cbn [bind];
    (rewrite (proj2 (Nat.eqb_neq timeIdx' 0)) by lia); rewrite Hc; cbn [bind];
    unfold at_ in Htr; rewrite Htr; cbn [bind]; reflexivity.
Qed.

End SegmentExport.

(* ------------------------------------------------------------------ *)
(** ** Segment export on the routes of the scenarios *)

Lemma ExportPre_fiveRoute (cur : Iter) : ExportPre (fiveRoute cur).
Proof.
  unfold ExportPre. cbn [fiveRoute sampleRoute m_turns m_times m_altitudes].
  split; [discriminate|]. split; [repeat constructor; reflexivity|].
  split; [reflexivity|]. split; [cbn; lia|].
  split; [repeat constructor; reflexivity|]. split; [discriminate|].
  split; [reflexivity|]. split; left; reflexivity.
Defined.

(** C6.  The claim fails on the code by a slip.  The route of the
    specification's scenario, five vertices with one checkpoint on the
    last one, passes every check of [GetSubrouteInfo]; the loop starts
    with [timeIdx = 1], since the first checkpoint is not on vertex 0, and
    its first iteration reads [m_times[1]], past the end of the table: no
    record is produced where the claim promises four.  The same read
    happens on the two-vertex route [legD].  On [legB], whose time table
    starts on vertex 0, the loop starts with [timeIdx = 0] and
    [m_times[timeIdx - 1]] is read before the table. *)
Lemma GetSubrouteInfo_reads_outside_time_table :
  (ExportChecks scenarioRoute /\
   timeIdx (export_start scenarioRoute) = 1 /\
   at_ (m_times scenarioRoute) 1 = OutOfBounds /\
   GetSubrouteInfo (env := gridEnv true) scenarioRoute 0 = OutOfBounds) /\
  (ExportChecks legD /\
   GetSubrouteInfo (env := gridEnv true) legD 0 = OutOfBounds) /\
  (ExportChecks (legB []) /\
   timeIdx (export_start (legB [])) = 0 /\
   GetSubrouteInfo (env := gridEnv true) (legB []) 0 = OutOfBounds).
Proof.
  assert (Hchecks : forall r : Route,
            0 < GetSize (m_poly r) -> m_turns r <> [] ->
            (m_index (last (m_turns r) TurnItem_default) <? N.of_nat (GetSize (m_poly r)))%N
            = true ->
            is_sorted (fun lhs rhs => (m_index lhs <? m_index rhs)%N) (m_turns r) = true ->
            m_altitudes r = [] -> m_times r <> [] ->
            (fst (last (m_times r) (0%N, 0%N)) <? N.of_nat (GetSize (m_poly r)))%N = true ->
            is_sorted (fun lhs rhs : TTimeItem => (fst lhs <? fst rhs)%N) (m_times r) = true ->
            m_traffic r = [] -> ExportChecks r).
  { intros r H1 H2 H3 H4 H5 H6 H7 H8 H9. unfold ExportChecks. cbv zeta.
    apply N.ltb_lt in H3, H7.
    repeat (split; [assumption|]). split; [left; exact H5|].
    repeat (split; [assumption|]). left. exact H9. }
  split; [|split].
  - split; [apply Hchecks; first [reflexivity | discriminate | cbn; lia]|].
    repeat split.
  - split; [apply Hchecks; first [reflexivity | discriminate | cbn; lia]|].
    reflexivity.
  - split; [apply Hchecks; first [reflexivity | discriminate | cbn; lia]|].
    repeat split.
Qed.

(* ------------------------------------------------------------------ *)
(** ** Location matching *)

Section Matching.
Context {env : Env}.

(** C9.  When the polyline is invalid, or the projected cursor point is
    at the matching threshold or farther from the raw fix,
    [MatchLocationToRoute] leaves latitude, longitude and bearing of the
    fix as they were and writes nothing to the diagnostics sink.  Whenever
    the call returns, the route is as it was. *)
Theorem MatchLocationToRoute_frame (r : Route) (location : GpsInfo)
        (routeMatchingInfo : RouteMatchingInfo) :
  (PolyIsValid (m_poly r) = false \/
   (m_matchingThresholdM (m_routingSettings r)
    <= DistanceOnEarth (m_pt (GetCurrentIter (m_poly r)))
                       (FromLatLon (m_latitude location) (m_longitude location)))%Q ->
   MatchLocationToRoute r location routeMatchingInfo
   = Ok (r, location, routeMatchingInfo)) /\
  (forall r' location' info',
     MatchLocationToRoute r location routeMatchingInfo = Ok (r', location', info') ->
     r' = r).
Proof.
  unfold MatchLocationToRoute. split.
  - intros [Hinv|Hfar].
    + rewrite Hinv. reflexivity.
    + destruct (PolyIsValid (m_poly r)); [|reflexivity].
      destruct (Qlt_le_dec _ _) as [Hlt|_]; [|reflexivity].
      exfalso. exact (Qlt_not_le _ _ Hlt Hfar).
  - intros r' location' info'.
    destruct (PolyIsValid (m_poly r)); [|intros E; inversion E; reflexivity].
    destruct (Qlt_le_dec _ _); [|intros E; inversion E; reflexivity].
    destruct (m_matchRoute (m_routingSettings r)).
    + destruct (GetPolySegAngle r _); cbn [bind]; try discriminate.
      destruct (GetMercatorDistanceFromBegin _); cbn [bind]; try discriminate.
      intros E; inversion E; reflexivity.
    + cbn [bind]. destruct (GetMercatorDistanceFromBegin _); cbn [bind]; try discriminate.
      intros E; inversion E; reflexivity.
Qed.

End Matching.

(** Witness for [MatchLocationToRoute_frame]: the cursor is on vertex 2
    of the five-vertex route, the fix is 800 m away and the threshold is
    50 m. *)
Lemma MatchLocationToRoute_frame_witness :
  let r := fiveRoute (cursorAt 200 0 2) in
  let gps := mkGps 0 1000 90 in
  let sink := mkMatching (mkPoint 0 0) 0 false 0 in
  (m_matchingThresholdM (m_routingSettings r)
   <= DistanceOnEarth (Env := gridEnv true) (m_pt (GetCurrentIter (m_poly r)))
        (FromLatLon (Env := gridEnv true) (m_latitude gps) (m_longitude gps)))%Q /\
  MatchLocationToRoute (env := gridEnv true) r gps sink = Ok (r, gps, sink).
Proof.
  intros r gps sink.
  assert (H : (m_matchingThresholdM (m_routingSettings r)
               <= DistanceOnEarth (Env := gridEnv true) (m_pt (GetCurrentIter (m_poly r)))
                    (FromLatLon (Env := gridEnv true) (m_latitude gps) (m_longitude gps)))%Q).
  { vm_compute. discriminate. }
  split; [exact H|].
  apply (proj1 (MatchLocationToRoute_frame (env := gridEnv true) r gps sink)).
  right. exact H.
Defined.

(* ------------------------------------------------------------------ *)
(** ** The time estimator *)

Lemma double_to_uint32_Qeq (a b : Q) :
  (a == b)%Q -> double_to_uint32 a = double_to_uint32 b.
Proof.
  intros H. unfold double_to_uint32. do 2 f_equal. unfold Qeq in H.
  rewrite <- (Z.quot_mul_cancel_r (Qnum a) (Zpos (Qden a)) (Zpos (Qden b))) by lia.
  rewrite <- (Z.quot_mul_cancel_r (Qnum b) (Zpos (Qden b)) (Zpos (Qden a))) by lia.
  rewrite H, (Z.mul_comm (Zpos (Qden a))). reflexivity.
Qed.

Lemma double_to_uint32_floor (a : Q) :
  (0 <= a)%Q -> double_to_uint32 a = (Z.to_N (Qfloor a) mod two32)%N.
Proof.
  intros H. unfold double_to_uint32, Qfloor. destruct a as [n d]. cbn [Qnum Qden].
  rewrite Z.quot_div_nonneg; [reflexivity | | lia].
  unfold Qle in H. cbn in H. lia.
Qed.

Lemma double_to_uint32_to_double (n : N) :
  fits32 n -> double_to_uint32 (to_double n) = n.
Proof.
  intros H. unfold double_to_uint32, to_double, inject_Z. cbn [Qnum Qden].
  rewrite Z.quot_1_r, N2Z.id. apply N.mod_small. exact H.
Qed.

(** The conversion keeps the order of values in range. *)
Lemma double_to_uint32_mono (a b : Q) (n : N) :
  (0 <= a)%Q -> (a <= b)%Q -> (b <= to_double n)%Q -> fits32 n ->
  (double_to_uint32 a <= double_to_uint32 b)%N /\ (double_to_uint32 b <= n)%N.
Proof.
  intros Ha Hab Hb Hn.
  assert (H0b : (0 <= b)%Q) by (eapply Qle_trans; eassumption).
  rewrite !double_to_uint32_floor by assumption.
  assert (Hfa : (0 <= Qfloor a)%Z).
  { change 0%Z with (Qfloor 0). apply Qfloor_resp_le. exact Ha. }
  assert (Hfab : (Qfloor a <= Qfloor b)%Z) by (apply Qfloor_resp_le; exact Hab).
  assert (Hfb : (Qfloor b <= Z.of_N n)%Z).
  { rewrite <- (Qfloor_Z (Z.of_N n)). apply Qfloor_resp_le. exact Hb. }
  unfold fits32, two32 in *.
  rewrite !N.mod_small by lia. lia.
Qed.

Lemma to_double_le (a b : N) : (a <= b)%N -> (to_double a <= to_double b)%Q.
Proof. intros H. unfold to_double. rewrite <- Zle_Qle. lia. Qed.

Lemma to_double_sub (a b : N) :
  (b <= a)%N -> (to_double (a - b) == to_double a - to_double b)%Q.
Proof.
  intros H. unfold to_double. rewrite N2Z.inj_sub by exact H.
  unfold Qeq, Qminus, Qplus, Qopp, inject_Z. cbn [Qnum Qden]. lia.
Qed.

Lemma sub32_small (a b : N) : fits32 a -> (b <= a)%N -> sub32 a b = (a - b)%N.
Proof.
  intros Ha Hb. unfold sub32, fits32, two32 in *.
  rewrite (N.mod_small b) by lia.
  replace (a + 4294967296 - b)%N with ((a - b) + 1 * 4294967296)%N by lia.
  rewrite N.Div0.mod_add. apply N.mod_small. lia.
Qed.

Lemma sorted_le_last {A} (key : A -> N) (l : list A) (d x : A) :
  StronglySorted (fun a b => (key a <= key b)%N) l -> In x l ->
  (key x <= key (last l d))%N.
Proof.
  intros Hs Hin.
  assert (Hne : l <> []) by (destruct l; [contradiction | discriminate]).
  destruct (exists_last Hne) as (l' & a & ->). rewrite last_last.
  apply in_app_or in Hin. destruct Hin as [Hin|[<-|[]]]; [|lia].
  destruct (StronglySorted_app_inv _ _ _ Hs) as (_ & _ & H). apply H; [exact Hin | left; reflexivity].
Qed.

Lemma sorted_nth_le {A} (key : A -> N) (l : list A) :
  StronglySorted (fun a b => (key a <= key b)%N) l ->
  forall j k a b, nth_error l j = Some a -> nth_error l k = Some b -> j <= k ->
                  (key a <= key b)%N.
Proof.
  induction 1 as [|x l Hs IH Hx]; intros j k a b Ha Hb Hjk.
  - destruct j; discriminate.
  - destruct j as [|j]; cbn in Ha.
    + inversion Ha; subst. destruct k as [|k]; cbn in Hb; [inversion Hb; lia|].
      rewrite Forall_forall in Hx. apply Hx. eapply nth_error_In; exact Hb.
    + destruct k as [|k]; [lia|]. cbn in Hb. apply (IH j k); [assumption..|lia].
Qed.

Section TimeEstimator.
Context {env : Env} {laws : EnvLaws env}.

Lemma distFn_ok (r : Route) (s e : nat) (ps pe : PointD) :
  nth_error (m_points (m_poly r)) s = Some ps ->
  nth_error (m_points (m_poly r)) e = Some pe ->
  exists d, distFn r s e = Ok d /\
            (d == arcTo (m_poly r) e - arcTo (m_poly r) s)%Q.
Proof.
  intros Hs He. unfold distFn, GetIterToIndex, GetDistanceM, arcOf, GetPoint, at_.
  rewrite Hs. cbn [bind]. rewrite He. cbn [bind m_ind m_pt]. rewrite Hs. cbn [bind].
  rewrite He. cbn [bind]. eexists. split; [reflexivity|].
  rewrite !DistanceOnEarth_refl. ring.
Qed.

Lemma TimeTablePre_total (r : Route) (t : TTimeItem) :
  TimeTablePre r -> In t (m_times r) ->
  (snd t <= GetTotalTimeSec r)%N /\ fits32 (snd t).
Proof.
  intros (Hne & _ & Hsnd & _ & Hfit & _) Hin.
  assert (H : (snd t <= GetTotalTimeSec r)%N).
  { unfold GetTotalTimeSec. rewrite (empty_false _ Hne).
    apply (sorted_le_last snd); assumption. }
  split; [exact H|]. unfold fits32 in *. lia.
Qed.

(** The estimator computes the remaining time of the specification for
    the first checkpoint whose index is strictly greater than the vertex
    index of the cursor. *)
Lemma GetCurrentTimeToEndSec_formula (r : Route) :
  TimeTablePre r ->
  GetCurrentTimeToEndSec r
  = Ok (remaining_time r (first_checkpoint_after (m_times r)
                            (m_ind (GetCurrentIter (m_poly r))))).
Proof.
  intros Hpre. pose proof Hpre as (Hne & Hsorted & Hsnd & Hrange & Hfit & Hcur).
  unfold GetCurrentTimeToEndSec.
  rewrite (empty_false _ Hne), (proj2 (Nat.eqb_neq _ 0)) by lia. cbn [orb].
  rewrite (upper_bound_find_pos TTimeItem nat
             (fun v item => (N.of_nat v <? fst item)%N)
             (m_ind (GetCurrentIter (m_poly r))) (m_times r))
    by (apply (sorted_partitioned fst); exact Hsorted).
  unfold first_checkpoint_after. cbv beta.
  set (pos := find_pos _ (m_times r)).
  unfold remaining_time, remaining_time_at.
  destruct (Nat.eqb_spec pos (length (m_times r))) as [Hend|Hin].
  { rewrite (proj2 (nth_error_None _ _)) by lia. reflexivity. }
  assert (Hlt : pos < length (m_times r)).
  { pose proof (find_pos_le (fun item : TTimeItem =>
                  (N.of_nat (m_ind (GetCurrentIter (m_poly r))) <? fst item)%N) (m_times r)).
    fold pos in H. lia. }
  destruct (nth_error (m_times r) pos) as [target|] eqn:Htarget;
    [|apply nth_error_None in Htarget; lia].
  unfold at_. rewrite Htarget. cbn [bind].
  assert (HinT : In target (m_times r)) by (eapply nth_error_In; exact Htarget).
  destruct (TimeTablePre_total r target Hpre HinT) as [HleT HfitT].
  pose proof (Hrange target HinT) as HrT.
  rewrite (proj2 (N.ltb_lt (fst target) (N.of_nat (GetSize (m_poly r))))) by lia.
  (* the previous checkpoint *)
  set (prev := if pos =? 0 then (0%N, 0%N) else nth (pos - 1) (m_times r) (0%N, 0%N)).
  assert (Hprev : (if 0 <? pos
                   then p <- (match nth_error (m_times r) (pos - 1) with
                              | Some a => Ok a | None => OutOfBounds end) ;;
                        Ok (to_double (snd target) - to_double (snd p))%Q
                   else Ok (to_double (snd target)))
                  = Ok (if 0 <? pos then (to_double (snd target) - to_double (snd prev))%Q
                        else to_double (snd target)) /\
                  (if 0 <? pos
                   then p <- (match nth_error (m_times r) (pos - 1) with
                              | Some a => Ok a | None => OutOfBounds end) ;;
                        Ok (N.to_nat (fst p))
                   else Ok 0) = Ok (N.to_nat (fst prev)) /\
                  N.to_nat (fst prev) < GetSize (m_poly r)).
  { unfold prev. destruct pos as [|q] eqn:Epos; cbn [Nat.ltb Nat.leb Nat.eqb].
    - repeat split. cbn. lia.
    - replace (S q - 1) with q by lia.
      assert (Hq : q < length (m_times r)) by lia.
      rewrite (@nth_error_nth' TTimeItem (m_times r) q (0%N, 0%N) Hq). cbn [bind].
      repeat split. apply Hrange. apply nth_In. exact Hq. }
  destruct Hprev as (Htime & Hstart & HrP).
  rewrite Htime. cbn [bind]. rewrite ASSERT_true. cbn [bind].
  rewrite Hstart. cbn [bind].
  (* the distances *)
  destruct (nth_error (m_points (m_poly r)) (N.to_nat (fst prev))) as [ps|] eqn:Eps;
    [|apply nth_error_None in Eps; unfold GetSize in HrP; lia].
  destruct (nth_error (m_points (m_poly r)) (N.to_nat (fst target))) as [pe|] eqn:Epe;
    [|apply nth_error_None in Epe; unfold GetSize in HrT; lia].
  destruct (nth_error (m_points (m_poly r)) (m_ind (GetCurrentIter (m_poly r))))
    as [pc|] eqn:Epc; [|apply nth_error_None in Epc; unfold GetSize in Hcur; lia].
  destruct (distFn_ok r _ _ ps pe Eps Epe) as (dist & Hdist & Edist).
  destruct (distFn_ok r _ _ pc pe Epc Epe) as (d & Hd & Ed).
  rewrite Hdist. cbn [bind].
  rewrite (AlmostEqualULPs_proper _ _ Edist).
  destruct (AlmostEqualULPs (arcTo (m_poly r) (N.to_nat (fst target))
                             - arcTo (m_poly r) (N.to_nat (fst prev))) 0); cbn [negb].
  2:{ rewrite Hd. cbn [bind]. unfold GetPoint, at_. rewrite Epc. cbn [bind].
      f_equal. apply double_to_uint32_Qeq.
      rewrite sub32_small by assumption.
      assert (Htm : ((if 0 <? pos then to_double (snd target) - to_double (snd prev)
                      else to_double (snd target))
                     == to_double (snd target) - to_double (snd prev))%Q).
      { unfold prev. destruct pos; cbn [Nat.ltb Nat.leb Nat.eqb snd]; [|reflexivity].
        unfold to_double. cbn. ring. }
      assert (Hrem : (d - DistanceOnEarth (m_pt (GetCurrentIter (m_poly r))) pc
                      == arcTo (m_poly r) (N.to_nat (fst target)) - cursorArc (m_poly r))%Q).
      { unfold cursorArc. unfold GetCurrentIter in *.
        rewrite (nth_error_nth _ _ origin Epc), Ed. ring. }
      rewrite Htm, Hrem, Edist. reflexivity. }
  rewrite sub32_small by assumption. reflexivity.
Qed.


Lemma Qsum_nonneg (l : list Q) : Forall (fun x => (0 <= x)%Q) l -> (0 <= Qsum l)%Q.
Proof.
  induction 1 as [|x l Hx _ IH]; cbn [Qsum fold_right]; [apply Qle_refl|].
  fold (Qsum l). lra.
Qed.

Lemma Qsum_app (l1 l2 : list Q) : (Qsum (l1 ++ l2) == Qsum l1 + Qsum l2)%Q.
Proof.
  induction l1 as [|x l1 IH]; cbn [Qsum app fold_right].
  - fold (Qsum l2). ring.
  - fold (Qsum (l1 ++ l2)). fold (Qsum l1). rewrite IH. ring.
Qed.

Lemma edges_nonneg (pts : list PointD) :
  Forall (fun x => (0 <= x)%Q) (edges DistanceOnEarth pts).
Proof.
  induction pts as [|a pts IH]; [constructor|].
  destruct pts as [|b pts]; [constructor|].
  cbn [edges]. constructor; [apply DistanceOnEarth_nonneg | exact IH].
Qed.

Lemma arcTo_succ (p : FollowedPolyline) (k : nat) :
  (arcTo p (k + 1) == arcTo p k + nth k (edges DistanceOnEarth (m_points p)) 0)%Q.
Proof.
  unfold arcTo.
  destruct (nth_error (edges DistanceOnEarth (m_points p)) k) as [x|] eqn:E.
  - rewrite (firstn_snoc _ k x E), Qsum_snoc, (nth_error_nth _ _ 0%Q E). reflexivity.
  - apply nth_error_None in E.
    rewrite !firstn_all2 by lia. rewrite nth_overflow by lia. ring.
Qed.

Lemma edge_nonneg (pts : list PointD) (k : nat) :
  (0 <= nth k (edges DistanceOnEarth pts) 0)%Q.
Proof.
  destruct (nth_in_or_default k (edges DistanceOnEarth pts) 0%Q) as [Hin|Hd];
    [|rewrite Hd; apply Qle_refl].
  pose proof (edges_nonneg pts) as Hall. rewrite Forall_forall in Hall.
  apply Hall. exact Hin.
Qed.

Lemma arcTo_mono (p : FollowedPolyline) (j k : nat) :
  j <= k -> (arcTo p j <= arcTo p k)%Q.
Proof.
  intros Hjk. replace k with (j + (k - j)) by lia.
  induction (k - j) as [|m IH].
  - rewrite Nat.add_0_r. apply Qle_refl.
  - replace (j + S m) with (j + m + 1) by lia. rewrite arcTo_succ.
    pose proof (edge_nonneg (m_points p) (j + m)). lra.
Qed.

(** The arc length of a cursor lies between the arc lengths of the two
    ends of its edge. *)
Lemma cursorArc_bounds (p : FollowedPolyline) :
  cursor_on_edge p ->
  (arcTo p (m_ind (m_current p)) <= cursorArc p)%Q /\
  (cursorArc p <= arcTo p (m_ind (m_current p) + 1))%Q.
Proof.
  intros Hon. unfold cursor_on_edge in Hon. unfold cursorArc.
  pose proof (DistanceOnEarth_nonneg (m_pt (m_current p))
                (nth (m_ind (m_current p)) (m_points p) origin)).
  rewrite arcTo_succ. split; lra.
Qed.

Lemma interpolation_bounds (base s rem d : Q) :
  (0 <= s)%Q -> (0 < d)%Q -> (0 <= rem)%Q -> (rem <= d)%Q ->
  (base <= base + s * (rem / d))%Q /\ (base + s * (rem / d) <= base + s)%Q.
Proof.
  intros Hs Hd Hr Hrd.
  assert (H0 : (0 <= rem / d)%Q) by (apply Qle_shift_div_l; [exact Hd | lra]).
  assert (H1 : (rem / d <= 1)%Q) by (apply Qle_shift_div_r; [exact Hd | lra]).
  split; nra.
Qed.

Lemma interpolation_mono (base s rem1 rem2 d : Q) :
  (0 <= s)%Q -> (0 < d)%Q -> (rem2 <= rem1)%Q ->
  (base + s * (rem2 / d) <= base + s * (rem1 / d))%Q.
Proof.
  intros Hs Hd Hr.
  assert (H : (rem2 / d <= rem1 / d)%Q).
  { apply Qle_shift_div_l; [exact Hd|].
    assert (E : (rem2 / d * d == rem2)%Q) by (field; lra). lra. }
  nra.
Qed.

Lemma find_pos_above_mono {A} (key : A -> N) (i1 i2 : N) (l : list A) :
  (i1 <= i2)%N ->
  find_pos (fun x => (i1 <? key x)%N) l <= find_pos (fun x => (i2 <? key x)%N) l.
Proof.
  intros Hi. induction l as [|x l IH]; cbn [find_pos]; [lia|].
  destruct (N.ltb_spec i2 (key x)), (N.ltb_spec i1 (key x)); lia.
Qed.

(** The pieces of [remaining_time] for the target under the cursor: the
    previous checkpoint lies at or before the cursor's vertex, the target
    after it, and times do not decrease between them. *)
Lemma target_segment (r : Route) (target : TTimeItem) :
  TimeTablePre r ->
  let i := m_ind (GetCurrentIter (m_poly r)) in
  let pos := first_checkpoint_after (m_times r) i in
  let prev := if pos =? 0 then (0%N, 0%N) else nth (pos - 1) (m_times r) (0%N, 0%N) in
  nth_error (m_times r) pos = Some target ->
  N.to_nat (fst prev) <= i /\ i < N.to_nat (fst target) /\
  (snd prev <= snd target)%N /\ (snd target <= GetTotalTimeSec r)%N.
Proof.
  intros Hpre i pos prev Htarget.
  pose proof Hpre as (Hne & Hsorted & Hsnd & Hrange & Hfit & Hcur).
  assert (Hafter : (N.of_nat i < fst target)%N).
  { apply N.ltb_lt.
    apply (find_pos_at (fun item : TTimeItem => (N.of_nat i <? fst item)%N) (m_times r)).
    exact Htarget. }
  assert (HleT : (snd target <= GetTotalTimeSec r)%N).
  { apply (TimeTablePre_total r target Hpre). eapply nth_error_In; exact Htarget. }
  unfold prev. destruct (Nat.eqb_spec pos 0) as [E0|E0]; cbn [fst snd].
  - repeat split; lia.
  - assert (Hq : pos - 1 < length (m_times r)).
    { assert (pos < length (m_times r)) by (apply nth_error_Some; congruence). lia. }
    pose proof (@nth_error_nth' TTimeItem (m_times r) (pos - 1) (0%N, 0%N) Hq) as Hp.
    assert (Hbefore : (fst (nth (pos - 1) (m_times r) (0%N, 0%N)) <= N.of_nat i)%N).
    { apply N.ltb_ge.
      apply (find_pos_before (fun item : TTimeItem => (N.of_nat i <? fst item)%N)
                             (m_times r) (pos - 1)); [unfold pos, first_checkpoint_after in *; lia | exact Hp]. }
    pose proof (sorted_nth_le snd (m_times r) Hsnd (pos - 1) pos _ _ Hp Htarget ltac:(lia)).
    repeat split; lia.
Qed.


Section Segment.
Variables (r : Route) (pos : nat) (target : TTimeItem).
Hypothesis Htarget : nth_error (m_times r) pos = Some target.

Let T := GetTotalTimeSec r.
Let prev := if pos =? 0 then (0%N, 0%N) else nth (pos - 1) (m_times r) (0%N, 0%N).

Hypothesis Hindex : N.to_nat (fst prev) <= N.to_nat (fst target).
Hypothesis Htime : (snd prev <= snd target)%N.
Hypothesis Htotal : (snd target <= T)%N.
Hypothesis Hfit : fits32 T.

Let segTime := (to_double (snd target) - to_double (snd prev))%Q.
Let segDist := (arcTo (m_poly r) (N.to_nat (fst target))
                - arcTo (m_poly r) (N.to_nat (fst prev)))%Q.

Lemma segment_not_degenerate :
  AlmostEqualULPs segDist 0 = false -> (0 < segDist)%Q.
Proof.
  intros Hg. destruct (Qlt_le_dec 0 segDist) as [Hlt|Hle]; [exact Hlt|exfalso].
  assert (H0 : (0 <= segDist)%Q).
  { unfold segDist. pose proof (arcTo_mono (m_poly r) _ _ Hindex). lra. }
  assert (E : (segDist == 0)%Q) by (apply Qle_antisym; assumption).
  rewrite (AlmostEqualULPs_proper _ _ E), AlmostEqualULPs_zero in Hg. discriminate.
Qed.

Lemma segment_value (cursor : Q) :
  (arcTo (m_poly r) (N.to_nat (fst prev)) <= cursor)%Q ->
  (cursor <= arcTo (m_poly r) (N.to_nat (fst target)))%Q ->
  AlmostEqualULPs segDist 0 = false ->
  let x := (to_double (T - snd target)
            + segTime * ((arcTo (m_poly r) (N.to_nat (fst target)) - cursor) / segDist))%Q in
  (to_double (T - snd target) <= x)%Q /\ (x <= to_double (T - snd prev))%Q.
Proof.
  intros Hlo Hhi Hg x.
  pose proof (segment_not_degenerate Hg) as Hd.
  assert (Hs : (0 <= segTime)%Q).
  { unfold segTime. pose proof (to_double_le _ _ Htime). lra. }
  destruct (interpolation_bounds (to_double (T - snd target)) segTime
              (arcTo (m_poly r) (N.to_nat (fst target)) - cursor) segDist Hs Hd)
    as [H1 H2]; [lra | unfold segDist; lra |].
  split; [exact H1|]. unfold x.
  set (u := (segTime * ((arcTo (m_poly r) (N.to_nat (fst target)) - cursor) / segDist))%Q) in *.
  rewrite (to_double_sub T (snd prev)) by lia.
  rewrite (to_double_sub T (snd target)) in H2 |- * by lia.
  unfold segTime in H2. lra.
Qed.

(** In the segment of its target the remaining time lies between the
    remaining time at the target and at the previous checkpoint. *)
Lemma remaining_time_at_bounds (cursor : Q) :
  (arcTo (m_poly r) (N.to_nat (fst prev)) <= cursor)%Q ->
  (cursor <= arcTo (m_poly r) (N.to_nat (fst target)))%Q ->
  (T - snd target <= remaining_time_at r cursor pos)%N /\
  (remaining_time_at r cursor pos <= T - snd prev)%N.
Proof.
  intros Hlo Hhi. unfold remaining_time_at. rewrite Htarget. cbv zeta.
  fold T. fold prev. fold segDist. fold segTime.
  destruct (AlmostEqualULPs segDist 0) eqn:Hg; cbn [negb]; [lia|].
  destruct (segment_value cursor Hlo Hhi Hg) as [H1 H2]. cbv zeta in H1, H2.
  assert (HfitP : fits32 (T - snd prev)) by (unfold fits32 in *; lia).
  assert (HfitT : fits32 (T - snd target)) by (unfold fits32 in *; lia).
  destruct (double_to_uint32_mono _ _ (T - snd prev) (to_double_le 0 _ (N.le_0_l _)) H1 H2 HfitP)
    as [Ha Hb].
  rewrite (double_to_uint32_to_double _ HfitT) in Ha. split; assumption.
Qed.

(** Inside one segment the remaining time does not grow as the cursor
    advances. *)
Lemma remaining_time_at_mono (cursor1 cursor2 : Q) :
  (arcTo (m_poly r) (N.to_nat (fst prev)) <= cursor1)%Q ->
  (cursor1 <= cursor2)%Q ->
  (cursor2 <= arcTo (m_poly r) (N.to_nat (fst target)))%Q ->
  (remaining_time_at r cursor2 pos <= remaining_time_at r cursor1 pos)%N.
Proof.
  intros Hlo H12 Hhi. unfold remaining_time_at. rewrite Htarget. cbv zeta.
  fold T. fold prev. fold segDist. fold segTime.
  destruct (AlmostEqualULPs segDist 0) eqn:Hg; cbn [negb]; [lia|].
  pose proof (segment_not_degenerate Hg) as Hd.
  assert (Hs : (0 <= segTime)%Q).
  { unfold segTime. pose proof (to_double_le _ _ Htime). lra. }
  assert (Hhi1 : (cursor1 <= arcTo (m_poly r) (N.to_nat (fst target)))%Q) by lra.
  assert (Hlo2 : (arcTo (m_poly r) (N.to_nat (fst prev)) <= cursor2)%Q) by lra.
  destruct (segment_value cursor1 Hlo Hhi1 Hg) as [_ H1].
  destruct (segment_value cursor2 Hlo2 Hhi Hg) as [H2 _]. cbv zeta in H1, H2.
  assert (HfitP : fits32 (T - snd prev)) by (unfold fits32 in *; lia).
  assert (Hrem : (arcTo (m_poly r) (N.to_nat (fst target)) - cursor2
                  <= arcTo (m_poly r) (N.to_nat (fst target)) - cursor1)%Q) by lra.
  pose proof (interpolation_mono (to_double (T - snd target)) segTime _ _ segDist
                Hs Hd Hrem) as Hm.
  assert (H0 : (0 <= to_double (T - snd target))%Q) by (apply (to_double_le 0), N.le_0_l).
  apply (double_to_uint32_mono _ _ (T - snd prev)); [lra | exact Hm | exact H1 | exact HfitP].
Qed.

End Segment.

End TimeEstimator.

Section TimeClaims.
Context {env : Env} {laws : EnvLaws env}.


End TimeClaims.

Lemma gridEnv_laws (dbg : bool) : EnvLaws (gridEnv dbg).
Proof.
  constructor; cbn [gridEnv DistanceOnEarth AlmostEqualULPs].
  - intros p q. unfold gridDistance.
    pose proof (Qabs_nonneg (px p - px q)). pose proof (Qabs_nonneg (py p - py q)). lra.
  - intros p. unfold gridDistance.
    assert (Ex : (px p - px p == 0)%Q) by ring.
    assert (Ey : (py p - py p == 0)%Q) by ring.
    rewrite Ex, Ey. reflexivity.
  - intros a b E. destruct (Qeq_bool b 0) eqn:Hb.
    + apply Qeq_bool_iff. apply Qeq_bool_iff in Hb. rewrite E. exact Hb.
    + destruct (Qeq_bool a 0) eqn:Ha; [|reflexivity].
      apply Qeq_bool_iff in Ha. rewrite E in Ha. apply Qeq_bool_iff in Ha. congruence.
  - reflexivity.
Qed.

Lemma TimeTablePre_fiveRoute (cur : Iter) :
  m_ind cur < 5 -> TimeTablePre (fiveRoute cur).
Proof.
  intros H. unfold TimeTablePre. cbn [fiveRoute sampleRoute m_times].
  split; [discriminate|]. split; [repeat constructor; cbn; lia|].
  split; [repeat constructor; cbn; lia|].
  split; [intros t [<-|[<-|[]]]; cbn; lia|].
  split; [reflexivity | exact H].
Defined.



(* ------------------------------------------------------------------ *)
(** ** The time estimator in double arithmetic *)

Section TimeDoubles.
Context {env : Env} {dbl : DoubleEnv}.

Lemma distFn_vertices (r : Route) (s e : nat) :
  s < GetSize (m_poly r) -> e < GetSize (m_poly r) ->
  InDoubles.distFn r s e
  = Ok (d_GetDistanceM (m_poly r) (InDoubles.vertexIter (m_poly r) s)
                       (InDoubles.vertexIter (m_poly r) e)).
Proof.
  intros Hs He. unfold InDoubles.distFn, InDoubles.vertexIter, GetIterToIndex, GetPoint, at_.
  destruct (nth_error (m_points (m_poly r)) s) as [ps|] eqn:Es;
    [|apply nth_error_None in Es; unfold GetSize in Hs; lia].
  destruct (nth_error (m_points (m_poly r)) e) as [pe|] eqn:Ee;
    [|apply nth_error_None in Ee; unfold GetSize in He; lia].
  cbn [bind]. now rewrite (nth_error_nth _ _ origin Es), (nth_error_nth _ _ origin Ee).
Qed.


End TimeDoubles.

Lemma TimeReadPre_fiveRoute (cur : Iter) :
  m_ind cur < 5 -> TimeReadPre (fiveRoute cur).
Proof.
  intros H. unfold TimeReadPre. cbn [fiveRoute sampleRoute m_times].
  split; [discriminate|]. split; [repeat constructor; cbn; lia|].
  split; [intros t [<-|[<-|[]]]; cbn; lia | exact H].
Defined.



(* ================================================================== *)
(** * Further properties *)

(* ------------------------------------------------------------------ *)
(** ** Route merging: what the merged route looks like *)

Lemma bind_Ok_inv {A B} (m : result A) (k : A -> result B) (b : B) :
  bind m k = Ok b -> exists a, m = Ok a /\ k a = Ok b.
Proof. destruct m; cbn; try discriminate. intros H. eauto. Qed.

Lemma CHECK_Ok_inv (c : bool) (u : unit) : CHECK c = Ok u -> c = true.
Proof. destruct c; [reflexivity | discriminate]. Qed.

Lemma filter_snoc_keep {A} (f : A -> bool) (l : list A) (x : A) :
  f x = true -> filter f (l ++ [x]) = filter f l ++ [x].
Proof. intros H. rewrite filter_app. cbn. now rewrite H. Qed.

Lemma last_app_snoc {A} (l1 l2 : list A) (x d : A) :
  last (l1 ++ l2 ++ [x]) d = x.
Proof. rewrite app_assoc. apply last_last. Qed.

Lemma GetTotalTimeSec_snoc (r : Route) (l : list TTimeItem) (x : TTimeItem) :
  m_times r = l ++ [x] -> GetTotalTimeSec r = snd x.
Proof.
  intros E. unfold GetTotalTimeSec. rewrite E.
  rewrite empty_false by (intros H; apply app_eq_nil in H; destruct H; discriminate).
  now rewrite last_last.
Qed.

Section MergeExtras.
Context {env : Env}.

Lemma merged_size (A B R : Route) :
  m_points (m_poly R) = removelast (m_points (m_poly A)) ++ m_points (m_poly B) ->
  GetSize (m_poly R) = GetSize (m_poly A) - 1 + GetSize (m_poly B).
Proof. intros H. unfold GetSize. now rewrite H, length_app, length_removelast'. Qed.

(** X1.  Total time of a merged route. *)
Theorem AppendRoute_total_time (A B : Route) :
  MergePre A B ->
  m_times B <> [] ->
  fst (last (m_times B) (0%N, 0%N)) <> 0%N ->
  fits32 (GetTotalTimeSec A + GetTotalTimeSec B) ->
  exists R,
    AppendRoute A B = Ok R /\
    GetTotalTimeSec R = (GetTotalTimeSec A + GetTotalTimeSec B)%N.
Proof.
  intros Hpre Hne Hlast Hfit.
  destruct (AppendRoute_ok A B Hpre) as (R & HR & _ & _ & _ & Hm & _).
  exists R. split; [exact HR|].
  destruct (exists_last Hne) as (l & x & E). rewrite E, last_last in Hlast.
  rewrite (GetTotalTimeSec_snoc B l x E) in *.
  unfold append_times in Hm. rewrite E in Hm.
  rewrite filter_snoc_keep in Hm by (apply negb_true_iff, N.eqb_neq; exact Hlast).
  rewrite map_app in Hm. cbn [map] in Hm. rewrite app_assoc in Hm.
  rewrite (GetTotalTimeSec_snoc R _ _ Hm). cbn [snd].
  rewrite double_to_uint32_sum by (rewrite N.add_comm; exact Hfit). lia.
Qed.

(** The kept part of the first route's time table lies strictly before
    the junction, in index and in time. *)
Lemma kept_times_before (A : Route) :
  TimesOk A -> (GetSize (m_poly A) <> 0 -> m_times A <> []) ->
  let kept := if GetSize (m_poly A) =? 0 then m_times A else removelast (m_times A) in
  times_increasing kept /\
  StronglySorted (fun a b : TTimeItem => (snd a <= snd b)%N) kept /\
  (forall t, In t kept ->
             N.to_nat (fst t) < GetSize (m_poly A) - 1 /\
             (snd t <= GetTotalTimeSec A)%N).
Proof.
  intros (Hinc & Hsnd & Hrange) Hne kept. unfold kept.
  destruct (Nat.eqb_spec (GetSize (m_poly A)) 0) as [Hz|Hnz].
  - assert (E : m_times A = []).
    { destruct (m_times A) as [|t l]; [reflexivity|].
      specialize (Hrange t (or_introl eq_refl)). lia. }
    rewrite E. split; [constructor|]. split; [constructor|]. intros t [].
  - destruct (exists_last (Hne Hnz)) as (l & x & E).
    rewrite (GetTotalTimeSec_snoc A l x E). rewrite E in *. rewrite removelast_last.
    destruct (StronglySorted_app_inv _ _ _ Hinc) as (Hl & _ & Hlx).
    destruct (StronglySorted_app_inv _ _ _ Hsnd) as (Hsl & _ & Hslx).
    split; [exact Hl|]. split; [exact Hsl|].
    intros t Hin. specialize (Hlx t x Hin (or_introl eq_refl)).
    specialize (Hslx t x Hin (or_introl eq_refl)). cbn beta in Hlx, Hslx.
    specialize (Hrange x ltac:(apply in_or_app; right; left; reflexivity)).
    split; lia.
Qed.

(** The time table of a merge is in order when those of the two routes
    are. *)
Lemma merged_times_ok (A B R : Route) :
  MergePre A B -> TimesOk A -> TimesOk B ->
  fits32 (N.of_nat (GetSize (m_poly A) - 1 + GetSize (m_poly B))) ->
  fits32 (GetTotalTimeSec A + GetTotalTimeSec B) ->
  GetSize (m_poly R) = GetSize (m_poly A) - 1 + GetSize (m_poly B) ->
  m_times R = (if GetSize (m_poly A) =? 0 then m_times A else removelast (m_times A))
              ++ append_times (GetSize (m_poly A) - 1) (to_double (GetTotalTimeSec A))
                              (m_times B) ->
  TimesOk R.
Proof.
  intros Hpre HA HB Hfit HfitT Hsz Hm.
  assert (HneA : GetSize (m_poly A) <> 0 -> m_times A <> []).
  { intros Hnz. destruct Hpre as (_ & _ & _ & H). destruct (H Hnz) as (_ & _ & Ht & _). exact Ht. }
  destruct (kept_times_before A HA HneA) as (Kinc & Ksnd & Kbound). cbv zeta in *.
  set (kept := if GetSize (m_poly A) =? 0 then m_times A else removelast (m_times A)) in *.
  set (off := GetSize (m_poly A) - 1) in *.
  destruct HB as (Binc & Bsnd & Brange).
  assert (BT : forall b, In b (m_times B) -> (snd b <= GetTotalTimeSec B)%N).
  { intros b Hb. unfold GetTotalTimeSec.
    rewrite empty_false by (intros E; rewrite E in Hb; contradiction).
    apply (sorted_le_last snd); assumption. }
  assert (Hshift : forall b, In b (m_times B) ->
            add32 (fst b) (N.of_nat off) = (fst b + N.of_nat off)%N /\
            double_to_uint32 (to_double (snd b) + to_double (GetTotalTimeSec A))
            = (snd b + GetTotalTimeSec A)%N).
  { intros b Hb. specialize (Brange b Hb). specialize (BT b Hb). split.
    - apply add32_small. unfold fits32 in *. lia.
    - apply double_to_uint32_sum. unfold fits32 in *. lia. }
  unfold TimesOk. rewrite Hm. unfold append_times.
  split; [|split].
  - apply StronglySorted_app; [exact Kinc| |].
    + apply (StronglySorted_map (fun a b : TTimeItem => (fst a < fst b)%N)).
      * intros x y Hx Hy Hxy. apply filter_In in Hx, Hy. cbn [fst].
        rewrite (proj1 (Hshift x (proj1 Hx))), (proj1 (Hshift y (proj1 Hy))). lia.
      * apply StronglySorted_filter. exact Binc.
    + intros t y Ht Hy. apply in_map_iff in Hy. destruct Hy as (b & <- & Hb).
      apply filter_In in Hb. destruct Hb as [Hb Hnz]. cbn [fst].
      rewrite (proj1 (Hshift b Hb)). destruct (Kbound t Ht) as [Hk _].
      apply negb_true_iff, N.eqb_neq in Hnz. lia.
  - apply StronglySorted_app; [exact Ksnd| |].
    + apply (StronglySorted_map (fun a b : TTimeItem => (snd a <= snd b)%N)).
      * intros x y Hx Hy Hxy. apply filter_In in Hx, Hy. cbn [snd].
        rewrite (proj2 (Hshift x (proj1 Hx))), (proj2 (Hshift y (proj1 Hy))). lia.
      * apply StronglySorted_filter. exact Bsnd.
    + intros t y Ht Hy. apply in_map_iff in Hy. destruct Hy as (b & <- & Hb).
      apply filter_In in Hb. destruct Hb as [Hb _]. cbn [snd].
      rewrite (proj2 (Hshift b Hb)). destruct (Kbound t Ht) as [_ Hk]. lia.
  - intros t Hin. rewrite Hsz. fold off. apply in_app_or in Hin. destruct Hin as [Hin|Hin].
    + destruct (Kbound t Hin) as [Hk _]. lia.
    + apply in_map_iff in Hin. destruct Hin as (b & <- & Hb).
      apply filter_In in Hb. destruct Hb as [Hb _]. cbn [fst].
      rewrite (proj1 (Hshift b Hb)). specialize (Brange b Hb). lia.
Qed.

(** X2.  The merge keeps the time table in order. *)
Theorem AppendRoute_keeps_time_table (A B : Route) :
  MergePre A B -> TimesOk A -> TimesOk B ->
  fits32 (N.of_nat (GetSize (m_poly A) - 1 + GetSize (m_poly B))) ->
  fits32 (GetTotalTimeSec A + GetTotalTimeSec B) ->
  exists R, AppendRoute A B = Ok R /\ TimesOk R.
Proof.
  intros Hpre HA HB Hfit HfitT.
  destruct (AppendRoute_ok A B Hpre) as (R & HR & Hp & _ & _ & Hm & _).
  exists R. split; [exact HR|].
  exact (merged_times_ok A B R Hpre HA HB Hfit HfitT (merged_size A B R Hp) Hm).
Qed.

(** X3.  The merge keeps the street table in order. *)
Theorem AppendRoute_keeps_street_table (A B : Route) :
  MergePre A B -> StreetsOk A -> StreetsOk B ->
  fits32 (N.of_nat (GetSize (m_poly A) - 1 + GetSize (m_poly B))) ->
  exists R, AppendRoute A B = Ok R /\ StreetsOk R.
Proof.
  intros Hpre (Asorted & Arange) (Bsorted & Brange) Hfit.
  destruct (AppendRoute_ok A B Hpre) as (R & HR & Hp & _ & Hs & _).
  exists R. split; [exact HR|].
  pose proof (merged_size A B R Hp) as Hsz.
  assert (HvB : 0 < GetSize (m_poly B)).
  { destruct Hpre as (Hv & _). apply Nat.ltb_lt. exact Hv. }
  set (off := GetSize (m_poly A) - 1) in *.
  assert (Hshift : forall b, In b (m_streets B) ->
            add32 (fst b) (N.of_nat off) = (fst b + N.of_nat off)%N).
  { intros b Hb. specialize (Brange b Hb). apply add32_small. unfold fits32 in *. lia. }
  unfold StreetsOk. rewrite Hs. unfold append_streets. split.
  - apply StronglySorted_app; [exact Asorted| |].
    + apply (StronglySorted_map (fun a b : TStreetItem => (fst a <= fst b)%N)).
      * intros x y Hx Hy Hxy. apply filter_In in Hx, Hy. cbn [fst].
        rewrite (Hshift x (proj1 Hx)), (Hshift y (proj1 Hy)). lia.
      * apply StronglySorted_filter. exact Bsorted.
    + intros s y Hs' Hy. apply in_map_iff in Hy. destruct Hy as (b & <- & Hb).
      apply filter_In in Hb. destruct Hb as [Hb Hnz]. cbn [fst].
      rewrite (Hshift b Hb). specialize (Arange s Hs').
      apply negb_true_iff, N.eqb_neq in Hnz. unfold off. lia.
  - intros s Hin. rewrite Hsz. fold off. apply in_app_or in Hin. destruct Hin as [Hin|Hin].
    + specialize (Arange s Hin). unfold off. lia.
    + apply in_map_iff in Hin. destruct Hin as (b & <- & Hb).
      apply filter_In in Hb. destruct Hb as [Hb _]. cbn [fst].
      rewrite (Hshift b Hb). specialize (Brange b Hb). lia.
Qed.

(** X4.  Appending to a route without a path is not a copy: the entries of
    index 0 of the appended route are left out. *)
Theorem AppendRoute_onto_empty (A B : Route) :
  GetSize (m_poly A) = 0 ->
  m_turns A = [] -> m_times A = [] -> m_streets A = [] -> m_traffic A = [] ->
  IsValid B = true -> traffic_consistent B ->
  (forall t, In t (m_turns B) -> fits32 (m_index t)) ->
  (forall s, In s (m_streets B) -> fits32 (fst s)) ->
  (forall t, In t (m_times B) -> fits32 (fst t) /\ fits32 (snd t)) ->
  exists R,
    AppendRoute A B = Ok R /\
    m_points (m_poly R) = m_points (m_poly B) /\
    m_turns R = filter (fun t => negb (m_index t =? 0)%N) (m_turns B) /\
    m_streets R = filter (fun s => negb (fst s =? 0)%N) (m_streets B) /\
    m_times R = filter (fun t => negb (fst t =? 0)%N) (m_times B) /\
    m_traffic R = m_traffic B.
Proof.
  intros Hz Ht Hm Hs Htr Hv HtB Hft Hfs Hfm.
  assert (Hpre : MergePre A B).
  { unfold MergePre. split; [exact Hv|]. split; [left; exact Htr|].
    split; [exact HtB|]. intros Hnz. contradiction. }
  destruct (AppendRoute_ok A B Hpre) as (R & HR & Hp & Hturns & Hstreets & Htimes & Htraffic).
  exists R. split; [exact HR|].
  assert (Hpts : m_points (m_poly A) = []).
  { unfold GetSize in Hz. destruct (m_points (m_poly A)); [reflexivity | discriminate]. }
  rewrite Hp, Hturns, Hstreets, Htimes, Htraffic, Hpts, Hz, Ht, Hm, Hs.
  cbn [removelast app Nat.eqb Nat.sub N.of_nat].
  unfold append_turns, append_streets, append_times, merged_traffic, GetTotalTimeSec.
  rewrite Hz, Hm, Htr. cbn [empty Nat.sub Nat.eqb andb].
  assert (Hid : forall A (f : A -> A) (l : list A),
             (forall x, In x l -> f x = x) -> map f l = l).
  { intros X f l H. rewrite <- (map_id l) at 2. apply map_ext_in. exact H. }
  split; [reflexivity|]. split; [|split; [|split]].
  - apply Hid. intros t Hin. apply filter_In in Hin. destruct Hin as [Hin _].
    rewrite add32_small by (rewrite N.add_0_r; apply Hft; exact Hin).
    rewrite N.add_0_r. destruct t; reflexivity.
  - apply Hid. intros s Hin. apply filter_In in Hin. destruct Hin as [Hin _].
    rewrite add32_small by (rewrite N.add_0_r; apply Hfs; exact Hin).
    rewrite N.add_0_r. destruct s; reflexivity.
  - apply Hid. intros t Hin. apply filter_In in Hin. destruct Hin as [Hin _].
    destruct (Hfm t Hin) as [H1 H2].
    rewrite add32_small by (rewrite N.add_0_r; exact H1).
    rewrite double_to_uint32_sum by (rewrite N.add_0_r; exact H2).
    rewrite !N.add_0_r. destruct t; reflexivity.
  - destruct (empty (m_traffic B)) eqn:E; [|reflexivity].
    symmetry. apply empty_true. exact E.
Qed.

End MergeExtras.

Section MergeExtras2.
Context {env : Env}.

Lemma AppendTraffic_altitudes (this route R : Route) :
  AppendTraffic this route = Ok R -> m_altitudes R = m_altitudes this.
Proof.
  unfold AppendTraffic. intros H.
  apply bind_Ok_inv in H. destruct H as (_ & _ & H).
  destruct (empty (GetTraffic this) && empty (GetTraffic route));
    [inversion H; reflexivity|].
  destruct (negb (IsValid this)); [inversion H; reflexivity|].
  apply bind_Ok_inv in H. destruct H as (_ & _ & H).
  destruct (empty (GetTraffic route)).
  - apply bind_Ok_inv in H. destruct H as (_ & _ & H). inversion H.
    destruct (empty (GetTraffic this)); reflexivity.
  - inversion H. destruct (empty (GetTraffic this)); reflexivity.
Qed.

(** The merge does not touch the altitude array. *)
Lemma AppendRoute_altitudes (this route R : Route) :
  AppendRoute this route = Ok R -> m_altitudes R = m_altitudes this.
Proof.
  unfold AppendRoute. destruct (negb (IsValid route)); [intros H; inversion H; reflexivity|].
  intros H. apply bind_Ok_inv in H. destruct H as (this1 & H1 & H).
  assert (E1 : m_altitudes this1 = m_altitudes this).
  { destruct (negb (GetSize (m_poly this) =? 0)); [|inversion H1; reflexivity].
    repeat (apply bind_Ok_inv in H1; destruct H1 as (? & _ & H1)).
    inversion H1. reflexivity. }
  apply bind_Ok_inv in H. destruct H as (this5 & H5 & H).
  apply AppendTraffic_altitudes in H5. cbn in H5.
  apply bind_Ok_inv in H. destruct H as (_ & _ & H). inversion H.
  unfold Update. destruct (negb (PolyIsValid _)); cbn; congruence.
Qed.

(** A non-empty altitude array of the wrong size fails the check of
    [GetSubrouteInfo], whatever the other tables are. *)
Lemma GetSubrouteInfo_altitude_mismatch (r : Route) (segmentIdx : nat) :
  m_altitudes r <> [] -> length (m_altitudes r) <> GetSize (m_poly r) ->
  GetSubrouteInfo r segmentIdx = CheckFailed.
Proof.
  intros Hne Hlen. unfold GetSubrouteInfo.
  destruct (segmentIdx <? GetSubrouteCount r); [|reflexivity]. cbn [CHECK bind].
  destruct (IsValid r); [|reflexivity]. cbn [CHECK bind].
  destruct (m_turns r) as [|t l] eqn:Et; [reflexivity|]. cbn [empty negb CHECK bind].
  rewrite (back_last _ TurnItem_default) by discriminate. cbn [bind].
  destruct (_ <? _)%N; [|reflexivity]. cbn [CHECK bind].
  destruct (is_sorted _ _); [|reflexivity]. cbn [CHECK bind].
  rewrite (empty_false _ Hne). cbn [negb].
  rewrite (proj2 (Nat.eqb_neq _ _) Hlen). reflexivity.
Qed.

(** X5.  Altitudes are not merged: a first leg with altitudes leaves a route
    that [GetSubrouteInfo] refuses. *)
Theorem AppendRoute_leaves_altitudes_behind (A B : Route) :
  MergePre A B ->
  m_altitudes A <> [] -> length (m_altitudes A) = GetSize (m_poly A) ->
  GetSize (m_poly B) <> 1 ->
  exists R,
    AppendRoute A B = Ok R /\
    m_altitudes R = m_altitudes A /\
    forall segmentIdx, GetSubrouteInfo R segmentIdx = CheckFailed.
Proof.
  intros Hpre Hne Hlen HB.
  destruct (AppendRoute_ok A B Hpre) as (R & HR & Hp & _).
  pose proof (AppendRoute_altitudes A B R HR) as Halt.
  pose proof (merged_size A B R Hp) as Hsz.
  exists R. split; [exact HR|]. split; [exact Halt|].
  intros segmentIdx. apply GetSubrouteInfo_altitude_mismatch; rewrite Halt; [exact Hne|].
  assert (0 < length (m_altitudes A)) by (destruct (m_altitudes A); [congruence | cbn; lia]).
  destruct Hpre as (Hv & _). apply Nat.ltb_lt in Hv. lia.
Qed.

Lemma merged_traffic_consistent (A B : Route) :
  IsValid B = true -> traffic_consistent A -> traffic_consistent B ->
  merged_traffic A B = [] \/
  length (merged_traffic A B) + 1 = GetSize (m_poly A) - 1 + GetSize (m_poly B).
Proof.
  intros Hv HA HB. apply Nat.ltb_lt in Hv. unfold merged_traffic.
  unfold traffic_consistent in HA, HB.
  destruct (m_traffic A) as [|a ta]; destruct (m_traffic B) as [|b tb];
    cbn [empty andb]; [left; reflexivity | | |].
  - destruct HB as [H|H]; [discriminate|]. cbn [length] in H.
    destruct (Nat.eqb_spec (GetSize (m_poly A) - 1) 0) as [Hz|Hnz]; right.
    + cbn [length]. lia.
    + rewrite length_app, repeat_length. cbn [length]. lia.
  - destruct HA as [H|H]; [discriminate|]. cbn [length] in H.
    rewrite (proj2 (Nat.eqb_neq _ 0)) by lia. right.
    rewrite length_app, repeat_length. cbn [length]. lia.
  - destruct HA as [H|H]; [discriminate|]. destruct HB as [H'|H']; [discriminate|].
    cbn [length] in H, H'. rewrite (proj2 (Nat.eqb_neq _ 0)) by lia. right.
    rewrite length_app. cbn [length]. lia.
Qed.

(** The tables of a merge meet what the next merge expects. *)
Lemma MergePre_merged (A B R C : Route) :
  MergePre A B -> LegOk B ->
  (forall s, In s (m_streets A) -> N.to_nat (fst s) + 1 < GetSize (m_poly A)) ->
  fits32 (N.of_nat (GetSize (m_poly A) - 1 + GetSize (m_poly B))) ->
  m_points (m_poly R) = removelast (m_points (m_poly A)) ++ m_points (m_poly B) ->
  m_turns R = (if GetSize (m_poly A) =? 0 then m_turns A else removelast (m_turns A))
              ++ append_turns (GetSize (m_poly A) - 1) (m_turns B) ->
  m_streets R = m_streets A ++ append_streets (GetSize (m_poly A) - 1) (m_streets B) ->
  m_times R = (if GetSize (m_poly A) =? 0 then m_times A else removelast (m_times A))
              ++ append_times (GetSize (m_poly A) - 1) (to_double (GetTotalTimeSec A))
                              (m_times B) ->
  m_traffic R = merged_traffic A B ->
  IsValid C = true -> traffic_consistent C ->
  (DistanceOnEarth (last (m_points (m_poly B)) origin)
                   (hd origin (m_points (m_poly C))) < 2)%Q ->
  MergePre R C.
Proof.
  intros Hpre (H2 & [HneT HlT] & HneM & HlM & HstB) HstA Hfit Hp Ht Hs Hm Htr
         HvC HtC Hdist.
  pose proof (merged_size A B R Hp) as Hsz.
  destruct Hpre as (HvB & HtA & HtB & _).
  set (off := GetSize (m_poly A) - 1) in *.
  assert (Eoff : off = GetSize (m_poly A) - 1) by reflexivity.
  unfold MergePre. split; [exact HvC|]. split.
  { unfold traffic_consistent. rewrite Htr, Hsz.
    apply merged_traffic_consistent; assumption. }
  split; [exact HtC|]. intros _.
  (* the last turn *)
  destruct (exists_last HneT) as (tB & xB & EB). rewrite EB, last_last in HlT.
  assert (HkeepT : append_turns off (m_turns B)
                   = append_turns off tB
                     ++ [mkTurn (add32 (m_index xB) (N.of_nat off)) (m_turn xB)]).
  { unfold append_turns. rewrite EB, filter_snoc_keep, map_app; [reflexivity|].
    rewrite HlT. cbn [m_index]. apply negb_true_iff, N.eqb_neq. lia. }
  (* the last checkpoint *)
  destruct (exists_last HneM) as (mB & yB & EM). rewrite EM, last_last in HlM.
  assert (HkeepM : exists y', append_times off (to_double (GetTotalTimeSec A)) (m_times B)
                   = append_times off (to_double (GetTotalTimeSec A)) mB ++ [y']).
  { unfold append_times. rewrite EM, filter_snoc_keep, map_app;
      [eexists; reflexivity|]. apply negb_true_iff, N.eqb_neq. exact HlM. }
  destruct HkeepM as (y' & HkeepM).
  split; [rewrite Ht, HkeepT, app_assoc; intros E; apply app_eq_nil in E;
          destruct E; discriminate|].
  split; [rewrite Ht, HkeepT, app_assoc, last_last, HlT; reflexivity|].
  split; [rewrite Hm, HkeepM, app_assoc; intros E; apply app_eq_nil in E;
          destruct E; discriminate|].
  split.
  - (* the last street entry lies before the last vertex *)
    intros HneS. rewrite Hsz. fold off.
    assert (Hin : In (last (m_streets R) (0%N, EmptyString)) (m_streets R))
      by (apply last_in; exact HneS).
    rewrite Hs in Hin |- *. apply in_app_or in Hin. destruct Hin as [Hin|Hin].
    + specialize (HstA _ Hin).
      rewrite add32_small by (unfold fits32 in *; lia).
      lia.
    + unfold append_streets in Hin |- *. apply in_map_iff in Hin.
      destruct Hin as (b & Eb & Hb). apply filter_In in Hb. destruct Hb as [Hb _].
      specialize (HstB b Hb). rewrite <- Eb. cbn [fst].
      rewrite (add32_small (fst b)) by (unfold fits32 in *; lia).
      rewrite add32_small by (unfold fits32 in *; lia). lia.
  - (* the junction with the next leg *)
    rewrite Hp.
    assert (HptsB : m_points (m_poly B) <> []).
    { unfold GetSize in H2. destruct (m_points (m_poly B)); [cbn in H2; lia | discriminate]. }
    destruct (exists_last HptsB) as (pB & zB & EP). rewrite EP in *.
    rewrite app_assoc, last_last. rewrite last_last in Hdist. exact Hdist.
Qed.


(** X6.  A merged route is ready for the next merge. *)
Theorem AppendRoute_ready_for_next (A B : Route) :
  MergePre A B -> LegOk B ->
  (forall s, In s (m_streets A) -> N.to_nat (fst s) + 1 < GetSize (m_poly A)) ->
  fits32 (N.of_nat (GetSize (m_poly A) - 1 + GetSize (m_poly B))) ->
  exists R,
    AppendRoute A B = Ok R /\
    forall C,
      IsValid C = true -> traffic_consistent C ->
      (DistanceOnEarth (last (m_points (m_poly B)) origin)
                       (hd origin (m_points (m_poly C))) < 2)%Q ->
      MergePre R C.
Proof.
  intros Hpre HB HstA Hfit.
  destruct (AppendRoute_ok A B Hpre) as (R & HR & Hp & Ht & Hs & Hm & Htr).
  exists R. split; [exact HR|]. intros C HvC HtC Hdist.
  exact (MergePre_merged A B R C Hpre HB HstA Hfit Hp Ht Hs Hm Htr HvC HtC Hdist).
Qed.

End MergeExtras2.

(* ------------------------------------------------------------------ *)
(** ** Route merging: the sample legs *)

Lemma TimesOk_legA : TimesOk (legA []).
Proof.
  split; [repeat constructor; reflexivity|].
  split; [repeat constructor; cbn; lia|].
  intros t [<-|[<-|[]]]; cbn; lia.
Defined.

Lemma TimesOk_legB : TimesOk (legB []).
Proof.
  split; [repeat constructor; reflexivity|].
  split; [repeat constructor; cbn; lia|].
  intros t [<-|[<-|[<-|[]]]]; cbn; lia.
Defined.

Lemma StreetsOk_legA : StreetsOk (legA []).
Proof.
  split; [repeat constructor|]. intros s [<-|[]]; cbn; lia.
Defined.

Lemma StreetsOk_legB : StreetsOk (legB []).
Proof.
  split; [repeat constructor; cbn; lia|]. intros s [<-|[<-|[]]]; cbn; lia.
Defined.

Lemma LegOk_legB : LegOk (legB []).
Proof.
  split; [cbn; lia|]. split; [split; [discriminate | reflexivity]|].
  split; [discriminate|]. split; [discriminate|].
  intros s [<-|[<-|[]]]; cbn; lia.
Defined.

Lemma MergePre_legAlt_legB : MergePre (env := gridEnv true) legAlt (legB []).
Proof.
  unfold MergePre. split; [reflexivity|]. split; [left; reflexivity|].
  split; [left; reflexivity|].
  intros _. split; [discriminate|]. split; [reflexivity|]. split; [discriminate|].
  split; [intros _; reflexivity | reflexivity].
Defined.

(** Witness for [AppendRoute_total_time]: 10 s and 20 s give 30 s. *)
Lemma AppendRoute_total_time_witness :
  MergePre (env := gridEnv true) (legA []) (legB []) /\
  exists R,
    AppendRoute (env := gridEnv true) (legA []) (legB []) = Ok R /\
    GetTotalTimeSec R = 30%N.
Proof.
  assert (Hpre : MergePre (env := gridEnv true) (legA []) (legB [])).
  { apply MergePre_legA_legB; left; reflexivity. }
  split; [exact Hpre|].
  apply (AppendRoute_total_time (env := gridEnv true) (legA []) (legB []) Hpre).
  - discriminate.
  - discriminate.
  - reflexivity.
Defined.

(** Witness for [AppendRoute_keeps_time_table]. *)
Lemma AppendRoute_keeps_time_table_witness :
  MergePre (env := gridEnv true) (legA []) (legB []) /\
  TimesOk (legA []) /\ TimesOk (legB []) /\
  exists R, AppendRoute (env := gridEnv true) (legA []) (legB []) = Ok R /\ TimesOk R.
Proof.
  assert (Hpre : MergePre (env := gridEnv true) (legA []) (legB [])).
  { apply MergePre_legA_legB; left; reflexivity. }
  split; [exact Hpre|]. split; [exact TimesOk_legA|]. split; [exact TimesOk_legB|].
  apply (AppendRoute_keeps_time_table (env := gridEnv true) (legA []) (legB []) Hpre
           TimesOk_legA TimesOk_legB); reflexivity.
Defined.

(** Witness for [AppendRoute_keeps_street_table]. *)
Lemma AppendRoute_keeps_street_table_witness :
  MergePre (env := gridEnv true) (legA []) (legB []) /\
  StreetsOk (legA []) /\ StreetsOk (legB []) /\
  exists R, AppendRoute (env := gridEnv true) (legA []) (legB []) = Ok R /\ StreetsOk R.
Proof.
  assert (Hpre : MergePre (env := gridEnv true) (legA []) (legB [])).
  { apply MergePre_legA_legB; left; reflexivity. }
  split; [exact Hpre|]. split; [exact StreetsOk_legA|]. split; [exact StreetsOk_legB|].
  apply (AppendRoute_keeps_street_table (env := gridEnv true) (legA []) (legB []) Hpre
           StreetsOk_legA StreetsOk_legB); reflexivity.
Defined.

(** Witness for [AppendRoute_onto_empty]: [legB] appended to a route
    without a path loses its left turn, its street and its checkpoint of
    vertex 0. *)
Lemma AppendRoute_onto_empty_witness :
  exists R,
    AppendRoute (env := gridEnv true) emptyRoute (legB []) = Ok R /\
    m_points (m_poly R) = m_points (m_poly (legB [])) /\
    m_turns R = [mkTurn 2 ReachedYourDestination] /\
    m_streets R = [(1%N, "B"%string)] /\
    m_times R = [(1, 7); (2, 20)]%N /\
    m_traffic R = [].
Proof.
  apply (AppendRoute_onto_empty (env := gridEnv true) emptyRoute (legB []));
    try reflexivity.
  - left; reflexivity.
  - intros t [<-|[<-|[]]]; reflexivity.
  - intros s [<-|[<-|[]]]; reflexivity.
  - intros t [<-|[<-|[<-|[]]]]; split; reflexivity.
Defined.

(** Witness for [AppendRoute_leaves_altitudes_behind]: three altitudes
    for a merged path of five vertices. *)
Lemma AppendRoute_leaves_altitudes_behind_witness :
  MergePre (env := gridEnv true) legAlt (legB []) /\
  exists R,
    AppendRoute (env := gridEnv true) legAlt (legB []) = Ok R /\
    m_altitudes R = [10; 12; 15]%Z /\
    forall segmentIdx, GetSubrouteInfo (env := gridEnv true) R segmentIdx = CheckFailed.
Proof.
  split; [exact MergePre_legAlt_legB|].
  apply (AppendRoute_leaves_altitudes_behind (env := gridEnv true) legAlt (legB [])
           MergePre_legAlt_legB).
  - discriminate.
  - reflexivity.
  - discriminate.
Defined.

(** Witness for [AppendRoute_ready_for_next]. *)
Lemma AppendRoute_ready_for_next_witness :
  MergePre (env := gridEnv true) (legA []) (legB []) /\ LegOk (legB []) /\
  exists R,
    AppendRoute (env := gridEnv true) (legA []) (legB []) = Ok R /\
    forall C,
      IsValid C = true -> traffic_consistent C ->
      (DistanceOnEarth (Env := gridEnv true) (last (m_points (m_poly (legB []))) origin)
                       (hd origin (m_points (m_poly C))) < 2)%Q ->
      MergePre (env := gridEnv true) R C.
Proof.
  assert (Hpre : MergePre (env := gridEnv true) (legA []) (legB [])).
  { apply MergePre_legA_legB; left; reflexivity. }
  split; [exact Hpre|]. split; [exact LegOk_legB|].
  apply (AppendRoute_ready_for_next (env := gridEnv true) (legA []) (legB []) Hpre LegOk_legB).
  - intros s [<-|[]]; cbn; lia.
  - reflexivity.
Defined.

(* ------------------------------------------------------------------ *)
(** ** Route merging: the path of the merged route *)

Section MergeExtras3.
Context {env : Env}.

Lemma AppendTraffic_poly (this route R : Route) :
  AppendTraffic this route = Ok R -> m_poly R = m_poly this.
Proof.
  unfold AppendTraffic. intros H.
  apply bind_Ok_inv in H. destruct H as (_ & _ & H).
  destruct (empty (GetTraffic this) && empty (GetTraffic route));
    [inversion H; reflexivity|].
  destruct (negb (IsValid this)); [inversion H; reflexivity|].
  apply bind_Ok_inv in H. destruct H as (_ & _ & H).
  destruct (empty (GetTraffic route)).
  - apply bind_Ok_inv in H. destruct H as (_ & _ & H). inversion H.
    destruct (empty (GetTraffic this)); reflexivity.
  - inversion H. destruct (empty (GetTraffic this)); reflexivity.
Qed.

(** The merge leaves the cursor of the path where it was. *)
Lemma AppendRoute_cursor (this route R : Route) :
  AppendRoute this route = Ok R ->
  m_current (m_poly R) = m_current (m_poly this).
Proof.
  unfold AppendRoute. destruct (negb (IsValid route)); [intros H; inversion H; reflexivity|].
  intros H. apply bind_Ok_inv in H. destruct H as (this1 & H1 & H).
  assert (E1 : m_current (m_poly this1) = m_current (m_poly this)).
  { destruct (negb (GetSize (m_poly this) =? 0)); [|inversion H1; reflexivity].
    repeat (apply bind_Ok_inv in H1; destruct H1 as (? & _ & H1)).
    inversion H1. reflexivity. }
  apply bind_Ok_inv in H. destruct H as (this5 & H5 & H).
  apply AppendTraffic_poly in H5. cbn in H5.
  apply bind_Ok_inv in H. destruct H as (_ & _ & H). inversion H.
  unfold Update. destruct (negb (PolyIsValid _)); cbn; congruence.
Qed.

End MergeExtras3.

(* ------------------------------------------------------------------ *)
(** ** Route merging: the merged route, and merging three legs *)

Lemma double_to_uint32_sum_mod (a b : N) :
  double_to_uint32 (to_double a + to_double b)%Q = ((a + b) mod two32)%N.
Proof.
  unfold double_to_uint32, to_double, Qplus, inject_Z. cbn [Qnum Qden].
  rewrite !Z.mul_1_r. change (Z.pos (1 * 1)) with 1%Z. rewrite Z.quot_1_r.
  rewrite <- N2Z.inj_add, N2Z.id. reflexivity.
Qed.

Lemma add32_add32 (i a b : N) : add32 (add32 i a) b = add32 i (b + a).
Proof.
  unfold add32. rewrite N.Div0.add_mod_idemp_l. f_equal. lia.
Qed.

(** Re-basing twice, with the entries of key 0 dropped each time, is
    re-basing once when the first re-basing leaves no key 0. *)
Lemma rebase_twice {A} (key : A -> N) (g1 g2 g12 : A -> A) (l : list A) :
  (forall x, In x l -> key x <> 0%N -> key (g1 x) <> 0%N) ->
  (forall x, In x l -> g2 (g1 x) = g12 x) ->
  map g2 (filter (fun x => negb (key x =? 0)%N)
                 (map g1 (filter (fun x => negb (key x =? 0)%N) l)))
  = map g12 (filter (fun x => negb (key x =? 0)%N) l).
Proof.
  intros Hnz Hg. induction l as [|x l IH]; [reflexivity|].
  cbn [filter]. destruct (N.eqb_spec (key x) 0) as [E|E]; cbn [negb].
  - apply IH; intros y Hy; [apply Hnz | apply Hg]; right; exact Hy.
  - cbn [map filter].
    rewrite (proj2 (N.eqb_neq _ _) (Hnz x (or_introl eq_refl) E)). cbn [negb map].
    rewrite (Hg x (or_introl eq_refl)). f_equal.
    apply IH; intros y Hy; [apply Hnz | apply Hg]; right; exact Hy.
Qed.

Section MergedRoute.
Context {env : Env}.

Lemma AppendTraffic_frame (this route R : Route) :
  AppendTraffic this route = Ok R ->
  m_routingSettings R = m_routingSettings this /\
  m_simplifiedPoly R = m_simplifiedPoly this /\
  m_currentTime R = m_currentTime this.
Proof.
  unfold AppendTraffic. intros H.
  apply bind_Ok_inv in H. destruct H as (_ & _ & H).
  destruct (empty (GetTraffic this) && empty (GetTraffic route));
    [inversion H; repeat split|].
  destruct (negb (IsValid this)); [inversion H; repeat split|].
  apply bind_Ok_inv in H. destruct H as (_ & _ & H).
  destruct (empty (GetTraffic route)).
  - apply bind_Ok_inv in H. destruct H as (_ & _ & H). inversion H.
    destruct (empty (GetTraffic this)); repeat split.
  - inversion H. destruct (empty (GetTraffic this)); repeat split.
Qed.

Lemma AppendRoute_inv (this route R : Route) :
  IsValid route = true -> AppendRoute this route = Ok R ->
  exists r6,
    R = Update r6 /\
    m_routingSettings r6 = m_routingSettings this /\
    m_simplifiedPoly r6 = m_simplifiedPoly this /\
    m_currentTime r6 = m_currentTime this /\
    m_altitudes r6 = m_altitudes this.
Proof.
  intros Hv. unfold AppendRoute. rewrite Hv. cbn [negb].
  intros H. apply bind_Ok_inv in H. destruct H as (this1 & H1 & H).
  assert (E1 : m_routingSettings this1 = m_routingSettings this /\
               m_simplifiedPoly this1 = m_simplifiedPoly this /\
               m_currentTime this1 = m_currentTime this /\
               m_altitudes this1 = m_altitudes this).
  { destruct (negb (GetSize (m_poly this) =? 0)); [|inversion H1; repeat split].
    repeat (apply bind_Ok_inv in H1; destruct H1 as (? & _ & H1)).
    inversion H1. repeat split. }
  destruct E1 as (Es & Ep & Ec & Ea).
  apply bind_Ok_inv in H. destruct H as (this5 & H5 & H).
  pose proof (AppendTraffic_frame _ _ _ H5) as (Fs & Fp & Fc).
  apply AppendTraffic_altitudes in H5. cbn in Fs, Fp, Fc, H5.
  apply bind_Ok_inv in H. destruct H as (_ & _ & H). inversion H.
  eexists. split; [reflexivity|]. cbn. repeat split; congruence.
Qed.

(** On arguments that meet [MergePre], [AppendRoute] leaves
    [merged_route] behind. *)
Lemma AppendRoute_value (this route : Route) :
  MergePre this route -> AppendRoute this route = Ok (merged_route this route).
Proof.
  intros Hpre.
  destruct (AppendRoute_ok this route Hpre) as (R & HR & Hp & Ht & Hs & Hm & Htr).
  rewrite HR. f_equal.
  pose proof (AppendRoute_cursor this route R HR) as Hcur.
  destruct (AppendRoute_inv this route R (proj1 Hpre) HR) as (r6 & -> & Es & Ep & Ec & Ea).
  destruct (Update_tables r6) as (Up & Ut & Um & Us & Utr).
  rewrite Up in Hp, Hcur. rewrite Ut in Ht. rewrite Um in Hm. rewrite Us in Hs.
  rewrite Utr in Htr.
  unfold merged_route. f_equal.
  destruct r6 as [s6 [pts6 cur6] sp6 ct6 t6 m6 st6 a6 tr6]. cbn in *. subst.
  reflexivity.
Qed.

Lemma merged_route_fields (this route : Route) :
  let R := merged_route this route in
  m_routingSettings R = m_routingSettings this /\
  m_poly R = mkPoly (removelast (m_points (m_poly this)) ++ m_points (m_poly route))
                    (m_current (m_poly this)) /\
  m_turns R = (if GetSize (m_poly this) =? 0 then m_turns this
               else removelast (m_turns this))
              ++ append_turns (GetSize (m_poly this) - 1) (m_turns route) /\
  m_times R = (if GetSize (m_poly this) =? 0 then m_times this
               else removelast (m_times this))
              ++ append_times (GetSize (m_poly this) - 1)
                              (to_double (GetTotalTimeSec this)) (m_times route) /\
  m_streets R = m_streets this
                ++ append_streets (GetSize (m_poly this) - 1) (m_streets route) /\
  m_altitudes R = m_altitudes this /\
  m_traffic R = merged_traffic this route /\
  (PolyIsValid (m_poly R) = false ->
   m_simplifiedPoly R = m_simplifiedPoly this /\ m_currentTime R = m_currentTime this).
Proof.
  cbv zeta. unfold merged_route, Update. cbn [m_poly m_routingSettings].
  destruct (PolyIsValid _) eqn:Hv; cbn; repeat split; intros; congruence.
Qed.

Lemma merged_route_size (this route : Route) :
  GetSize (m_poly (merged_route this route))
  = GetSize (m_poly this) - 1 + GetSize (m_poly route).
Proof.
  destruct (merged_route_fields this route) as (_ & Hp & _). cbv zeta in Hp.
  unfold GetSize. rewrite Hp. cbn [m_points]. now rewrite length_app, length_removelast'.
Qed.

(** [Update] does not look at the simplified path and at the current
    time of its argument when the path is valid. *)
Lemma Update_congr (r r' : Route) :
  m_routingSettings r = m_routingSettings r' -> m_poly r = m_poly r' ->
  m_turns r = m_turns r' -> m_times r = m_times r' -> m_streets r = m_streets r' ->
  m_altitudes r = m_altitudes r' -> m_traffic r = m_traffic r' ->
  (PolyIsValid (m_poly r) = false ->
   m_simplifiedPoly r = m_simplifiedPoly r' /\ m_currentTime r = m_currentTime r') ->
  Update r = Update r'.
Proof.
  intros Es Ep Et Em Est Ea Etr Hinv. unfold Update. rewrite <- Ep.
  destruct (PolyIsValid (m_poly r)) eqn:Hv; cbn [negb].
  - rewrite Es, Et, Em, Est, Ea, Etr. reflexivity.
  - destruct (Hinv eq_refl) as [E1 E2].
    destruct r, r'. cbn in *. subst. reflexivity.
Qed.

Lemma merged_traffic_full (A B : Route) :
  traffic_consistent A ->
  merged_traffic A B
  = if empty (m_traffic A) && empty (m_traffic B) then []
    else full_traffic A ++ full_traffic B.
Proof.
  intros HA. unfold merged_traffic, full_traffic, traffic_consistent in *.
  destruct (m_traffic A) as [|a ta] eqn:EA; destruct (m_traffic B) as [|b tb] eqn:EB;
    cbn [empty andb]; try reflexivity.
  - destruct (Nat.eqb_spec (GetSize (m_poly A) - 1) 0) as [E|E]; [|reflexivity].
    rewrite E. reflexivity.
  - destruct HA as [H|H]; [discriminate|]. cbn [length] in H.
    rewrite (proj2 (Nat.eqb_neq _ 0)) by lia. reflexivity.
  - destruct HA as [H|H]; [discriminate|]. cbn [length] in H.
    rewrite (proj2 (Nat.eqb_neq _ 0)) by lia. reflexivity.
Qed.

Lemma merged_traffic_empty (A B : Route) :
  traffic_consistent A ->
  empty (merged_traffic A B) = empty (m_traffic A) && empty (m_traffic B).
Proof.
  intros HA. rewrite (merged_traffic_full A B HA). unfold full_traffic.
  destruct (m_traffic A) as [|a ta]; destruct (m_traffic B) as [|b tb];
    cbn [empty andb app]; try reflexivity.
  destruct (repeat Unknown (GetSize (m_poly A) - 1)); reflexivity.
Qed.

(** Merging the traffic arrays is associative. *)
Lemma merged_traffic_assoc (A B C : Route) :
  traffic_consistent A -> traffic_consistent B -> traffic_consistent C ->
  2 <= GetSize (m_poly B) -> 1 <= GetSize (m_poly C) ->
  merged_traffic (merged_route A B) C = merged_traffic A (merged_route B C).
Proof.
  intros HA HB HC H2 H1.
  destruct (merged_route_fields A B) as (_ & _ & _ & _ & _ & _ & HtX & _).
  destruct (merged_route_fields B C) as (_ & _ & _ & _ & _ & _ & HtY & _).
  cbv zeta in HtX, HtY.
  assert (HcX : traffic_consistent (merged_route A B)).
  { unfold traffic_consistent. rewrite HtX, merged_route_size.
    apply merged_traffic_consistent; [apply Nat.ltb_lt; lia | assumption..]. }
  rewrite (merged_traffic_full _ C HcX), (merged_traffic_full A _ HA).
  assert (HfX : full_traffic (merged_route A B) = full_traffic A ++ full_traffic B).
  { unfold full_traffic at 1. rewrite HtX, (merged_traffic_empty A B HA).
    rewrite merged_route_size, (merged_traffic_full A B HA).
    destruct (empty (m_traffic A) && empty (m_traffic B)) eqn:E; [|reflexivity].
    apply andb_prop in E. destruct E as [EA EB]. unfold full_traffic.
    rewrite EA, EB, <- repeat_app. f_equal. lia. }
  assert (HfY : full_traffic (merged_route B C) = full_traffic B ++ full_traffic C).
  { unfold full_traffic at 1. rewrite HtY, (merged_traffic_empty B C HB).
    rewrite merged_route_size, (merged_traffic_full B C HB).
    destruct (empty (m_traffic B) && empty (m_traffic C)) eqn:E; [|reflexivity].
    apply andb_prop in E. destruct E as [EB EC]. unfold full_traffic.
    rewrite EB, EC, <- repeat_app. f_equal. lia. }
  rewrite HfX, HfY, HtX, HtY.
  rewrite (merged_traffic_empty A B HA), (merged_traffic_empty B C HB).
  rewrite andb_assoc, app_assoc. reflexivity.
Qed.

Lemma append_turns_app (off : nat) (l1 l2 : list TurnItem) :
  append_turns off (l1 ++ l2) = append_turns off l1 ++ append_turns off l2.
Proof. unfold append_turns. now rewrite filter_app, map_app. Qed.

Lemma append_streets_app (off : nat) (l1 l2 : list TStreetItem) :
  append_streets off (l1 ++ l2) = append_streets off l1 ++ append_streets off l2.
Proof. unfold append_streets. now rewrite filter_app, map_app. Qed.

Lemma append_times_app (off : nat) (est : Q) (l1 l2 : list TTimeItem) :
  append_times off est (l1 ++ l2) = append_times off est l1 ++ append_times off est l2.
Proof. unfold append_times. now rewrite filter_app, map_app. Qed.

Lemma append_turns_snoc (off : nat) (l : list TurnItem) (x : TurnItem) :
  m_index x <> 0%N ->
  append_turns off (l ++ [x])
  = append_turns off l ++ [mkTurn (add32 (m_index x) (N.of_nat off)) (m_turn x)].
Proof.
  intros H. rewrite append_turns_app. f_equal. unfold append_turns. cbn [filter].
  now rewrite (proj2 (N.eqb_neq _ _) H).
Qed.

Lemma append_times_snoc (off : nat) (est : Q) (l : list TTimeItem) (x : TTimeItem) :
  fst x <> 0%N ->
  append_times off est (l ++ [x])
  = append_times off est l
    ++ [(add32 (fst x) (N.of_nat off), double_to_uint32 (to_double (snd x) + est))].
Proof.
  intros H. rewrite append_times_app. f_equal. unfold append_times. cbn [filter].
  now rewrite (proj2 (N.eqb_neq _ _) H).
Qed.

Lemma append_turns_twice (offA offB : nat) (bound : nat) (l : list TurnItem) :
  (forall t, In t l -> N.to_nat (m_index t) < bound) ->
  fits32 (N.of_nat (offB + bound)) ->
  append_turns offA (append_turns offB l) = append_turns (offA + offB) l.
Proof.
  intros Hb Hfit. unfold append_turns.
  apply (rebase_twice m_index
           (fun t => mkTurn (add32 (m_index t) (N.of_nat offB)) (m_turn t))
           (fun t => mkTurn (add32 (m_index t) (N.of_nat offA)) (m_turn t))).
  - intros t Hin Hnz. cbn [m_index]. specialize (Hb t Hin).
    rewrite add32_small by (unfold fits32 in *; lia). lia.
  - intros t _. cbn [m_index m_turn]. rewrite add32_add32. do 2 f_equal. lia.
Qed.

Lemma append_streets_twice (offA offB : nat) (bound : nat) (l : list TStreetItem) :
  (forall s, In s l -> N.to_nat (fst s) < bound) ->
  fits32 (N.of_nat (offB + bound)) ->
  append_streets offA (append_streets offB l) = append_streets (offA + offB) l.
Proof.
  intros Hb Hfit. unfold append_streets.
  apply (rebase_twice (fst : TStreetItem -> N)
           (fun s : TStreetItem => (add32 (fst s) (N.of_nat offB), snd s))
           (fun s : TStreetItem => (add32 (fst s) (N.of_nat offA), snd s))).
  - intros t Hin Hnz. cbn [fst]. specialize (Hb t Hin).
    rewrite add32_small by (unfold fits32 in *; lia). lia.
  - intros t _. cbn [fst snd]. rewrite add32_add32. do 2 f_equal. lia.
Qed.

Lemma append_times_twice (offA offB : nat) (TA TB : N) (bound : nat) (l : list TTimeItem) :
  (forall t, In t l -> N.to_nat (fst t) < bound) ->
  fits32 (N.of_nat (offB + bound)) ->
  append_times offA (to_double TA) (append_times offB (to_double TB) l)
  = append_times (offA + offB)
                 (to_double (double_to_uint32 (to_double TB + to_double TA))) l.
Proof.
  intros Hb Hfit. unfold append_times.
  apply (rebase_twice (fst : TTimeItem -> N)
           (fun t : TTimeItem => (add32 (fst t) (N.of_nat offB),
                                  double_to_uint32 (to_double (snd t) + to_double TB)))
           (fun t : TTimeItem => (add32 (fst t) (N.of_nat offA),
                                  double_to_uint32 (to_double (snd t) + to_double TA)))).
  - intros t Hin Hnz. cbn [fst]. specialize (Hb t Hin).
    rewrite add32_small by (unfold fits32 in *; lia). lia.
  - intros t _. cbn [fst snd]. rewrite add32_add32. f_equal; [f_equal; lia|].
    rewrite !double_to_uint32_sum_mod.
    rewrite N.Div0.add_mod_idemp_l, N.Div0.add_mod_idemp_r. f_equal. lia.
Qed.


End MergedRoute.

Lemma MergePre_fiveRoute_legC (cur : Iter) :
  MergePre (env := gridEnv true) (fiveRoute cur) legC.
Proof.
  unfold MergePre. split; [reflexivity|]. split; [left; reflexivity|].
  split; [left; reflexivity|].
  intros _. split; [discriminate|]. split; [reflexivity|]. split; [discriminate|].
  split; [intros H; exfalso; apply H; reflexivity | reflexivity].
Defined.

Lemma MergePre_legC_legD : MergePre (env := gridEnv true) legC legD.
Proof.
  unfold MergePre. split; [reflexivity|]. split; [left; reflexivity|].
  split; [left; reflexivity|].
  intros _. split; [discriminate|]. split; [reflexivity|]. split; [discriminate|].
  split; [intros H; exfalso; apply H; reflexivity | reflexivity].
Defined.

Lemma LegOk_legC : LegOk legC.
Proof.
  split; [cbn; lia|]. split; [split; [discriminate | reflexivity]|].
  split; [discriminate|]. split; [discriminate|]. intros s [].
Defined.


(* ------------------------------------------------------------------ *)
(** ** Segment export: checks, reads and records *)

Section ExportExtras.
Context {env : Env}.

(** With the checks passed, [GetSubrouteInfo] is its loop. *)
Lemma GetSubrouteInfo_checks_pass (r : Route) :
  ExportChecks r ->
  GetSubrouteInfo r 0
  = (st <- export_loop r (export_start r) (seq 1 (GetSize (m_poly r) - 1)) ;;
     Ok (info st)).
Proof.
  intros (Hn & HneT & HlT & HsT & Halt & HneM & HlM & HsM & Htraf).
  unfold GetSubrouteInfo, GetSubrouteCount, IsValid, export_start.
  rewrite (proj2 (Nat.ltb_lt 0 _) Hn). cbn [Nat.ltb Nat.leb CHECK bind].
  rewrite (empty_false _ HneT). cbn [negb CHECK bind].
  rewrite (back_last _ TurnItem_default HneT). cbn [bind].
  rewrite (proj2 (N.ltb_lt _ _) HlT). cbn [CHECK bind].
  rewrite HsT. cbn [CHECK bind].
  assert (Ha : (if negb (empty (m_altitudes r))
                then CHECK (length (m_altitudes r) =? GetSize (m_poly r)) else Ok tt)
               = Ok tt).
  { destruct Halt as [->|Hl]; [reflexivity|].
    destruct (empty (m_altitudes r)); [reflexivity|].
    cbn [negb]. now rewrite Hl, Nat.eqb_refl. }
  rewrite Ha. cbn [bind]. rewrite (empty_false _ HneM). cbn [negb CHECK bind].
  rewrite (@back_last TTimeItem _ (0%N, 0%N) HneM). cbn [bind].
  rewrite (proj2 (N.ltb_lt _ _) HlM). cbn [CHECK bind].
  rewrite HsM. cbn [CHECK bind].
  assert (Hb : (if negb (empty (m_traffic r))
                then CHECK (length (m_traffic r) + 1 =? GetSize (m_poly r)) else Ok tt)
               = Ok tt).
  { destruct Htraf as [E|Hl]; [rewrite E; reflexivity|].
    destruct (empty (m_traffic r)); [reflexivity|].
    cbn [negb]. now rewrite Hl, Nat.eqb_refl. }
  rewrite Hb. cbn [bind]. unfold at_.
  destruct (m_turns r) as [|t0 ts]; [congruence|].
  destruct (m_times r) as [|h tl_]; [congruence|].
  cbn [nth_error bind hd]. reflexivity.
Qed.

(** An iteration of the loop ends with a record or with a read outside a
    vector: the turn under the cursor has been read when the cursor is
    checked against the size of the table. *)
Lemma export_step_no_check (r : Route) (st : ExportState) (i : nat) :
  export_step r st i <> CheckFailed /\ export_step r st i <> AssertFailed.
Proof.
  unfold export_step, at_.
  destruct (nth_error (m_turns r) (turnItemIdx st)) as [tk|] eqn:Etk;
    cbn [bind]; [|split; discriminate].
  assert (Hlt : turnItemIdx st < length (m_turns r)) by (apply nth_error_Some; congruence).
  assert (Hchk : forall T (a b : T),
             (let '(turn, idx') := (if (m_index tk =? N.of_nat i)%N
                                    then (tk, turnItemIdx st + 1)
                                    else (TurnItem_default, turnItemIdx st)) in
              idx' <=? length (m_turns r)) = true).
  { intros _ _ _. destruct (m_index tk =? N.of_nat i)%N; apply Nat.leb_le; lia. }
  destruct (m_index tk =? N.of_nat i)%N;
    (match goal with
     | |- context [CHECK (?a <=? ?b)] =>
         rewrite (proj2 (Nat.leb_le a b)) by lia
     end);
    cbn [CHECK bind];
    repeat match goal with
           | |- context [match nth_error ?l ?j with _ => _ end] =>
               destruct (nth_error l j); cbn [bind]
           | |- context [if ?b then _ else _] => destruct b; cbn [bind]
           end; split; discriminate.
Qed.

Lemma export_loop_no_check (r : Route) (idxs : list nat) :
  forall st, export_loop r st idxs <> CheckFailed /\
             export_loop r st idxs <> AssertFailed.
Proof.
  induction idxs as [|i rest IH]; intros st; cbn [export_loop];
    [split; discriminate|].
  destruct (export_step_no_check r st i) as [H1 H2].
  destruct (export_step r st i) as [st'| | |]; cbn [bind];
    [apply IH | congruence | congruence | split; discriminate].
Qed.

Lemma CHECK_bind_passed {B} (c : bool) (k : result B) :
  (CHECK c ;;; k) <> CheckFailed -> c = true /\ k <> CheckFailed.
Proof. destruct c; cbn [CHECK bind]; [tauto | congruence]. Qed.

Lemma guarded_CHECK_bind_passed {B} (g c : bool) (k : result B) :
  ((if negb g then CHECK c else Ok tt) ;;; k) <> CheckFailed ->
  (g = true \/ c = true) /\ k <> CheckFailed.
Proof. destruct g, c; cbn [negb CHECK bind]; try tauto; congruence. Qed.

Lemma GetSubrouteInfo_checks (r : Route) (segmentIdx : nat) :
  GetSubrouteInfo r segmentIdx <> CheckFailed -> segmentIdx = 0 /\ ExportChecks r.
Proof.
  unfold GetSubrouteInfo, GetSubrouteCount, IsValid. intros H.
  apply CHECK_bind_passed in H. destruct H as [E1 H].
  apply CHECK_bind_passed in H. destruct H as [E2 H].
  rewrite E2 in E1. apply Nat.ltb_lt in E1, E2.
  apply CHECK_bind_passed in H. destruct H as [E3 H].
  assert (HneT : m_turns r <> []) by (intros E; rewrite E in E3; discriminate).
  rewrite (back_last _ TurnItem_default HneT) in H. cbn [bind] in H.
  apply CHECK_bind_passed in H. destruct H as [E4 H].
  apply CHECK_bind_passed in H. destruct H as [E5 H].
  apply guarded_CHECK_bind_passed in H. destruct H as [E6 H].
  apply CHECK_bind_passed in H. destruct H as [E7 H].
  assert (HneM : m_times r <> []) by (intros E; rewrite E in E7; discriminate).
  rewrite (@back_last TTimeItem _ (0%N, 0%N) HneM) in H. cbn [bind] in H.
  apply CHECK_bind_passed in H. destruct H as [E8 H].
  apply CHECK_bind_passed in H. destruct H as [E9 H].
  apply guarded_CHECK_bind_passed in H. destruct H as [E10 _].
  split; [lia|]. unfold ExportChecks. cbv zeta.
  split; [exact E2|]. split; [exact HneT|]. split; [apply N.ltb_lt; exact E4|].
  split; [exact E5|].
  split; [destruct E6 as [E|E]; [left; apply empty_true; exact E
                                | right; apply Nat.eqb_eq; exact E]|].
  split; [exact HneM|]. split; [apply N.ltb_lt; exact E8|]. split; [exact E9|].
  destruct E10 as [E|E]; [left; apply empty_true; exact E | right; apply Nat.eqb_eq; exact E].
Qed.

(** X10.  [GetSubrouteInfo] aborts on a failed check exactly when the segment
    index is not 0 or one of the checks before the loop fails; the check
    inside the loop never fires. *)
Theorem GetSubrouteInfo_check_failure (r : Route) (segmentIdx : nat) :
  GetSubrouteInfo r segmentIdx = CheckFailed <->
  ~ (segmentIdx = 0 /\ ExportChecks r).
Proof.
  split.
  - intros Hf [-> Hc]. rewrite (GetSubrouteInfo_checks_pass r Hc) in Hf.
    destruct (export_loop_no_check r (seq 1 (GetSize (m_poly r) - 1)) (export_start r))
      as [H _].
    destruct (export_loop r (export_start r) _); cbn [bind] in Hf;
      congruence.
  - intros Hn. destruct (GetSubrouteInfo r segmentIdx) eqn:E; [|reflexivity| |];
      exfalso; apply Hn; apply GetSubrouteInfo_checks; rewrite E; discriminate.
Qed.

(** The first iteration reads outside the time table when the table
    starts on vertex 0 or holds a single checkpoint. *)
Lemma export_first_step_unreadable (r : Route) :
  ExportChecks r -> 2 <= GetSize (m_poly r) ->
  fst (hd (0%N, 0%N) (m_times r)) = 0%N \/ length (m_times r) = 1 ->
  export_step r (export_start r) 1 = OutOfBounds.
Proof.
  intros Hc Hn Hcase.
  destruct Hc as (_ & HneT & _ & _ & Halt & HneM & _ & _ & _).
  unfold export_step, export_start, at_. cbn [turnItemIdx timeIdx].
  destruct (nth_error (m_turns r) _) as [tk|] eqn:Etk; cbn [bind]; [|reflexivity].
  assert (Hlt : (if (m_index (hd TurnItem_default (m_turns r)) =? 0)%N then 1 else 0)
                < length (m_turns r)) by (apply nth_error_Some; congruence).
  assert (Hpts : exists a b, nth_error (m_points (m_poly r)) 0 = Some a /\
                             nth_error (m_points (m_poly r)) 1 = Some b).
  { unfold GetSize in Hn. destruct (m_points (m_poly r)) as [|a [|b l]];
      cbn [length] in Hn; [lia | lia | exists a, b; split; reflexivity]. }
  destruct Hpts as (a & b & Ha & Hb).
  assert (Hal : exists al, (if empty (m_altitudes r) then Ok kInvalidAltitude
                            else match nth_error (m_altitudes r) 1 with
                                 | Some x => Ok x | None => OutOfBounds end) = Ok al).
  { destruct Halt as [->|Hl]; [eexists; reflexivity|].
    destruct (m_altitudes r) as [|z [|z' zs]]; cbn [length] in Hl; [| lia |];
      eexists; reflexivity. }
  destruct Hal as (al & Hal).
  destruct (m_times r) as [|h tl_] eqn:Em; [congruence|]. cbn [hd] in *.
  change (1 - 1) with 0. rewrite Ha, Hb, Hal.
  destruct (m_index tk =? N.of_nat 1)%N;
    (rewrite (proj2 (Nat.leb_le _ _)) by lia); cbn [CHECK bind];
    (destruct (N.eqb_spec (fst h) 0) as [E0|E0]; cbn [negb];
     [ cbn [nth_error bind]; rewrite E0; reflexivity
     | destruct Hcase as [Hz|Hl]; [contradiction|];
       destruct tl_; [reflexivity | discriminate] ]).
Qed.

(** X11.  A time table that starts on vertex 0, or that holds a single
    checkpoint, is read outside its bounds: in the first iteration
    [m_times[timeIdx - 1]] is read with [timeIdx = 0], or [m_times[1]] in
    a table of one entry. *)
Theorem GetSubrouteInfo_unreadable_time_table (r : Route) :
  ExportChecks r -> 2 <= GetSize (m_poly r) ->
  fst (hd (0%N, 0%N) (m_times r)) = 0%N \/ length (m_times r) = 1 ->
  GetSubrouteInfo r 0 = OutOfBounds.
Proof.
  intros Hc Hn Hcase. rewrite (GetSubrouteInfo_checks_pass r Hc).
  destruct (GetSize (m_poly r) - 1) as [|m] eqn:En; [lia|].
  cbn [seq export_loop].
  rewrite (export_first_step_unreadable r Hc Hn Hcase). reflexivity.
Qed.

(** What a successful iteration has read and written. *)
Lemma export_step_Ok_inv (r : Route) (st st' : ExportState) (i : nat) :
  export_step r st i = Ok st' ->
  exists tk a b al (tp : TTimeItem) tr,
    nth_error (m_turns r) (turnItemIdx st) = Some tk /\
    nth_error (m_points (m_poly r)) (i - 1) = Some a /\
    nth_error (m_points (m_poly r)) i = Some b /\
    (if empty (m_altitudes r) then al = kInvalidAltitude
     else nth_error (m_altitudes r) i = Some al) /\
    (if empty (m_traffic r) then tr = Unknown
     else nth_error (m_traffic r) (i - 1) = Some tr) /\
    distFromBeginningMerc st' = (distFromBeginningMerc st + Length a b)%Q /\
    info st'
    = info st ++ [mkSegmentInfo (if (m_index tk =? N.of_nat i)%N then tk
                                 else TurnItem_default)
                                (b, al) EmptyString
                                (distFromBeginningMeters st + DistanceOnEarth a b)%Q
                                (distFromBeginningMerc st + Length a b)%Q (snd tp) tr].
Proof.
  unfold export_step, at_. intros H.
  destruct (nth_error (m_turns r) (turnItemIdx st)) as [tk|]; [|discriminate].
  cbn [bind] in H. exists tk.
  destruct (m_index tk =? N.of_nat i)%N;
    (apply bind_Ok_inv in H; destruct H as (_ & _ & H);
     destruct (nth_error (m_times r) (timeIdx st)) as [tm|]; [|discriminate];
     cbn [bind] in H;
     destruct (nth_error (m_points (m_poly r)) (i - 1)) as [a|]; [|discriminate];
     cbn [bind] in H;
     destruct (nth_error (m_points (m_poly r)) i) as [b|]; [|discriminate];
     cbn [bind] in H;
     apply bind_Ok_inv in H; destruct H as (al & Hal & H);
     apply bind_Ok_inv in H; destruct H as (tp & _ & H);
     apply bind_Ok_inv in H; destruct H as (tr & Htr & H);
     inversion H; subst st'; clear H;
     exists a, b, al, tp, tr;
     cbn [distFromBeginningMerc info];
     repeat (split; [reflexivity|]);
     split;
     [ destruct (empty (m_altitudes r));
       [inversion Hal; reflexivity
       |destruct (nth_error (m_altitudes r) i); inversion Hal; reflexivity]
     | split; [|split; reflexivity];
       destruct (empty (m_traffic r));
       [inversion Htr; reflexivity
       |destruct (nth_error (m_traffic r) (i - 1)); inversion Htr; reflexivity] ]).
Qed.

Lemma ExportPre_checks (r : Route) : ExportPre r -> ExportChecks r.
Proof.
  intros (HneT & HiT & HlT & Hlen & HiM & Hfirst & HlM & Halt & Htraf).
  cbv zeta in *.
  assert (HneM : m_times r <> []) by (destruct (m_times r); [cbn in Hlen; lia | discriminate]).
  assert (Hn : 0 < GetSize (m_poly r)).
  { destruct (exists_last HneM) as (l & x & E). rewrite E in *.
    rewrite last_last in HlM. destruct l as [|h l]; [cbn in Hlen; lia|].
    apply StronglySorted_inv in HiM. destruct HiM as [_ Hh].
    rewrite Forall_forall in Hh. specialize (Hh x ltac:(apply in_or_app; right; left; reflexivity)).
    lia. }
  unfold ExportChecks. cbv zeta.
  split; [exact Hn|]. split; [exact HneT|]. split; [rewrite HlT; lia|].
  split; [apply (is_sorted_increasing TurnItem m_index); exact HiT|].
  split; [exact Halt|]. split; [exact HneM|]. split; [rewrite HlM; lia|].
  split; [apply (is_sorted_increasing TTimeItem fst); exact HiM | exact Htraf].
Qed.

(** The turn under the turn cursor is the only candidate for vertex
    [k + 1]. *)
Lemma turn_under_cursor (turns : list TurnItem) (k : nat) (tk : TurnItem) :
  turns_increasing turns ->
  nth_error turns (find_pos (fun t => (N.of_nat k <? m_index t)%N) turns) = Some tk ->
  forall t, In t turns -> m_index t = N.of_nat (k + 1) -> t = tk.
Proof.
  intros Hinc Htk t Hin Hidx.
  apply In_nth_error in Hin. destruct Hin as (j & Hj).
  set (p := find_pos (fun t => (N.of_nat k <? m_index t)%N) turns) in *.
  assert (Hk : (N.of_nat k < m_index tk)%N).
  { apply N.ltb_lt. apply (find_pos_at (fun t => (N.of_nat k <? m_index t)%N) turns).
    exact Htk. }
  destruct (Nat.lt_trichotomy j p) as [Hlt|[Heq|Hgt]].
  - pose proof (find_pos_before (fun t => (N.of_nat k <? m_index t)%N) turns j t Hlt Hj) as Hb.
    apply N.ltb_ge in Hb. lia.
  - subst j. congruence.
  - pose proof (increasing_nth_lt TurnItem m_index turns Hinc p j tk t Htk Hj Hgt). lia.
Qed.

Lemma RecordsInv_step (r : Route) (k : nat) (st : ExportState) :
  ExportPre r -> k + 1 < GetSize (m_poly r) -> RecordsInv r k st ->
  exists st', export_step r st (k + 1) = Ok st' /\ RecordsInv r (k + 1) st'.
Proof.
  intros Hpre Hk (Hinv & Hmerc & Hrec).
  destruct (export_step_keeps_invariant r k st Hpre Hk Hinv) as (st' & Hs & Hinv').
  exists st'. split; [exact Hs|].
  destruct (export_step_Ok_inv r st st' (k + 1) Hs)
    as (tk & a & b & al & tp & tr & Htk & Ha & Hb & Hal & Htr & Hm' & Hinfo).
  replace (k + 1 - 1) with k in * by lia.
  destruct Hpre as (_ & HiT & _).
  destruct Hinv as (Iturn & _ & _ & Ilen & _).
  destruct Hinv' as (Iturn' & Itime' & Idist' & Ilen' & Irec' & Ilast').
  assert (HmercStep : (distFromBeginningMerc st'
                       == Qsum (firstn (k + 1) (edges Length (m_points (m_poly r)))))%Q).
  { rewrite Hm', (firstn_snoc _ k (Length a b)) by (apply nth_error_edges; assumption).
    rewrite Qsum_snoc, Hmerc. reflexivity. }
  split; [repeat split; assumption|]. split; [exact HmercStep|].
  intros j rec Hj. rewrite Hinfo in Hj.
  destruct (Nat.lt_ge_cases j k) as [Hlt|Hge].
  { rewrite nth_error_app1 in Hj by lia. apply (Hrec j rec Hj). }
  assert (Hjk : j = k).
  { assert (j < length (info st ++ [rec])).
    { rewrite length_app. cbn [length].
      assert (j < length (info st')) by (rewrite Hinfo; apply nth_error_Some; congruence).
      rewrite Ilen' in *. lia. }
    rewrite length_app in H. cbn [length] in H. lia. }
  subst j. pose proof Hj as Hj'. rewrite <- Hinfo in Hj'.
  rewrite nth_error_app2 in Hj by lia. rewrite Ilen, Nat.sub_diag in Hj.
  cbn [nth_error] in Hj. inversion Hj as [Erec]. clear Hj.
  rewrite Iturn in Htk.
  unfold record_of.
  cbn [si_turn si_junction si_streetName si_distFromBeginningMeters
       si_distFromBeginningMerc si_traffic].
  split; [|split; [|split; [|split; [|split; [|split]]]]].
  - intros t Hin Hidx.
    pose proof (turn_under_cursor (m_turns r) k tk HiT Htk t Hin Hidx) as ->.
    rewrite (proj2 (N.eqb_eq _ _) Hidx). reflexivity.
  - intros Hnone. rewrite (proj2 (N.eqb_neq _ _)); [reflexivity|].
    apply Hnone. eapply nth_error_In; exact Htk.
  - f_equal.
    + symmetry. apply nth_error_nth. exact Hb.
    + destruct (empty (m_altitudes r)); [exact Hal|].
      symmetry. apply nth_error_nth. exact Hal.
  - reflexivity.
  - replace (k + 1 - 1) with k in Ilast' by lia.
    specialize (Ilast' rec Hj'). rewrite <- Erec in Ilast'.
    cbn [si_distFromBeginningMeters] in Ilast'. rewrite Ilast', Idist'. reflexivity.
  - rewrite <- Hm'. exact HmercStep.
  - replace (k + 1 - 1) with k by lia.
    destruct (empty (m_traffic r)); [exact Htr|].
    symmetry. apply nth_error_nth. exact Htr.
Qed.

(** A route that meets [ExportPre] is exported: the loop ends with the
    invariant of the records. *)
Lemma export_records (r : Route) :
  ExportPre r ->
  exists st,
    GetSubrouteInfo r 0 = Ok (info st) /\
    RecordsInv r (GetSize (m_poly r) - 1) st.
Proof.
  intros Hpre.
  pose proof Hpre as (HneT & HiT & _ & Hlen & HiM & Hfirst & HlM & _).
  cbv zeta in HlM.
  destruct (export_loop_invariant r (RecordsInv r) (GetSize (m_poly r) - 1) (export_start r))
    as (st & Hloop & Hinv).
  { unfold RecordsInv, ExportInv, export_start.
    cbn [turnItemIdx timeIdx distFromBeginningMeters distFromBeginningMerc info].
    destruct (m_turns r) as [|t0 ts] eqn:Eturns; [congruence|].
    destruct (m_times r) as [|h [|x tlt]] eqn:Etimes; [cbn in Hlen; lia | cbn in Hlen; lia|].
    cbn [hd tl find_pos N.of_nat firstn Qsum fold_right] in *.
    split; [|split; [reflexivity | intros [|j] rec Hj; discriminate]].
    split.
    { destruct (N.eqb_spec (m_index t0) 0) as [E0|E0].
      - rewrite (proj2 (N.ltb_ge 0 (m_index t0))) by lia.
        rewrite (find_pos_above_all TurnItem m_index); [reflexivity|].
        apply StronglySorted_inv in HiT. destruct HiT as [_ Ht].
        rewrite Forall_forall in Ht |- *. intros y Hy. specialize (Ht y Hy). lia.
      - rewrite (proj2 (N.ltb_lt 0 (m_index t0))) by lia. reflexivity. }
    split.
    { rewrite (proj2 (N.eqb_neq _ _) Hfirst). cbn [negb].
      apply StronglySorted_inv in HiM. destruct HiM as [_ Hh].
      apply Forall_inv in Hh. rewrite (proj2 (N.ltb_lt 0 (fst x))) by lia. reflexivity. }
    split; [reflexivity|]. split; [reflexivity|].
    split; intros; [destruct j|]; discriminate. }
  { intros k s Hk Hinv. apply RecordsInv_step; [exact Hpre | lia | exact Hinv]. }
  exists st. split; [|exact Hinv].
  rewrite (GetSubrouteInfo_checks_pass r (ExportPre_checks r Hpre)), Hloop. reflexivity.
Qed.

(** X12.  Every record of the export: the turn of its end vertex or the
    default turn, the vertex with its altitude, no street name, the
    arc lengths from the first vertex, the traffic of the edge. *)
Theorem GetSubrouteInfo_record_fields (r : Route) :
  ExportPre r ->
  exists records,
    GetSubrouteInfo r 0 = Ok records /\
    forall k, 1 <= k < GetSize (m_poly r) ->
      exists rec, nth_error records (k - 1) = Some rec /\ record_of r k rec.
Proof.
  intros Hpre.
  destruct (export_records r Hpre)
    as (st & Hres & (_ & _ & _ & Ilen & _) & _ & Hrec).
  exists (info st). split; [exact Hres|].
  intros k Hk.
  destruct (nth_error (info st) (k - 1)) as [rec|] eqn:E;
    [|apply nth_error_None in E; lia].
  exists rec. split; [reflexivity|].
  replace k with (k - 1 + 1) at 1 by lia. apply Hrec. exact E.
Qed.

(** X23.  The time field of the exported records: a route that meets
    [ExportPre] yields one record for each edge, and the record of the
    edge that ends on vertex [k] carries the cumulative time of the
    checkpoint with the greatest index [<= k] or, when [k] lies before
    every checkpoint, of the first checkpoint. *)
Theorem GetSubrouteInfo_record_times (r : Route) :
  ExportPre r ->
  exists records,
    GetSubrouteInfo r 0 = Ok records /\
    length records = GetSize (m_poly r) - 1 /\
    forall k, 1 <= k < GetSize (m_poly r) ->
      exists rec c, nth_error records (k - 1) = Some rec /\
                    carried_checkpoint (m_times r) (N.of_nat k) c /\
                    si_timeFromBeginningS rec = snd c.
Proof.
  intros Hpre.
  destruct (export_records r Hpre)
    as (st & Hres & (_ & _ & _ & Ilen & Irec & _) & _).
  exists (info st). split; [exact Hres|]. split; [exact Ilen|].
  intros k Hk.
  destruct (nth_error (info st) (k - 1)) as [rec|] eqn:E;
    [|apply nth_error_None in E; lia].
  destruct (Irec (k - 1) rec E) as (c & Hc & Ht).
  exists rec, c. replace (k - 1 + 1) with k in Hc by lia.
  split; [reflexivity|]. split; [exact Hc | exact Ht].
Qed.

End ExportExtras.

Lemma ExportChecks_legB : ExportChecks (legB []).
Proof.
  unfold ExportChecks. cbv zeta.
  split; [cbn; lia|]. split; [discriminate|]. split; [reflexivity|].
  split; [reflexivity|]. split; [left; reflexivity|]. split; [discriminate|].
  split; [reflexivity|]. split; [reflexivity | left; reflexivity].
Defined.

(** Witness for [GetSubrouteInfo_unreadable_time_table]: the time table
    of [legB] starts on vertex 0. *)
Lemma GetSubrouteInfo_unreadable_time_table_witness :
  ExportChecks (legB []) /\
  GetSubrouteInfo (env := gridEnv true) (legB []) 0 = OutOfBounds.
Proof.
  split; [exact ExportChecks_legB|].
  apply (GetSubrouteInfo_unreadable_time_table (env := gridEnv true) (legB [])
           ExportChecks_legB).
  - cbn; lia.
  - left; reflexivity.
Defined.

(** Witness for [GetSubrouteInfo_record_fields]: on the five-vertex
    route the record of the edge that ends on vertex 2 carries the left
    turn. *)
Lemma GetSubrouteInfo_record_fields_witness :
  ExportPre (fiveRoute (cursorAt 0 0 0)) /\
  exists records rec,
    GetSubrouteInfo (env := gridEnv true) (fiveRoute (cursorAt 0 0 0)) 0 = Ok records /\
    nth_error records 1 = Some rec /\
    si_turn rec = mkTurn 2 TurnLeft.
Proof.
  split; [apply ExportPre_fiveRoute|].
  destruct (GetSubrouteInfo_record_fields (env := gridEnv true) (fiveRoute (cursorAt 0 0 0))
              (ExportPre_fiveRoute _)) as (records & Hr & Hf).
  destruct (Hf 2) as (rec & Hn & Ht & _); [cbn; lia|].
  exists records, rec. split; [exact Hr|]. split; [exact Hn|].
  apply Ht; [left; reflexivity | reflexivity].
Defined.

(** Witness for [GetSubrouteInfo_check_failure]: there is no subroute of
    index 1. *)
Lemma GetSubrouteInfo_check_failure_witness :
  GetSubrouteInfo (env := gridEnv true) (legB []) 1 = CheckFailed.
Proof.
  apply (proj2 (GetSubrouteInfo_check_failure (env := gridEnv true) (legB []) 1)).
  intros [H _]. discriminate.
Defined.

(** Witness for [GetSubrouteInfo_record_times]: on the five-vertex route
    vertex 1 lies before the first checkpoint, and the record of the edge
    that ends on it carries the 10 s of the checkpoint on vertex 2. *)
Lemma GetSubrouteInfo_record_times_witness :
  ExportPre (fiveRoute (cursorAt 0 0 0)) /\
  exists records rec,
    GetSubrouteInfo (env := gridEnv true) (fiveRoute (cursorAt 0 0 0)) 0 = Ok records /\
    length records = 4 /\
    nth_error records 0 = Some rec /\
    si_timeFromBeginningS rec = 10%N.
Proof.
  split; [apply ExportPre_fiveRoute|].
  destruct (GetSubrouteInfo_record_times (env := gridEnv true) (fiveRoute (cursorAt 0 0 0))
              (ExportPre_fiveRoute _)) as (records & Hr & Hl & Hf).
  destruct (Hf 1) as (rec & c & Hn & (Hin & Hc) & Ht); [cbn; lia|].
  exists records, rec. split; [exact Hr|]. split; [exact Hl|]. split; [exact Hn|].
  rewrite Ht. destruct Hc as [[Hle _]|[Hhd _]].
  - destruct Hin as [<-|[<-|[]]]; cbn in Hle; lia.
  - cbn in Hhd. inversion Hhd. reflexivity.
Defined.

(* ------------------------------------------------------------------ *)
(** ** Segment export: when it succeeds *)

Lemma StronglySorted_weaken {A} (R S : A -> A -> Prop) (l : list A) :
  (forall a b, R a b -> S a b) -> StronglySorted R l -> StronglySorted S l.
Proof.
  intros H. induction 1 as [|x l Hs IH Hx]; constructor; [exact IH|].
  rewrite Forall_forall in Hx |- *. intros y Hy. apply H, Hx, Hy.
Qed.

Section ExportDomain.
Context {env : Env}.

(** The cursors of the two tables after a successful iteration. *)
Lemma export_step_Ok_cursors (r : Route) (st st' : ExportState) (i : nat) :
  export_step r st i = Ok st' ->
  exists tk (tm : TTimeItem),
    nth_error (m_turns r) (turnItemIdx st) = Some tk /\
    nth_error (m_times r) (timeIdx st) = Some tm /\
    turnItemIdx st' = (if (m_index tk =? N.of_nat i)%N
                       then turnItemIdx st + 1 else turnItemIdx st) /\
    timeIdx st' = (if (fst tm =? N.of_nat i)%N then timeIdx st + 1 else timeIdx st).
Proof.
  unfold export_step, at_. intros H.
  destruct (nth_error (m_turns r) (turnItemIdx st)) as [tk|]; [|discriminate].
  cbn [bind] in H. exists tk.
  destruct (m_index tk =? N.of_nat i)%N;
    (apply bind_Ok_inv in H; destruct H as (_ & _ & H);
     destruct (nth_error (m_times r) (timeIdx st)) as [tm|]; [|discriminate];
     cbn [bind] in H; exists tm;
     repeat (apply bind_Ok_inv in H; destruct H as (? & _ & H));
     inversion H; subst st'; repeat split).
Qed.

(** While the loop goes on, the two cursors stand on the first turn and
    on the first checkpoint after the vertex reached, and the last
    iteration has read them inside the tables. *)
Lemma export_loop_Ok_cursors (r : Route) (h : TTimeItem) (tl_ : list TTimeItem) :
  turns_increasing (m_turns r) ->
  m_times r = h :: tl_ -> times_increasing (h :: tl_) -> fst h <> 0%N ->
  forall k st,
    export_loop r (export_start r) (seq 1 k) = Ok st ->
    turnItemIdx st = find_pos (fun t => (N.of_nat k <? m_index t)%N) (m_turns r) /\
    timeIdx st = 1 + find_pos (fun t : TTimeItem => (N.of_nat k <? fst t)%N) tl_ /\
    (1 <= k ->
     find_pos (fun t => (N.of_nat (k - 1) <? m_index t)%N) (m_turns r)
     < length (m_turns r) /\
     find_pos (fun t : TTimeItem => (N.of_nat (k - 1) <? fst t)%N) tl_ < length tl_).
Proof.
  intros HiT Em HiM Hfirst.
  assert (HiTl : times_increasing tl_) by (apply StronglySorted_inv in HiM; tauto).
  induction k as [|k IH]; intros st Hloop.
  - cbn [seq export_loop] in Hloop. inversion Hloop; subst st. clear Hloop.
    unfold export_start. cbn [turnItemIdx timeIdx]. rewrite Em. cbn [hd N.of_nat].
    split; [|split; [|lia]].
    + destruct (m_turns r) as [|t0 ts]; [reflexivity|]. cbn [hd find_pos].
      destruct (N.eqb_spec (m_index t0) 0) as [E0|E0].
      * rewrite (proj2 (N.ltb_ge 0 (m_index t0))) by lia.
        rewrite (find_pos_above_all TurnItem m_index); [reflexivity|].
        apply StronglySorted_inv in HiT. destruct HiT as [_ Ht].
        rewrite Forall_forall in Ht |- *. intros y Hy. specialize (Ht y Hy). lia.
      * rewrite (proj2 (N.ltb_lt 0 (m_index t0))) by lia. reflexivity.
    + rewrite (proj2 (N.eqb_neq _ _) Hfirst). cbn [negb].
      rewrite (find_pos_above_all TTimeItem fst); [reflexivity|].
      apply StronglySorted_inv in HiM. destruct HiM as [_ Hh].
      rewrite Forall_forall in Hh |- *. intros y Hy. specialize (Hh y Hy). lia.
  - rewrite seq_S, export_loop_app in Hloop.
    apply bind_Ok_inv in Hloop. destruct Hloop as (stk & Hk & Hstep).
    cbn [export_loop] in Hstep. apply bind_Ok_inv in Hstep.
    destruct Hstep as (st' & Hstep & E). inversion E; subst st'. clear E.
    destruct (IH stk Hk) as (Iturn & Itime & _).
    destruct (export_step_Ok_cursors r stk st (1 + k) Hstep)
      as (tk & tm & Htk & Htm & Et & Etm).
    assert (HK : N.of_nat (S k) = (N.of_nat k + 1)%N) by lia.
    change (1 + k) with (S k) in Et, Etm. rewrite HK in Et, Etm |- *.
    rewrite Iturn in Htk. rewrite Em, Itime in Htm. cbn [Nat.add nth_error] in Htm.
    split; [|split].
    + rewrite Et, Iturn.
      rewrite (find_pos_above_step TurnItem m_index (N.of_nat k) (m_turns r) tk HiT Htk).
      reflexivity.
    + rewrite Etm, Itime.
      rewrite (find_pos_above_step TTimeItem fst (N.of_nat k) tl_ tm HiTl Htm).
      destruct (fst tm =? N.of_nat k + 1)%N; lia.
    + intros _. replace (S k - 1) with k by lia. split.
      * apply nth_error_Some. rewrite Htk. discriminate.
      * apply nth_error_Some. rewrite Htm. discriminate.
Qed.

(** X13.  With two vertices or more and tables whose indices are strictly
    increasing, [GetSubrouteInfo] returns records exactly when the route
    meets [ExportPre]: both tables end on the last vertex, the time table
    has two checkpoints or more and does not start on vertex 0, and the
    optional arrays have the right size. *)
Theorem GetSubrouteInfo_succeeds_iff (r : Route) :
  turns_increasing (m_turns r) -> times_increasing (m_times r) ->
  2 <= GetSize (m_poly r) ->
  ((exists records, GetSubrouteInfo r 0 = Ok records) <-> ExportPre r).
Proof.
  intros HiT HiM Hn. split.
  2:{ intros Hpre. destruct (export_records r Hpre) as (st & Hres & _).
      exists (info st). exact Hres. }
  intros (records & Hok).
  assert (Hc : ExportChecks r).
  { apply (GetSubrouteInfo_checks r 0). rewrite Hok. discriminate. }
  rewrite (GetSubrouteInfo_checks_pass r Hc) in Hok.
  apply bind_Ok_inv in Hok. destruct Hok as (st & Hloop & _).
  pose proof Hc as (_ & HneT & HlT & _ & Halt & HneM & HlM & _ & Htraf).
  (* the time table is readable *)
  assert (Hread : fst (hd (0%N, 0%N) (m_times r)) <> 0%N /\ length (m_times r) <> 1).
  { destruct (N.eq_dec (fst (hd (0%N, 0%N) (m_times r))) 0) as [E|E];
      [|destruct (Nat.eq_dec (length (m_times r)) 1) as [E'|E']; [|tauto]];
      exfalso;
      (pose proof (export_first_step_unreadable r Hc Hn ltac:(tauto)) as Hstep;
       destruct (GetSize (m_poly r) - 1) as [|m] eqn:En; [lia|];
       cbn [seq export_loop] in Hloop; rewrite Hstep in Hloop; discriminate). }
  destruct Hread as [Hfirst Hlen].
  destruct (m_times r) as [|h tl_] eqn:Em; [congruence|]. cbn [hd] in Hfirst.
  destruct tl_ as [|x tlt]; [cbn in Hlen; congruence|].
  destruct (export_loop_Ok_cursors r h (x :: tlt) HiT Em HiM Hfirst
              (GetSize (m_poly r) - 1) st Hloop) as (_ & _ & Hlast).
  destruct (Hlast ltac:(lia)) as [HpT HpM].
  (* both tables end on the last vertex *)
  assert (HendT : m_index (last (m_turns r) TurnItem_default)
                  = N.of_nat (GetSize (m_poly r) - 1)).
  { destruct (nth_error (m_turns r)
                (find_pos (fun t => (N.of_nat (GetSize (m_poly r) - 1 - 1) <? m_index t)%N)
                          (m_turns r))) as [t|] eqn:Et;
      [|apply nth_error_None in Et; lia].
    pose proof (find_pos_at _ _ _ Et) as Hgt. apply N.ltb_lt in Hgt.
    pose proof (sorted_le_last m_index (m_turns r) TurnItem_default t
                  (increasing_sorted _ HiT) (nth_error_In _ _ Et)) as Hle.
    lia. }
  assert (HendM : fst (last (h :: x :: tlt) (0%N, 0%N))
                  = N.of_nat (GetSize (m_poly r) - 1)).
  { destruct (nth_error (x :: tlt)
                (find_pos (fun t : TTimeItem =>
                             (N.of_nat (GetSize (m_poly r) - 1 - 1) <? fst t)%N)
                          (x :: tlt))) as [t|] eqn:Et;
      [|apply nth_error_None in Et; lia].
    pose proof (find_pos_at _ _ _ Et) as Hgt. apply N.ltb_lt in Hgt.
    assert (Hs : StronglySorted (fun a b : TTimeItem => (fst a <= fst b)%N) (h :: x :: tlt)).
    { apply (StronglySorted_weaken (fun a b : TTimeItem => (fst a < fst b)%N));
        [intros a b; lia | exact HiM]. }
    pose proof (@sorted_le_last TTimeItem fst (h :: x :: tlt) (0%N, 0%N) t Hs
                  (or_intror (nth_error_In _ _ Et))) as Hle.
    lia. }
  unfold ExportPre. cbv zeta. rewrite Em.
  split; [exact HneT|]. split; [exact HiT|]. split; [exact HendT|].
  split; [cbn; lia|]. split; [exact HiM|]. split; [exact Hfirst|].
  split; [exact HendM|]. split; [exact Halt | exact Htraf].
Qed.

End ExportDomain.

(** Witness for [GetSubrouteInfo_succeeds_iff]: [legB], whose time
    table starts on vertex 0, yields no records. *)
Lemma GetSubrouteInfo_succeeds_iff_witness :
  turns_increasing (m_turns (legB [])) /\ times_increasing (m_times (legB [])) /\
  ~ ExportPre (legB []) /\
  ~ exists records, GetSubrouteInfo (env := gridEnv true) (legB []) 0 = Ok records.
Proof.
  assert (H1 : turns_increasing (m_turns (legB []))) by (repeat constructor; reflexivity).
  assert (H2 : times_increasing (m_times (legB []))) by (repeat constructor; reflexivity).
  assert (H3 : ~ ExportPre (legB [])).
  { intros (_ & _ & _ & _ & _ & Hf & _). apply Hf. reflexivity. }
  split; [exact H1|]. split; [exact H2|]. split; [exact H3|].
  intros Hok. apply H3.
  apply (GetSubrouteInfo_succeeds_iff (env := gridEnv true) (legB []) H1 H2); [cbn; lia|].
  exact Hok.
Defined.

(* ------------------------------------------------------------------ *)
(** ** Merge, then export *)

Section RebasedKeys.
Variables (A : Type) (key : A -> N) (f : A -> A) (off : N).


(** Entries re-based by [off] that follow entries with keys below [off]
    keep the keys strictly increasing. *)
Lemma rebased_increasing (lA lB : list A) (xA : A) :
  StronglySorted (fun a b => (key a < key b)%N) (lA ++ [xA]) ->
  key xA = off ->
  StronglySorted (fun a b => (key a < key b)%N) lB ->
  (forall b, In b lB -> key (f b) = (key b + off)%N) ->
  StronglySorted (fun a b => (key a < key b)%N)
                 (lA ++ map f (filter (fun x => negb (key x =? 0)%N) lB)).
Proof.
  intros HA HxA HB Hf.
  destruct (StronglySorted_app_inv _ _ _ HA) as (HlA & _ & Hlt).
  apply StronglySorted_app; [exact HlA| |].
  - apply (StronglySorted_map (fun a b => (key a < key b)%N)).
    + intros x y Hx Hy Hxy. apply filter_In in Hx, Hy.
      rewrite (Hf x), (Hf y) by tauto. lia.
    + apply StronglySorted_filter. exact HB.
  - intros x y Hx Hy. apply in_map_iff in Hy.
    destruct Hy as (b & <- & Hb). apply filter_In in Hb. destruct Hb as [Hb Hnz].
    rewrite (Hf b Hb). specialize (Hlt x xA Hx (or_introl eq_refl)). cbn beta in Hlt.
    apply negb_true_iff, N.eqb_neq in Hnz. lia.
Qed.

Lemma rebased_last (lA l : list A) (xB d : A) :
  key xB <> 0%N ->
  last (lA ++ map f (filter (fun x => negb (key x =? 0)%N) (l ++ [xB]))) d = f xB.
Proof.
  intros Hnz. rewrite filter_app. cbn [filter].
  rewrite (proj2 (N.eqb_neq _ _) Hnz). cbn [negb]. rewrite map_app. cbn [map].
  rewrite app_assoc. apply last_last.
Qed.

Lemma rebased_length (lA l : list A) (xB : A) :
  key xB <> 0%N ->
  length lA + 1
  <= length (lA ++ map f (filter (fun x => negb (key x =? 0)%N) (l ++ [xB]))).
Proof.
  intros Hnz. rewrite filter_app. cbn [filter].
  rewrite (proj2 (N.eqb_neq _ _) Hnz). cbn [negb].
  rewrite map_app, !length_app. cbn [map length]. lia.
Qed.

End RebasedKeys.

Section MergeExport.
Context {env : Env}.

(** X14.  A route that can be exported, merged with a leg whose tables end on
    its last vertex, can be exported: the merge drops the entries of the
    appended leg on vertex 0, so that a leg whose time table starts on
    vertex 0, which is not exported on its own, is exported as the
    second part of a merge. *)
Theorem AppendRoute_then_export (A B : Route) :
  MergePre A B -> ExportPre A -> m_altitudes A = [] -> LegTables B ->
  fits32 (N.of_nat (GetSize (m_poly A) - 1 + GetSize (m_poly B))) ->
  exists R records,
    AppendRoute A B = Ok R /\
    ExportPre R /\
    GetSubrouteInfo R 0 = Ok records /\
    length records = (GetSize (m_poly A) - 1) + (GetSize (m_poly B) - 1).
Proof.
  intros Hpre HA Halt (H2 & HiTB & [HneTB HlTB] & HiMB & HneMB & HlMB) Hfit.
  destruct (AppendRoute_ok A B Hpre) as (R & HR & Hp & Ht & _ & Hm & Htr).
  pose proof (merged_size A B R Hp) as Hsz.
  pose proof (AppendRoute_altitudes A B R HR) as HaltR.
  pose proof HA as (HneTA & HiTA & HlTA & HlenA & HiMA & HfirstA & HlMA & _ & HtrafA).
  cbv zeta in HlTA, HlMA.
  set (off := GetSize (m_poly A) - 1) in *.
  assert (Eoff : off = GetSize (m_poly A) - 1) by reflexivity.
  (* the first route has a path *)
  destruct (m_times A) as [|hA [|xA' tA']] eqn:EmA; [cbn in HlenA; lia | cbn in HlenA; lia|].
  assert (HnA : 2 <= off).
  { cbn [hd] in HfirstA.
    assert (Hlt : (fst hA < fst (last (hA :: xA' :: tA') (0%N, 0%N)))%N).
    { apply StronglySorted_inv in HiMA. destruct HiMA as [_ Hh].
      rewrite Forall_forall in Hh. apply Hh. apply last_in_tail. }
    rewrite HlMA in Hlt. lia. }
  rewrite (proj2 (Nat.eqb_neq (GetSize (m_poly A)) 0)) in Ht, Hm by lia.
  (* the tables of the two routes, split at their last entries *)
  destruct (exists_last HneTA) as (tA & lastTA & ETA).
  destruct (exists_last HneTB) as (tB & lastTB & ETB).
  assert (HneMA : hA :: xA' :: tA' <> []) by discriminate.
  destruct (exists_last HneMA) as (mA & lastMA & EMA).
  destruct (exists_last HneMB) as (mB & lastMB & EMB).
  rewrite ETA, last_last in HlTA. rewrite ETB, last_last in HlTB.
  rewrite EMA, last_last in HlMA. rewrite EMB, last_last in HlMB.
  rewrite ETA, removelast_last in Ht. rewrite EMA, removelast_last in Hm.
  assert (HlenMA : 1 <= length mA).
  { assert (Hl : length (hA :: xA' :: tA') = length (mA ++ [lastMA])) by (rewrite EMA; reflexivity).
    rewrite length_app in Hl. cbn [length] in Hl. lia. }
  assert (HhdMA : hd (0%N, 0%N) mA = hA).
  { destruct mA as [|h' mA']; [cbn in HlenMA; lia|]. cbn [app] in EMA.
    inversion EMA. reflexivity. }
  (* re-basing does not wrap *)
  assert (HboundTB : forall t, In t (m_turns B) ->
                               (m_index t <= N.of_nat (GetSize (m_poly B) - 1))%N).
  { intros t Hin. rewrite ETB in Hin, HiTB. apply in_app_or in Hin.
    destruct Hin as [Hin|[<-|[]]].
    - destruct (StronglySorted_app_inv _ _ _ HiTB) as (_ & _ & Hlt).
      specialize (Hlt t lastTB Hin (or_introl eq_refl)). cbn beta in Hlt.
      rewrite HlTB in Hlt. cbn [m_index] in Hlt. lia.
    - rewrite HlTB. cbn [m_index]. lia. }
  assert (HboundMB : forall t, In t (m_times B) ->
                               (fst t <= N.of_nat (GetSize (m_poly B) - 1))%N).
  { intros t Hin. rewrite EMB in Hin, HiMB. apply in_app_or in Hin.
    destruct Hin as [Hin|[<-|[]]].
    - destruct (StronglySorted_app_inv _ _ _ HiMB) as (_ & _ & Hlt).
      specialize (Hlt t lastMB Hin (or_introl eq_refl)). cbn beta in Hlt. lia.
    - lia. }
  assert (HaddT : forall t, In t (m_turns B) ->
            m_index (mkTurn (add32 (m_index t) (N.of_nat off)) (m_turn t))
            = (m_index t + N.of_nat off)%N).
  { intros t Hin. cbn [m_index]. apply add32_small. specialize (HboundTB t Hin).
    unfold fits32 in *. lia. }
  assert (HaddM : forall t, In t (m_times B) ->
            fst (add32 (fst t) (N.of_nat off),
                 double_to_uint32 (to_double (snd t) + to_double (GetTotalTimeSec A)))
            = (fst t + N.of_nat off)%N).
  { intros t Hin. cbn [fst]. apply add32_small. specialize (HboundMB t Hin).
    unfold fits32 in *. lia. }
  assert (HlastTB : m_index lastTB <> 0%N) by (rewrite HlTB; cbn [m_index]; lia).
  assert (HlastMB : fst lastMB <> 0%N) by lia.
  assert (HpreR : ExportPre R).
  { unfold ExportPre. cbv zeta. rewrite Ht, Hm, HaltR, Hsz. fold off.
    unfold append_turns, append_times. rewrite ETB, EMB.
    split.
    { intros E. pose proof (rebased_length TurnItem m_index
        (fun t => mkTurn (add32 (m_index t) (N.of_nat off)) (m_turn t)) tA tB lastTB HlastTB) as Hl.
      rewrite E in Hl. cbn [length] in Hl. lia. }
    split.
    { rewrite <- ETB.
      apply (rebased_increasing TurnItem m_index _ (N.of_nat off) tA (m_turns B) lastTA);
        [rewrite <- ETA; exact HiTA | exact HlTA | exact HiTB | exact HaddT]. }
    split.
    { rewrite (rebased_last TurnItem m_index _ tA tB lastTB TurnItem_default HlastTB).
      rewrite HaddT by (rewrite ETB; apply in_or_app; right; left; reflexivity).
      rewrite HlTB. cbn [m_index]. lia. }
    split.
    { pose proof (rebased_length TTimeItem fst
        (fun t : TTimeItem => (add32 (fst t) (N.of_nat off),
                   double_to_uint32 (to_double (snd t) + to_double (GetTotalTimeSec A))))
        mA mB lastMB HlastMB) as Hl.
      eapply Nat.le_trans; [|exact Hl]. lia. }
    split.
    { rewrite <- EMB.
      apply (rebased_increasing TTimeItem fst _ (N.of_nat off) mA (m_times B) lastMA);
        [rewrite <- EMA; exact HiMA | exact HlMA | exact HiMB | exact HaddM]. }
    split.
    { destruct mA as [|h' mA']; [cbn in HlenMA; lia|]. cbn [app hd] in *.
      subst h'. exact HfirstA. }
    split.
    { rewrite (rebased_last TTimeItem fst _ mA mB lastMB (0%N, 0%N) HlastMB).
      rewrite HaddM by (rewrite EMB; apply in_or_app; right; left; reflexivity).
      lia. }
    split; [left; exact Halt|].
    unfold traffic_consistent. rewrite Htr, Hsz.
    destruct Hpre as (HvB & HtA & HtB & _).
    apply merged_traffic_consistent; assumption. }
  destruct (export_records R HpreR) as (st & Hres & (_ & _ & _ & Ilen & _) & _).
  exists R, (info st). split; [exact HR|]. split; [exact HpreR|].
  split; [exact Hres|]. rewrite Ilen, Hsz. lia.
Qed.

End MergeExport.

Lemma LegTables_legC : LegTables legC.
Proof.
  split; [cbn; lia|]. split; [repeat constructor; reflexivity|].
  split; [split; [discriminate | reflexivity]|].
  split; [repeat constructor; reflexivity|]. split; [discriminate | reflexivity].
Defined.

(** Witness for [AppendRoute_then_export]: the five-vertex route
    followed by [legC], which is not exported on its own. *)
Lemma AppendRoute_then_export_witness :
  let A := fiveRoute (cursorAt 0 0 0) in
  MergePre (env := gridEnv true) A legC /\ ExportPre A /\ LegTables legC /\
  GetSubrouteInfo (env := gridEnv true) legC 0 = OutOfBounds /\
  exists R records,
    AppendRoute (env := gridEnv true) A legC = Ok R /\
    GetSubrouteInfo (env := gridEnv true) R 0 = Ok records /\
    length records = 6.
Proof.
  intros A.
  split; [apply MergePre_fiveRoute_legC|]. split; [apply ExportPre_fiveRoute|].
  split; [exact LegTables_legC|]. split; [reflexivity|].
  destruct (AppendRoute_then_export (env := gridEnv true) A legC
              (MergePre_fiveRoute_legC _) (ExportPre_fiveRoute _) eq_refl LegTables_legC)
    as (R & records & HR & _ & Hrec & Hlen).
  - reflexivity.
  - exists R, records. split; [exact HR|]. split; [exact Hrec | exact Hlen].
Defined.

(* ------------------------------------------------------------------ *)
(** ** The time estimator: bounds and exact values *)

Section TimeExtras.
Context {env : Env} {laws : EnvLaws env}.

(** X15.  The estimate lies between the time left at the target checkpoint
    and the time left at the checkpoint before it; it never exceeds the
    total time. *)
Theorem GetCurrentTimeToEndSec_bounds (r : Route) :
  TimeTablePre r -> cursor_on_edge (m_poly r) ->
  let pos := first_checkpoint_after (m_times r) (m_ind (GetCurrentIter (m_poly r))) in
  let prev := if pos =? 0 then (0%N, 0%N) else nth (pos - 1) (m_times r) (0%N, 0%N) in
  exists v,
    GetCurrentTimeToEndSec r = Ok v /\
    (v <= GetTotalTimeSec r)%N /\
    forall target, nth_error (m_times r) pos = Some target ->
      (GetTotalTimeSec r - snd target <= v)%N /\
      (v <= GetTotalTimeSec r - snd prev)%N.
Proof.
  intros Hpre Hon pos prev.
  exists (remaining_time r pos). split; [exact (GetCurrentTimeToEndSec_formula r Hpre)|].
  pose proof Hpre as (_ & _ & _ & _ & Hfit & _).
  destruct (nth_error (m_times r) pos) as [target|] eqn:Ht.
  - destruct (target_segment r target Hpre Ht) as (Hp & Hi & Htm & HT).
    fold pos in Hp, Htm. fold prev in Hp, Htm.
    destruct (cursorArc_bounds _ Hon) as [Hlo Hhi].
    assert (Hin : (arcTo (m_poly r) (N.to_nat (fst prev)) <= cursorArc (m_poly r))%Q).
    { pose proof (arcTo_mono (m_poly r) _ _ Hp). unfold GetCurrentIter in *. lra. }
    assert (Hout : (cursorArc (m_poly r) <= arcTo (m_poly r) (N.to_nat (fst target)))%Q).
    { pose proof (arcTo_mono (m_poly r) (m_ind (m_current (m_poly r)) + 1)
                    (N.to_nat (fst target)) ltac:(unfold GetCurrentIter in *; lia)). lra. }
    destruct (remaining_time_at_bounds r pos target Ht ltac:(fold prev; lia) Htm HT Hfit
                (cursorArc (m_poly r)) Hin Hout) as [Hlow Hup].
    fold prev in Hup. unfold remaining_time.
    split; [lia|]. intros t E. inversion E; subst t. split; [exact Hlow | exact Hup].
  - unfold remaining_time, remaining_time_at. rewrite Ht.
    split; [apply N.le_0_l | intros t E; discriminate].
Qed.

(** X16.  With the cursor exactly on the vertex of the checkpoint before the
    target (on the first vertex when the target is the first
    checkpoint), the estimate is the total time minus the time of that
    checkpoint: the whole total time at the start of the route.  When the
    arc length between the two checkpoints is numerically zero, it is the
    total time minus the time of the target. *)
Theorem GetCurrentTimeToEndSec_on_checkpoint (r : Route) (target : TTimeItem) :
  TimeTablePre r ->
  let cur := GetCurrentIter (m_poly r) in
  let pos := first_checkpoint_after (m_times r) (m_ind cur) in
  let prev := if pos =? 0 then (0%N, 0%N) else nth (pos - 1) (m_times r) (0%N, 0%N) in
  nth_error (m_times r) pos = Some target ->
  N.to_nat (fst prev) = m_ind cur ->
  m_pt cur = nth (m_ind cur) (m_points (m_poly r)) origin ->
  GetCurrentTimeToEndSec r
  = Ok (if AlmostEqualULPs (arcTo (m_poly r) (N.to_nat (fst target))
                            - arcTo (m_poly r) (N.to_nat (fst prev)))%Q 0
        then GetTotalTimeSec r - snd target
        else GetTotalTimeSec r - snd prev)%N.
Proof.
  intros Hpre cur pos prev Ht Hprev Hpt.
  rewrite (GetCurrentTimeToEndSec_formula r Hpre). fold cur. fold pos. f_equal.
  pose proof Hpre as (_ & _ & _ & _ & Hfit & _).
  destruct (target_segment r target Hpre Ht) as (Hp & Hi & Htm & HT).
  assert (Hp' : N.to_nat (fst prev) <= N.to_nat (fst target)) by (rewrite Hprev; exact (Nat.lt_le_incl _ _ Hi)).
  assert (Htm' : (snd prev <= snd target)%N) by exact Htm.
  unfold remaining_time, remaining_time_at. rewrite Ht. cbv zeta. fold prev.
  set (segDist := (arcTo (m_poly r) (N.to_nat (fst target))
                   - arcTo (m_poly r) (N.to_nat (fst prev)))%Q).
  destruct (AlmostEqualULPs segDist 0) eqn:Hg; cbn [negb]; [reflexivity|].
  assert (Hd : (0 < segDist)%Q).
  { apply (segment_not_degenerate r pos target); [exact Hp' | exact Hg]. }
  assert (Harc : (cursorArc (m_poly r) == arcTo (m_poly r) (N.to_nat (fst prev)))%Q).
  { unfold cursorArc. fold (GetCurrentIter (m_poly r)). fold cur.
    rewrite Hpt, DistanceOnEarth_refl, Hprev. ring. }
  rewrite <- (double_to_uint32_to_double (GetTotalTimeSec r - snd prev))
    by (unfold fits32 in *; lia).
  apply double_to_uint32_Qeq.
  rewrite (to_double_sub _ (snd target)) by lia.
  rewrite (to_double_sub _ (snd prev)) by lia. rewrite Harc. fold segDist.
  field. lra.
Qed.

End TimeExtras.

(** Witness for [GetCurrentTimeToEndSec_bounds]: 50 m past vertex 2 of
    the five-vertex route, between 0 s and 30 s remain. *)
Lemma GetCurrentTimeToEndSec_bounds_witness :
  let r := fiveRoute (cursorAt 200 50 2) in
  TimeTablePre r /\ cursor_on_edge (env := gridEnv true) (m_poly r) /\
  exists v, GetCurrentTimeToEndSec (env := gridEnv true) r = Ok v /\ (v <= 40)%N.
Proof.
  intros r.
  assert (H1 : TimeTablePre r) by (apply TimeTablePre_fiveRoute; cbn; lia).
  assert (H2 : cursor_on_edge (env := gridEnv true) (m_poly r)) by (vm_compute; discriminate).
  split; [exact H1|]. split; [exact H2|].
  destruct (GetCurrentTimeToEndSec_bounds (laws := gridEnv_laws true) r H1 H2)
    as (v & Hv & Hle & _).
  exists v. split; [exact Hv | exact Hle].
Defined.

(** Witness for [GetCurrentTimeToEndSec_on_checkpoint]: on vertex 2 of
    the five-vertex route, where the checkpoint of 10 s lies, 30 s of
    the 40 s remain. *)
Lemma GetCurrentTimeToEndSec_on_checkpoint_witness :
  let r := fiveRoute (cursorAt 200 0 2) in
  TimeTablePre r /\
  GetCurrentTimeToEndSec (env := gridEnv true) r = Ok 30%N.
Proof.
  intros r.
  assert (H1 : TimeTablePre r) by (apply TimeTablePre_fiveRoute; cbn; lia).
  split; [exact H1|].
  apply (GetCurrentTimeToEndSec_on_checkpoint (laws := gridEnv_laws true) r (4, 40)%N H1);
    reflexivity.
Defined.

(* ------------------------------------------------------------------ *)
(** ** The turns ahead *)

Lemma firstn_skipn_two {A} (l : list A) :
  forall p,
    firstn 2 (skipn p l)
    = match nth_error l p with
      | None => []
      | Some a => a :: match nth_error l (p + 1) with Some b => [b] | None => [] end
      end.
Proof.
  induction l as [|x l IH]; intros [|p]; cbn [skipn firstn nth_error Nat.add];
    try reflexivity.
  - destruct l; reflexivity.
  - apply IH.
Qed.

Section TurnsExtras.
Context {env : Env} {laws : EnvLaws env}.

Lemma GetCurrentTurn_position (r : Route) :
  TurnsPre r ->
  GetCurrentTurn r
  = Ok (first_turn_after (m_turns r) (m_ind (GetCurrentIter (m_poly r)))).
Proof.
  intros (Hne & Hs & Hfit & _). unfold GetCurrentTurn, first_turn_after.
  rewrite (empty_false _ Hne). cbn [negb]. rewrite ASSERT_true. cbn [bind]. f_equal.
  rewrite (upper_bound_find_pos TurnItem TurnItem
             (fun lhs rhs => (m_index lhs <? m_index rhs)%N)).
  - cbn [m_index]. rewrite (static_cast_uint32_fits _ Hfit). reflexivity.
  - cbn [m_index]. rewrite (static_cast_uint32_fits _ Hfit).
    apply (sorted_partitioned m_index). exact Hs.
Qed.

(** Distance from the cursor to a vertex of the path. *)
Lemma distance_to_vertex (p : FollowedPolyline) (k : nat) :
  m_ind (GetCurrentIter p) < GetSize p -> k < GetSize p ->
  exists d,
    (target <- GetIterToIndex p k ;; GetDistanceM p (GetCurrentIter p) target) = Ok d /\
    (d == arcTo p k - cursorArc p)%Q.
Proof.
  intros Hc Hk. unfold GetIterToIndex, GetDistanceM, arcOf, GetPoint, at_, cursorArc, GetCurrentIter in *.
  destruct (nth_error (m_points p) k) as [pt|] eqn:Hpt;
    [|apply nth_error_None in Hpt; unfold GetSize in Hk; lia].
  cbn [bind m_ind m_pt].
  destruct (nth_error (m_points p) (m_ind (m_current p))) as [pc|] eqn:Hpc;
    [|apply nth_error_None in Hpc; unfold GetSize in Hc; lia].
  cbn [bind]. rewrite Hpt. cbn [bind]. eexists. split; [reflexivity|].
  rewrite (nth_error_nth _ _ origin Hpc), DistanceOnEarth_refl. ring.
Qed.

(** The turn after the current one, with the distance to it. *)
Lemma GetNextTurn_value (r : Route) :
  TurnsPre r ->
  let p := first_turn_after (m_turns r) (m_ind (GetCurrentIter (m_poly r))) in
  p < length (m_turns r) ->
  match nth_error (m_turns r) (p + 1) with
  | Some t =>
      exists d, GetNextTurn r = Ok (true, d, t) /\
                (d == arcTo (m_poly r) (N.to_nat (m_index t)) - cursorArc (m_poly r))%Q
  | None => GetNextTurn r = Ok (false, 0%Q, TurnItem_default)
  end.
Proof.
  intros Hpre p Hp. pose proof Hpre as (Hne & Hs & Hfit & Hcur & Hrange).
  unfold GetNextTurn. rewrite (GetCurrentTurn_position r Hpre). fold p. cbn [bind].
  rewrite (proj2 (Nat.eqb_neq p _)) by lia. cbn [negb orb]. rewrite ASSERT_true. cbn [bind].
  destruct (nth_error (m_turns r) (p + 1)) as [t|] eqn:Et.
  - assert (p + 1 < length (m_turns r)) by (apply nth_error_Some; congruence).
    rewrite (proj2 (Nat.eqb_neq (p + 1) _)) by lia.
    unfold at_ at 1. rewrite Et. cbn [bind].
    destruct (distance_to_vertex (m_poly r) (N.to_nat (m_index t)) Hcur) as (d & Hd & Hq).
    { apply Hrange. eapply nth_error_In; exact Et. }
    exists d. split; [|exact Hq].
    unfold bind in Hd |- *.
    destruct (GetIterToIndex (m_poly r) (N.to_nat (m_index t))); try discriminate.
    rewrite Hd. reflexivity.
  - apply nth_error_None in Et. rewrite (proj2 (Nat.eqb_eq (p + 1) _)) by lia. reflexivity.
Qed.

(** X17.  [GetNextTurns] hands back the next two turns of the table after the
    cursor's vertex, or the one that is left, each with the arc length
    from the cursor to its vertex; with the cursor on its edge these
    distances are not negative and do not decrease.  With no turn left it
    fails the assertion in a debug build and otherwise reports failure
    and leaves the vector as it was. *)
Theorem GetNextTurns_ahead (r : Route) (old : list TurnItemDist) :
  TurnsPre r ->
  let i := m_ind (GetCurrentIter (m_poly r)) in
  let p := first_turn_after (m_turns r) i in
  (p = length (m_turns r) ->
   GetNextTurns r old = if debug then AssertFailed else Ok (false, old)) /\
  (p < length (m_turns r) ->
   exists res,
     GetNextTurns r old = Ok (true, res) /\
     map m_turnItem res = firstn 2 (skipn p (m_turns r)) /\
     Forall (fun e =>
               (N.of_nat i < m_index (m_turnItem e))%N /\
               (m_distMeters e
                == arcTo (m_poly r) (N.to_nat (m_index (m_turnItem e)))
                   - cursorArc (m_poly r))%Q) res /\
     (cursor_on_edge (m_poly r) ->
      Forall (fun e => (0 <= m_distMeters e)%Q) res /\
      StronglySorted (fun a b => (m_distMeters a <= m_distMeters b)%Q) res)).
Proof.
  intros Hpre i p. pose proof Hpre as (Hne & Hs & Hfit & Hcur & Hrange).
  pose proof (GetCurrentTurn_position r Hpre) as Hpos. fold i in Hpos. fold p in Hpos.
  split.
  - intros Hp. unfold GetNextTurns, GetCurrentTurn2. rewrite Hpos. cbn [bind].
    rewrite (proj2 (Nat.eqb_eq _ _) Hp), ASSERT_false. now destruct debug.
  - intros Hp.
    destruct (nth_error (m_turns r) p) as [t1|] eqn:E1;
      [|apply nth_error_None in E1; lia].
    assert (Hi1 : (N.of_nat i < m_index t1)%N).
    { apply N.ltb_lt.
      apply (find_pos_at (fun t => (N.of_nat i <? m_index t)%N) (m_turns r)). exact E1. }
    destruct (distance_to_vertex (m_poly r) (N.to_nat (m_index t1)) Hcur) as (d1 & Hd1 & Hq1).
    { apply Hrange. eapply nth_error_In; exact E1. }
    assert (Hcur2 : GetCurrentTurn2 r = Ok (Some (d1, t1))).
    { unfold GetCurrentTurn2. rewrite Hpos. cbn [bind].
      rewrite (proj2 (Nat.eqb_neq _ _)) by lia.
      unfold at_ at 1. rewrite E1. cbn [bind].
      unfold bind in Hd1 |- *.
      destruct (GetIterToIndex (m_poly r) (N.to_nat (m_index t1))); try discriminate.
      rewrite Hd1. reflexivity. }
    assert (Hge0 : cursor_on_edge (m_poly r) -> forall t,
               (N.of_nat i < m_index t)%N ->
               (0 <= arcTo (m_poly r) (N.to_nat (m_index t)) - cursorArc (m_poly r))%Q).
    { intros Hon t Ht. destruct (cursorArc_bounds _ Hon) as [_ Hhi].
      pose proof (arcTo_mono (m_poly r) (m_ind (m_current (m_poly r)) + 1)
                    (N.to_nat (m_index t)) ltac:(unfold i, GetCurrentIter in Ht; lia)).
      lra. }
    pose proof (GetNextTurn_value r Hpre Hp) as Hnext. cbv zeta in Hnext.
    fold i in Hnext. fold p in Hnext.
    unfold GetNextTurns. rewrite Hcur2. cbn [bind].
    rewrite firstn_skipn_two, E1.
    destruct (nth_error (m_turns r) (p + 1)) as [t2|] eqn:E2.
    + destruct Hnext as (d2 & Hn & Hq2). rewrite Hn. cbn [bind app].
      assert (H12 : (m_index t1 <= m_index t2)%N).
      { apply (sorted_nth_le m_index (m_turns r) Hs p (p + 1) t1 t2 E1 E2). lia. }
      eexists. split; [reflexivity|]. split; [reflexivity|]. split.
      * repeat constructor; cbn [m_turnItem m_distMeters]; try assumption. lia.
      * intros Hon. split.
        -- repeat constructor; cbn [m_distMeters].
           ++ rewrite Hq1. apply Hge0; assumption.
           ++ rewrite Hq2. apply Hge0; [assumption | lia].
        -- repeat constructor. cbn [m_distMeters]. rewrite Hq1, Hq2.
           pose proof (arcTo_mono (m_poly r) (N.to_nat (m_index t1))
                         (N.to_nat (m_index t2)) ltac:(lia)). lra.
    + rewrite Hnext. cbn [bind].
      eexists. split; [reflexivity|]. split; [reflexivity|]. split.
      * repeat constructor; cbn [m_turnItem m_distMeters]; assumption.
      * intros Hon. split; repeat constructor. cbn [m_distMeters].
        rewrite Hq1. apply Hge0; assumption.
Qed.

End TurnsExtras.

Lemma TurnsPre_fiveRoute (cur : Iter) : m_ind cur < 5 -> TurnsPre (fiveRoute cur).
Proof.
  intros H. unfold TurnsPre. cbn [fiveRoute sampleRoute m_turns m_poly GetCurrentIter m_current].
  split; [discriminate|]. split; [repeat constructor; cbn; lia|].
  split; [unfold fits32, two32; lia|]. split; [cbn; lia|].
  intros t [<-|[<-|[]]]; cbn; lia.
Defined.

(** Witness for [GetNextTurns_ahead]: from vertex 1 of the five-vertex
    route the left turn on vertex 2 and the destination on vertex 4 lie
    ahead. *)
Lemma GetNextTurns_ahead_witness :
  let r := fiveRoute (cursorAt 100 0 1) in
  TurnsPre r /\
  exists res,
    GetNextTurns (env := gridEnv true) r [] = Ok (true, res) /\
    map m_turnItem res = [mkTurn 2 TurnLeft; mkTurn 4 ReachedYourDestination].
Proof.
  intros r.
  assert (H : TurnsPre r) by (apply TurnsPre_fiveRoute; cbn; lia).
  split; [exact H|].
  destruct (GetNextTurns_ahead (laws := gridEnv_laws true) r [] H) as [_ Hs].
  destruct Hs as (res & Hr & Hm & _); [cbn; lia|].
  exists res. split; [exact Hr | exact Hm].
Defined.

(* ------------------------------------------------------------------ *)
(** ** Distances to the turns *)

Section DistancesExtras.
Variable CalculateMercatorDistanceAlongPath : N -> N -> list PointD -> Q.

(** The distance along the path is additive. *)
Hypothesis along_path_additive :
  forall (a b c : N) (points : list PointD),
    (a <= b)%N -> (b <= c)%N ->
    (CalculateMercatorDistanceAlongPath a c points
     == CalculateMercatorDistanceAlongPath a b points
        + CalculateMercatorDistanceAlongPath b c points)%Q.

Let loop := turns_distances_loop CalculateMercatorDistanceAlongPath.

Lemma along_path_zero (a : N) (points : list PointD) :
  (CalculateMercatorDistanceAlongPath a a points == 0)%Q.
Proof.
  pose proof (along_path_additive a a a points (N.le_refl a) (N.le_refl a)). lra.
Qed.

Lemma turns_distances_all_skipped (polySz : nat) (points : list PointD)
      (turns : list TurnItem) :
  Forall (fun t => side_turn polySz t = true) turns ->
  forall former md,
    loop polySz points former md turns = [] /\
    filter (fun t => negb (side_turn polySz t)) turns = [].
Proof.
  induction 1 as [|t rest Ht _ IH]; intros former md; [split; reflexivity|].
  unfold loop. cbn [turns_distances_loop filter]. rewrite Ht. cbn [negb].
  apply IH.
Qed.

Lemma turns_distances_from (polySz : nat) (points : list PointD) (turns : list TurnItem) :
  turns_sorted turns ->
  forall former md,
    Forall (fun t => (former <= m_index t)%N /\ N.to_nat (m_index t) <= polySz - 1) turns ->
    (md == CalculateMercatorDistanceAlongPath 0 former points)%Q ->
    Forall2 Qeq (loop polySz points former md turns)
            (map (fun t => CalculateMercatorDistanceAlongPath 0 (m_index t) points)
                 (filter (fun t => negb (side_turn polySz t)) turns)).
Proof.
  induction 1 as [|t rest Hs IH Ht]; intros former md Hall Hmd; [constructor|].
  apply Forall_cons_iff in Hall. destruct Hall as [[Hf Hr] Hall].
  unfold loop. cbn [turns_distances_loop filter].
  destruct (side_turn polySz t) eqn:Eside; cbn [negb].
  - unfold side_turn in Eside. apply orb_true_iff in Eside.
    destruct Eside as [E0|El].
    + apply N.eqb_eq in E0. apply IH.
      * rewrite Forall_forall in Ht, Hall |- *. intros y Hy.
        specialize (Ht y Hy). destruct (Hall y Hy). split; [exact Ht | assumption].
      * assert (former = 0%N) by lia. subst former. rewrite E0. exact Hmd.
    + apply Nat.eqb_eq in El.
      destruct (turns_distances_all_skipped polySz points rest) with (former := m_index t) (md := md)
        as [H1 H2].
      * rewrite Forall_forall in Ht, Hall |- *. intros y Hy.
        specialize (Ht y Hy). destruct (Hall y Hy) as [_ Hy2].
        unfold side_turn. apply orb_true_iff. right. apply Nat.eqb_eq. lia.
      * fold loop. rewrite H1, H2. constructor.
  - cbn [map]. constructor.
    + rewrite Hmd. symmetry. apply along_path_additive; [apply N.le_0_l | exact Hf].
    + apply IH.
      * rewrite Forall_forall in Ht, Hall |- *. intros y Hy.
        specialize (Ht y Hy). destruct (Hall y Hy). split; [exact Ht | assumption].
      * rewrite Hmd. symmetry. apply along_path_additive; [apply N.le_0_l | exact Hf].
Qed.


End DistancesExtras.

Lemma planarAlongPath_additive {env : Env} (a b c : N) (points : list PointD) :
  (a <= b)%N -> (b <= c)%N ->
  (planarAlongPath a c points
   == planarAlongPath a b points + planarAlongPath b c points)%Q.
Proof. intros _ _. unfold planarAlongPath. ring. Qed.


(* ------------------------------------------------------------------ *)
(** ** Location matching: the segment bearing and the snap *)

Section MatchingExtras.
Context {env : Env}.

(** The [do ... while] loop of [GetPolySegAngle] finds the first vertex
    that is not almost equal to [p1]. *)
Lemma seg_angle_loop_find (p1 : PointD) (rest : list PointD) :
  rest <> [] ->
  seg_angle_loop p1 rest
  = Ok (match find (fun p2 => negb (PointAlmostEqualULPs p1 p2)) rest with
        | Some p2 => AngleToDeg p1 p2
        | None => 0%Q
        end).
Proof.
  induction rest as [|p2 rest IH]; intros Hne; [congruence|].
  cbn [seg_angle_loop find].
  destruct (PointAlmostEqualULPs p1 p2); cbn [negb]; [|reflexivity].
  destruct rest as [|p3 rest]; [reflexivity|]. apply IH. discriminate.
Qed.

(** X19.  The bearing of the segment that starts on vertex [ind] is the angle
    from that vertex to the first later vertex that is not almost equal to
    it, and 0 when every later vertex is almost equal to it; no vertex is
    read outside the path.  On the last vertex, or past it, the
    assertion fails in a debug build and the result is 0 otherwise. *)
Theorem GetPolySegAngle_first_distinct (r : Route) (ind : nat) :
  (ind + 1 < GetSize (m_poly r) ->
   GetPolySegAngle r ind
   = Ok (let p1 := nth ind (m_points (m_poly r)) origin in
         match find (fun p2 => negb (PointAlmostEqualULPs p1 p2))
                    (skipn (ind + 1) (m_points (m_poly r))) with
         | Some p2 => AngleToDeg p1 p2
         | None => 0%Q
         end)) /\
  (GetSize (m_poly r) <= ind + 1 ->
   GetPolySegAngle r ind = if debug then AssertFailed else Ok 0%Q).
Proof.
  unfold GetPolySegAngle. split; intros H.
  - rewrite (proj2 (Nat.leb_gt _ _) H). unfold GetPoint, at_.
    destruct (nth_error (m_points (m_poly r)) ind) as [p1|] eqn:E;
      [|apply nth_error_None in E; unfold GetSize in H; lia].
    cbn [bind]. rewrite (nth_error_nth _ _ origin E). cbv zeta.
    apply seg_angle_loop_find. intros Hnil.
    assert (Hl : length (skipn (ind + 1) (m_points (m_poly r))) = 0) by (rewrite Hnil; reflexivity).
    rewrite length_skipn in Hl. unfold GetSize in H. lia.
  - rewrite (proj2 (Nat.leb_le _ _) H), ASSERT_false. now destruct debug.
Qed.

(** X20.  Matching a fix that has been matched changes nothing more, provided
    the projection of the coordinates written back lands on the cursor. *)
Theorem MatchLocationToRoute_idempotent (r r' : Route) (location location' : GpsInfo)
        (info info' : RouteMatchingInfo) :
  (forall p q, (0 <= DistanceOnEarth p q)%Q) ->
  (forall p, (DistanceOnEarth p (FromLatLon (YToLat (py p)) (XToLon (px p))) == 0)%Q) ->
  MatchLocationToRoute r location info = Ok (r', location', info') ->
  MatchLocationToRoute r' location' info' = Ok (r', location', info').
Proof.
  intros Hnonneg Hround H. unfold MatchLocationToRoute in H.
  destruct (PolyIsValid (m_poly r)) eqn:Hv.
  2:{ inversion H; subst. unfold MatchLocationToRoute. rewrite Hv. reflexivity. }
  destruct (Qlt_le_dec _ _) as [Hlt|Hge].
  2:{ inversion H; subst. unfold MatchLocationToRoute. rewrite Hv.
      destruct (Qlt_le_dec _ _) as [Hlt|_]; [|reflexivity].
      exfalso. exact (Qlt_not_le _ _ Hlt Hge). }
  apply bind_Ok_inv in H. destruct H as (bearing & Hb & H).
  apply bind_Ok_inv in H. destruct H as (d & Hd & H).
  inversion H; subst r' location' info'. clear H.
  unfold MatchLocationToRoute. rewrite Hv. cbn [m_latitude m_longitude m_bearing].
  destruct (Qlt_le_dec _ _) as [_|Hge2].
  - assert (Hb' : (if m_matchRoute (m_routingSettings r)
                   then a <- GetPolySegAngle r (m_ind (GetCurrentIter (m_poly r))) ;;
                        Ok (AngleToBearing a)
                   else Ok bearing) = Ok bearing).
    { destruct (m_matchRoute (m_routingSettings r)); [exact Hb | reflexivity]. }
    rewrite Hb'. cbn [bind]. rewrite Hd. reflexivity.
  - exfalso.
    pose proof (Hnonneg (m_pt (GetCurrentIter (m_poly r)))
                  (FromLatLon (m_latitude location) (m_longitude location))) as H0.
    rewrite (Hround (m_pt (GetCurrentIter (m_poly r)))) in Hge2. lra.
Qed.

End MatchingExtras.

(** Witness for [GetPolySegAngle_first_distinct]: on [stallRoute]
    vertices 1 and 2 are the same point; the bearing at vertex 1 is the
    angle to vertex 3. *)
Lemma GetPolySegAngle_first_distinct_witness :
  let r := stallRoute (cursorAt 0 0 0) in
  GetPolySegAngle (env := gridEnv true) r 1
  = Ok (AngleToDeg (Env := gridEnv true) (mkPoint 100 0) (mkPoint 200 0)).
Proof.
  intros r.
  apply (proj1 (GetPolySegAngle_first_distinct (env := gridEnv true) r 1)).
  cbn. lia.
Defined.

(** Witness for [MatchLocationToRoute_idempotent]: a fix 30 m off the
    cursor on vertex 2 of the five-vertex route. *)
Lemma MatchLocationToRoute_idempotent_witness :
  let r := fiveRoute (cursorAt 200 0 2) in
  let gps := mkGps 10 220 90 in
  let sink := mkMatching (mkPoint 0 0) 0 false 0 in
  exists location' info',
    MatchLocationToRoute (env := gridEnv true) r gps sink = Ok (r, location', info') /\
    m_latitude location' = 0%Q /\
    MatchLocationToRoute (env := gridEnv true) r location' info' = Ok (r, location', info').
Proof.
  intros r gps sink. eexists. eexists.
  assert (H : MatchLocationToRoute (env := gridEnv true) r gps sink
              = Ok (r, mkGps 0 (200 + 0) 0,
                    mkMatching (mkPoint (200 + 0) 0) 2 true
                               (Qsum [100; 100] + gridDistance (mkPoint 200 0) (mkPoint (200 + 0) 0))%Q)).
  { vm_compute. reflexivity. }
  split; [exact H|]. split; [reflexivity|].
  apply (MatchLocationToRoute_idempotent (env := gridEnv true) r r gps _ sink _).
  - intros p q. apply (DistanceOnEarth_nonneg (EnvLaws := gridEnv_laws true)).
  - intros [x y]. cbn. unfold gridDistance. cbn [px py].
    assert (Ex : (x - x == 0)%Q) by ring. assert (Ey : (y - y == 0)%Q) by ring.
    rewrite Ex, Ey. reflexivity.
  - exact H.
Defined.

(* ------------------------------------------------------------------ *)
(** ** The street ahead *)

Lemma Qlt_le_dec_Qeq {A} (d d' c : Q) (a b : A) :
  (d == d')%Q ->
  (if Qlt_le_dec d c then a else b) = (if Qlt_le_dec d' c then a else b).
Proof.
  intros E. destruct (Qlt_le_dec d c), (Qlt_le_dec d' c); try reflexivity;
    exfalso; rewrite E in *; lra.
Qed.

Lemma In_skipn_in {A} (l : list A) (n : nat) (x : A) : In x (skipn n l) -> In x l.
Proof. intros H. rewrite <- (firstn_skipn n l). apply in_or_app. right. exact H. Qed.

Section StreetExtras.
Context {env : Env} {laws : EnvLaws env}.

(** Arc length between a cursor on a vertex and a vertex of the path. *)
Lemma distance_between_vertices (p : FollowedPolyline) (i k : nat) (pt : PointD) :
  nth_error (m_points p) i = Some pt -> k < GetSize p ->
  exists d,
    (target <- GetIterToIndex p k ;; GetDistanceM p (mkIter pt i true) target) = Ok d /\
    (d == arcTo p k - arcTo p i)%Q.
Proof.
  intros Hi Hk. unfold GetIterToIndex, GetDistanceM, arcOf, GetPoint, at_.
  destruct (nth_error (m_points p) k) as [pk|] eqn:Hpk;
    [|apply nth_error_None in Hpk; unfold GetSize in Hk; lia].
  cbn [bind m_ind m_pt]. rewrite Hi. cbn [bind]. rewrite Hpk. cbn [bind].
  eexists. split; [reflexivity|]. rewrite !DistanceOnEarth_refl. ring.
Qed.

Lemma street_scan_ahead (r : Route) (idx : N) (pt : PointD) (rest : list TStreetItem) :
  nth_error (m_points (m_poly r)) (N.to_nat idx) = Some pt ->
  fits32 idx ->
  (forall s, In s rest -> N.to_nat (fst s) < GetSize (m_poly r)) ->
  street_scan r (mkIter pt (N.to_nat idx) true) rest = Ok (street_ahead r idx rest).
Proof.
  intros Hpt Hfit. induction rest as [|s rest IH]; intros Hrange; [reflexivity|].
  unfold street_ahead. cbn [street_scan find]. unfold named at 1.
  destruct (negb (String.eqb (snd s) EmptyString)) eqn:En.
  - cbn [m_ind]. rewrite static_cast_uint32_fits by (rewrite N2Nat.id; exact Hfit).
    rewrite N2Nat.id.
    assert (Hidx : N.to_nat idx < GetSize (m_poly r)).
    { unfold GetSize. apply nth_error_Some. congruence. }
    destruct (distance_between_vertices (m_poly r) (N.to_nat idx)
                (N.to_nat (N.max (fst s) idx)) pt Hpt) as (d & Hd & Hq).
    { specialize (Hrange s (or_introl eq_refl)). lia. }
    unfold bind in Hd |- *.
    destruct (GetIterToIndex (m_poly r) (N.to_nat (N.max (fst s) idx))); try discriminate.
    rewrite Hd. f_equal. apply Qlt_le_dec_Qeq. exact Hq.
  - apply IH. intros s' Hs'. apply Hrange. right. exact Hs'.
Qed.

(** X21.  [GetStreetNameAfterIdx] reads inside the tables and returns the name
    of the first named entry from the position of the street walk on,
    when that entry is less than 400 m ahead of vertex [idx]; otherwise
    the empty string.  In particular it returns the empty string or a
    name of the table. *)
Theorem GetStreetNameAfterIdx_ahead (r : Route) (idx : N) :
  StreetAheadPre r idx ->
  exists it,
    GetCurrentStreetNameIterAfter
      r (mkIter (nth (N.to_nat idx) (m_points (m_poly r)) origin) (N.to_nat idx) true)
    = Ok it /\
    it <= length (m_streets r) /\
    GetStreetNameAfterIdx r idx = Ok (street_ahead r idx (skipn it (m_streets r))) /\
    (street_ahead r idx (skipn it (m_streets r)) = EmptyString \/
     exists s, In s (m_streets r) /\
               snd s = street_ahead r idx (skipn it (m_streets r))).
Proof.
  intros (Hlen & Hrange & Hidx & Hfit).
  destruct (nth_error (m_points (m_poly r)) (N.to_nat idx)) as [pt|] eqn:Hpt;
    [|apply nth_error_None in Hpt; unfold GetSize in Hidx; lia].
  rewrite (nth_error_nth _ _ origin Hpt).
  assert (Hit : exists it,
             GetCurrentStreetNameIterAfter r (mkIter pt (N.to_nat idx) true) = Ok it /\
             it <= length (m_streets r)).
  { unfold GetCurrentStreetNameIterAfter.
    destruct (m_streets r) as [|p [|c rest]] eqn:Es;
      [eexists; split; [reflexivity | cbn; lia] | cbn in Hlen; lia |].
    destruct (street_walk_in_bounds (c :: rest) (N.to_nat idx) 0 ltac:(discriminate))
      as (k & Hk & Hb).
    exists k. split; [exact Hk | cbn [length] in *; lia]. }
  destruct Hit as (it & Hit & Hle). exists it.
  split; [exact Hit|]. split; [exact Hle|].
  assert (Hahead : forall rest, street_ahead r idx rest = EmptyString \/
                                exists s, In s rest /\ snd s = street_ahead r idx rest).
  { intros rest. unfold street_ahead. destruct (find named rest) as [s|] eqn:Ef;
      [|left; reflexivity].
    destruct (Qlt_le_dec _ _); [|left; reflexivity].
    right. exists s. split; [|reflexivity]. apply find_some in Ef. tauto. }
  split.
  - unfold GetStreetNameAfterIdx, GetIterToIndex, GetPoint, at_. rewrite Hpt. cbn [bind].
    rewrite Hit. cbn [bind].
    destruct (Nat.eqb_spec it (length (m_streets r))) as [E|E].
    + rewrite E, skipn_all. reflexivity.
    + apply street_scan_ahead; [exact Hpt | exact Hfit|].
      intros s Hs. apply Hrange. apply (In_skipn_in _ _ _ Hs).
  - destruct (Hahead (skipn it (m_streets r))) as [E|(s & Hs & E)]; [left; exact E|].
    right. exists s. split; [|exact E]. apply (In_skipn_in _ _ _ Hs).
Qed.

End StreetExtras.

(** Witness for [GetStreetNameAfterIdx_ahead]: with the table
    [(0,A); (3,B)], street A is ahead of vertex 1. *)
Lemma GetStreetNameAfterIdx_ahead_witness :
  let r := streetsRoute [(0%N, "A"%string); (3%N, "B"%string)] 0 in
  StreetAheadPre r 1 /\
  GetStreetNameAfterIdx (env := gridEnv true) r 1 = Ok "A"%string.
Proof.
  intros r.
  assert (H : StreetAheadPre r 1).
  { split; [cbn; lia|]. split; [intros s [<-|[<-|[]]]; cbn; lia|].
    split; [cbn; lia | reflexivity]. }
  split; [exact H|].
  destruct (GetStreetNameAfterIdx_ahead (laws := gridEnv_laws true) r 1 H)
    as (it & Hit & _ & Hres & _).
  vm_compute in Hit. inversion Hit; subst it.
  rewrite Hres. vm_compute. reflexivity.
Defined.

(** X22.  The current-street query reads outside the street table exactly when
    the table has a single entry, sorted or not; in every other case it
    returns the empty string or a name of the table. *)
Theorem GetCurrentStreetName_out_of_bounds (r : Route) :
  (GetCurrentStreetName r = OutOfBounds <-> length (m_streets r) = 1) /\
  (length (m_streets r) <> 1 ->
   exists name, GetCurrentStreetName r = Ok name /\
                (name = EmptyString \/ exists s, In s (m_streets r) /\ snd s = name)).
Proof.
  assert (Hok : length (m_streets r) <> 1 ->
                exists name, GetCurrentStreetName r = Ok name /\
                  (name = EmptyString \/ exists s, In s (m_streets r) /\ snd s = name)).
  { intros Hlen. unfold GetCurrentStreetName, GetCurrentStreetNameIterAfter.
    destruct (m_streets r) as [|p [|c rest]] eqn:Es;
      [exists EmptyString; split; [reflexivity | left; reflexivity]
      | cbn in Hlen; lia |].
    destruct (street_walk_in_bounds (c :: rest) (m_ind (GetCurrentIter (m_poly r))) 0
                ltac:(discriminate)) as (k & Hk & Hb).
    change (0 + 1) with 1 in Hk. rewrite Hk. cbn [bind].
    destruct (Nat.eqb_spec k (length (p :: c :: rest))) as [E|E];
      [exists EmptyString; split; [reflexivity | left; reflexivity]|].
    unfold at_. destruct (nth_error (p :: c :: rest) k) as [s|] eqn:En;
      [|apply nth_error_None in En; cbn [length] in *; lia].
    cbn [bind]. exists (snd s). split; [reflexivity|]. right.
    exists s. split; [eapply nth_error_In; exact En | reflexivity]. }
  split; [|exact Hok]. split.
  - intros Hoob. destruct (Nat.eq_dec (length (m_streets r)) 1) as [E|E]; [exact E|].
    destruct (Hok E) as (name & Hn & _). congruence.
  - intros Hlen. unfold GetCurrentStreetName.
    destruct (m_streets r) as [|e [|c rest]] eqn:Es; try discriminate.
    rewrite (street_walk_single_entry r e _ Es). reflexivity.
Qed.

(** Witness for [GetCurrentStreetName_out_of_bounds]: a table of two
    entries that is not sorted. *)
Lemma GetCurrentStreetName_out_of_bounds_witness :
  let r := streetsRoute [(3%N, "B"%string); (0%N, "A"%string)] 2 in
  exists name, GetCurrentStreetName r = Ok name /\
               (name = EmptyString \/ exists s, In s (m_streets r) /\ snd s = name).
Proof.
  intros r. apply (proj2 (GetCurrentStreetName_out_of_bounds r)). cbn. lia.
Defined.
